(** * Portfolio core: EventBus and PerformanceMonitor

    A shallow embedding of [src/core/EventBus.js] and
    [src/core/PerformanceMonitor.js], with the properties of the
    publish/subscribe registry and of the quality controller stated and
    proved over it.

    Modelling conventions.
    - A JavaScript function value (an event handler) is represented by its
      identity, a natural number; what the function does when it is called
      is given by a table [code] from identities to callbacks.  A callback
      performs a sequence of calls on the bus and then returns or throws.
    - A JavaScript [Set] is its [[SetData]] list: entries in insertion order,
      where a deleted entry leaves an empty slot.  [Set] objects live in a
      store and are referred to by index, so that a [Set] detached from its
      [Map] can still be iterated by a [forEach] in progress.
    - A JavaScript [Map] keyed by strings, used only through
      has/get/set/delete/clear, is a [gmap string _].
    - Executions that may not terminate (a handler that emits from inside
      an emit) are run with fuel.
    - A JavaScript number that the program computes with is an IEEE 754
      double, with the rounding of its operations.  The constants of a
      quality level are only passed on and are given by their values. *)

From Stdlib Require Import QArith ZArith Floats.SpecFloat.
From stdpp Require Import gmap strings list fin_maps pretty.

Local Open Scope string_scope.
Local Open Scope list_scope.
Local Open Scope nat_scope.

(** ** Values carried by events *)

(** The per-level parameter bundle of [qualityLevels]. *)
Record QualitySettings := {
  pixelRatio : Q;
  shadows : bool;
  particles : Z;
  antialiasing : bool
}.

(** The result of a property read [qualityLevels[key]] that is not
    [undefined]: an own property (a settings bundle) or a member inherited
    from [Object.prototype]. *)
Inductive JSValue :=
| Settings (s : QualitySettings)
| Inherited (name : string).

(** Event payloads.  [QualityChanged q s] is [{ quality: q, settings: s }],
    [FpsUpdate n] is [{ fps: n }], [Opaque n] stands for the payloads of
    the other producers. *)
Inductive Payload :=
| QualityChanged (quality : string) (settings : JSValue)
| FpsUpdate (fps : spec_float)
| Opaque (n : nat).

(** ** EventBus *)

Module EventBus.

(** Identity of a handler function. *)
Abbreviation Handler := nat (only parsing).

(** [[SetData]] of a [Set] of handlers; [None] is an empty slot. *)
Abbreviation SetData := (list (option nat)) (only parsing).

(** Calls a client can make on the bus.  [CallOff e h] is also what the
    unsubscribe function returned by [on e h] does when invoked. *)
Inductive Action :=
| CallOn (event : string) (callback : Handler)
| CallOnce (event : string) (callback : Handler)
| CallOff (event : string) (callback : Handler)
| CallEmit (event : string) (data : Payload)
| CallClear (event : string)
| CallClearAll
| CallListenerCount (event : string).

(** What a handler does when called: the bus calls it makes, in order, and
    whether it then throws. *)
Record Callback := {
  body : list Action;
  throws : option string
}.

(** The bus ([listeners], [onceListeners]), the store of [Set] objects it
    points into, and two traces: the handler invocations performed so far
    (event emitted, handler, data passed), and the lines written with
    [console.error] (the message prefix, the event, the error). *)
Record State := {
  sets : list SetData;
  listeners : gmap string nat;
  onceListeners : gmap string nat;
  invoked : list (string * Handler * Payload);
  errors : list (string * string * string)
}.

(** [new EventBus()] *)
Definition new_EventBus : State :=
  {| sets := []; listeners := ∅; onceListeners := ∅; invoked := []; errors := [] |}.

(** *** Set.prototype methods *)

Definition set_live (s : SetData) : list Handler := omap id s.

Definition set_add (h : Handler) (s : SetData) : SetData :=
  if decide (Some h ∈ s) then s else s ++ [Some h].

Definition set_delete (h : Handler) (s : SetData) : SetData :=
  (λ x, if decide (x = Some h) then None else x) <$> s.

Definition set_size (s : SetData) : nat := length (set_live s).

(** The [Set] object behind a reference. *)
Definition deref (b : State) (r : nat) : SetData := default [] (sets b !! r).

Definition with_sets (f : list SetData → list SetData) (b : State) : State :=
  {| sets := f (sets b); listeners := listeners b; onceListeners := onceListeners b;
     invoked := invoked b; errors := errors b |}.

Definition with_listeners (f : gmap string nat → gmap string nat) (b : State) : State :=
  {| sets := sets b; listeners := f (listeners b); onceListeners := onceListeners b;
     invoked := invoked b; errors := errors b |}.

Definition with_onceListeners (f : gmap string nat → gmap string nat) (b : State) : State :=
  {| sets := sets b; listeners := listeners b; onceListeners := f (onceListeners b);
     invoked := invoked b; errors := errors b |}.

Definition record_call (event : string) (h : Handler) (data : Payload) (b : State) : State :=
  {| sets := sets b; listeners := listeners b; onceListeners := onceListeners b;
     invoked := invoked b ++ [(event, h, data)]; errors := errors b |}.

Definition console_error (prefix event error : string) (b : State) : State :=
  {| sets := sets b; listeners := listeners b; onceListeners := onceListeners b;
     invoked := invoked b; errors := errors b ++ [(prefix, event, error)] |}.

(** *** Methods without callbacks *)

(** [on(event, callback)]: returns the unsubscribe function and the new state. *)
Definition on (event : string) (callback : Handler) (b : State) : Action * State :=
  let b1 :=
    match listeners b !! event with
    | Some _ => b
    | None => with_listeners <[event := length (sets b)]> (with_sets (λ ss, ss ++ [[]]) b)
    end in
  let b2 :=
    match listeners b1 !! event with
    | Some r => with_sets (alter (set_add callback) r) b1
    | None => b1
    end in
  (CallOff event callback, b2).

(** [once(event, callback)] *)
Definition once (event : string) (callback : Handler) (b : State) : State :=
  let b1 :=
    match onceListeners b !! event with
    | Some _ => b
    | None => with_onceListeners <[event := length (sets b)]> (with_sets (λ ss, ss ++ [[]]) b)
    end in
  match onceListeners b1 !! event with
  | Some r => with_sets (alter (set_add callback) r) b1
  | None => b1
  end.

(** [off(event, callback)] *)
Definition off (event : string) (callback : Handler) (b : State) : State :=
  let b1 :=
    match listeners b !! event with
    | Some r => with_sets (alter (set_delete callback) r) b
    | None => b
    end in
  match onceListeners b1 !! event with
  | Some r => with_sets (alter (set_delete callback) r) b1
  | None => b1
  end.

(** [clear(event)] *)
Definition clear (event : string) (b : State) : State :=
  with_onceListeners (delete event) (with_listeners (delete event) b).

(** [clearAll()] *)
Definition clearAll (b : State) : State :=
  with_onceListeners (λ _, ∅) (with_listeners (λ _, ∅) b).

(** [listenerCount(event)] *)
Definition listenerCount (event : string) (b : State) : nat :=
  let regularCount :=
    match listeners b !! event with Some r => set_size (deref b r) | None => 0 end in
  let onceCount :=
    match onceListeners b !! event with Some r => set_size (deref b r) | None => 0 end in
  regularCount + onceCount.

(** *** emit *)

(** How a call ends: it returns, it throws, or the fuel ran out. *)
Inductive Signal :=
| Normal
| Throw (error : string)
| Diverge.

Section Dispatch.

(** What each handler function does. *)
Variable code : Handler → Callback.

Section Calls.

(** [emit] as available to the handlers being run. *)
Variable emit_ : string → Payload → State → Signal * State.

Definition run_action (a : Action) (b : State) : Signal * State :=
  match a with
  | CallOn e h => (Normal, snd (on e h b))
  | CallOnce e h => (Normal, once e h b)
  | CallOff e h => (Normal, off e h b)
  | CallEmit e d => emit_ e d b
  | CallClear e => (Normal, clear e b)
  | CallClearAll => (Normal, clearAll b)
  | CallListenerCount e => let _ := listenerCount e b in (Normal, b)
  end.

(** A sequence of bus calls, stopped by the first one that does not return. *)
Fixpoint run_body (acts : list Action) (b : State) : Signal * State :=
  match acts with
  | [] => (Normal, b)
  | a :: rest =>
      match run_action a b with
      | (Normal, b1) => run_body rest b1
      | stop => stop
      end
  end.

(** [callback(data)] *)
Definition invoke (event : string) (h : Handler) (data : Payload) (b : State)
  : Signal * State :=
  match run_body (body (code h)) (record_call event h data b) with
  | (Normal, b1) =>
      match throws (code h) with
      | Some error => (Throw error, b1)
      | None => (Normal, b1)
      end
  | stop => stop
  end.

(** The arrow function passed to [forEach]:
    [try { callback(data) } catch (error) { console.error(...) }] *)
Definition guarded (prefix event : string) (data : Payload) (h : Handler) (b : State)
  : Signal * State :=
  match invoke event h data b with
  | (Throw error, b1) => (Normal, console_error prefix event error b1)
  | other => other
  end.

(** [Set.prototype.forEach] on the set behind [r], from position [index]:
    the entries are read again at every step, so entries added while it
    runs are visited and entries deleted before their turn are not. *)
Fixpoint forEach (fuel : nat) (f : Handler → State → Signal * State)
    (r index : nat) (b : State) : Signal * State :=
  match fuel with
  | 0 => (Diverge, b)
  | S fuel' =>
      match deref b r !! index with
      | None => (Normal, b)
      | Some None => forEach fuel' f r (S index) b
      | Some (Some h) =>
          match f h b with
          | (Normal, b1) => forEach fuel' f r (S index) b1
          | stop => stop
          end
      end
  end.

Definition emit_step (fuel : nat) (event : string) (data : Payload) (b : State)
  : Signal * State :=
  let fired :=
    match listeners b !! event with
    | Some r => forEach fuel (guarded "Error in event listener for" event data) r 0 b
    | None => (Normal, b)
    end in
  match fired with
  | (Normal, b1) =>
      match onceListeners b1 !! event with
      | Some r =>
          match forEach fuel (guarded "Error in once listener for" event data) r 0 b1 with
          | (Normal, b2) => (Normal, with_onceListeners (delete event) b2)
          | stop => stop
          end
      | None => (Normal, b1)
      end
  | stop => stop
  end.

End Calls.

(** [emit(event, data)] *)
Fixpoint emit (fuel : nat) (event : string) (data : Payload) (b : State)
  : Signal * State :=
  match fuel with
  | 0 => (Diverge, b)
  | S fuel' => emit_step (emit fuel') fuel' event data b
  end.

(** A client program: a sequence of calls on the bus. *)
Definition run (fuel : nat) (script : list Action) (b : State) : Signal * State :=
  run_body (emit fuel) script b.

End Dispatch.

(** Handlers currently registered for an event, in the order [emit] visits them. *)
Definition persistent_regs (event : string) (b : State) : list Handler :=
  match listeners b !! event with Some r => set_live (deref b r) | None => [] end.

Definition once_regs (event : string) (b : State) : list Handler :=
  match onceListeners b !! event with Some r => set_live (deref b r) | None => [] end.

(** A handler that does nothing and returns. *)
Definition inert : Callback := {| body := []; throws := None |}.

End EventBus.

(** ** PerformanceMonitor *)

Module PerformanceMonitor.

(** A JavaScript number is an IEEE 754 double: a [spec_float] of the
    Standard Library, with its operations at precision 53 and maximal
    exponent 1024, which round to nearest, ties to even. *)
Abbreviation JSNumber := spec_float (only parsing).

Definition NaN : JSNumber := S754_nan.

(** The number that an integer literal denotes. *)
Definition num (z : Z) : JSNumber := binary_normalize 53 1024 z 0 false.

Definition num_sub (a b : JSNumber) : JSNumber := SFsub 53 1024 a b.

Definition num_add (a b : JSNumber) : JSNumber := SFadd 53 1024 a b.

Definition num_mul (a b : JSNumber) : JSNumber := SFmul 53 1024 a b.

Definition num_div (a b : JSNumber) : JSNumber := SFdiv 53 1024 a b.

(** [a > b], [a < b] and [a >= b]; every comparison with NaN is false. *)
Definition num_gt (a b : JSNumber) : bool := SFltb b a.

Definition num_lt (a b : JSNumber) : bool := SFltb a b.

Definition num_ge (a b : JSNumber) : bool := SFleb b a.

(** The number read from a field that may be [undefined]. *)
Definition to_number (v : option JSNumber) : JSNumber :=
  match v with
  | Some x => x
  | None => NaN
  end.

(** [Math.round]: the nearest integer, halves going up; a zero, an infinity
    and NaN are returned as they are, and what rounds to zero keeps the sign
    of the argument. *)
Definition Math_round (x : JSNumber) : JSNumber :=
  match x with
  | S754_finite s m e =>
      if (0 <=? e)%Z then x
      else
        let d := (2 ^ (- e))%Z in
        let n := ((2 * cond_Zopp s (Z.pos m) + d) / (2 * d))%Z in
        if (n =? 0)%Z then S754_zero s else num n
  | _ => x
  end.

Arguments num : simpl never.
Arguments num_sub : simpl never.
Arguments num_add : simpl never.
Arguments num_mul : simpl never.
Arguments num_div : simpl never.
Arguments num_gt : simpl never.
Arguments num_lt : simpl never.
Arguments num_ge : simpl never.
Arguments Math_round : simpl never.

Inductive ConsoleLine :=
| Warn (message : string)
| Log (message : string) (fps : JSNumber).

(** The fields of the monitor that its methods assign, the calls it has made
    on [this.eventBus.emit] (oldest first) and the console lines it has
    written.  [beginTime] is [undefined] until [begin()] is called.  The
    bus runs the subscribed handlers inside [emit]; they are taken not to
    call the monitor, as is the case of the handlers of this repository, so
    that an emit leaves the fields as they are. *)
Record State := {
  fps : JSNumber;
  frameTime : JSNumber;
  lastTime : JSNumber;
  frames : JSNumber;
  lastFpsUpdate : JSNumber;
  currentQuality : string;
  autoQualityAdjust : bool;
  frameTimes : list JSNumber;
  beginTime : option JSNumber;
  emitted : list (string * Payload);
  console : list ConsoleLine
}.

(** Fields assigned in the constructor only. *)
Definition fpsUpdateInterval : JSNumber := num 1000.
Definition targetFPS : JSNumber := num 60.
Definition minAcceptableFPS : JSNumber := num 30.
Definition maxFrameTimeSamples : nat := 60.

Definition HIGH : QualitySettings :=
  {| pixelRatio := 2; shadows := true; particles := 1000; antialiasing := true |}.
Definition MEDIUM : QualitySettings :=
  {| pixelRatio := 3 # 2; shadows := true; particles := 500; antialiasing := true |}.
Definition LOW : QualitySettings :=
  {| pixelRatio := 1; shadows := false; particles := 200; antialiasing := false |}.

(** Names that every plain object inherits from [Object.prototype]; each of
    them reads as a function or an object, hence as a truthy value. *)
Definition Object_prototype : list string :=
  [ "constructor"; "hasOwnProperty"; "isPrototypeOf"; "propertyIsEnumerable";
    "toLocaleString"; "toString"; "valueOf"; "__proto__";
    "__defineGetter__"; "__defineSetter__"; "__lookupGetter__"; "__lookupSetter__" ].

(** [this.qualityLevels[key]] on the object literal of the constructor;
    [None] is [undefined]. *)
Definition qualityLevels (key : string) : option JSValue :=
  if decide (key = "HIGH") then Some (Settings HIGH)
  else if decide (key = "MEDIUM") then Some (Settings MEDIUM)
  else if decide (key = "LOW") then Some (Settings LOW)
  else if decide (key ∈ Object_prototype) then Some (Inherited key)
  else None.

(** [new PerformanceMonitor()], with the two readings of [performance.now()]. *)
Definition new_PerformanceMonitor (now0 now1 : JSNumber) : State :=
  {| fps := num 60; frameTime := num 0; lastTime := now0; frames := num 0;
     lastFpsUpdate := now1; currentQuality := "HIGH"; autoQualityAdjust := true;
     frameTimes := []; beginTime := None; emitted := []; console := [] |}.

Definition eventBus_emit (event : string) (data : Payload) (s : State) : State :=
  {| fps := fps s; frameTime := frameTime s; lastTime := lastTime s; frames := frames s;
     lastFpsUpdate := lastFpsUpdate s; currentQuality := currentQuality s;
     autoQualityAdjust := autoQualityAdjust s; frameTimes := frameTimes s;
     beginTime := beginTime s; emitted := emitted s ++ [(event, data)];
     console := console s |}.

Definition console_write (line : ConsoleLine) (s : State) : State :=
  {| fps := fps s; frameTime := frameTime s; lastTime := lastTime s; frames := frames s;
     lastFpsUpdate := lastFpsUpdate s; currentQuality := currentQuality s;
     autoQualityAdjust := autoQualityAdjust s; frameTimes := frameTimes s;
     beginTime := beginTime s; emitted := emitted s;
     console := console s ++ [line] |}.

Definition set_currentQuality (quality : string) (s : State) : State :=
  {| fps := fps s; frameTime := frameTime s; lastTime := lastTime s; frames := frames s;
     lastFpsUpdate := lastFpsUpdate s; currentQuality := quality;
     autoQualityAdjust := autoQualityAdjust s; frameTimes := frameTimes s;
     beginTime := beginTime s; emitted := emitted s; console := console s |}.

(** [begin()] *)
Definition begin (now : JSNumber) (s : State) : State :=
  {| fps := fps s; frameTime := frameTime s; lastTime := lastTime s; frames := frames s;
     lastFpsUpdate := lastFpsUpdate s; currentQuality := currentQuality s;
     autoQualityAdjust := autoQualityAdjust s; frameTimes := frameTimes s;
     beginTime := Some now; emitted := emitted s; console := console s |}.

(** [getAverageFrameTime()] *)
Definition getAverageFrameTime (s : State) : JSNumber :=
  match frameTimes s with
  | [] => num 0
  | _ =>
      let sum := foldl num_add (num 0) (frameTimes s) in
      num_div sum (num (Z.of_nat (length (frameTimes s))))
  end.

(** [setQuality(quality)] *)
Definition setQuality (quality : string) (s : State) : State :=
  match qualityLevels quality with
  | None => console_write (Warn ("Invalid quality level: " +:+ quality)) s
  | Some settings =>
      eventBus_emit "performance:quality-changed" (QualityChanged quality settings)
        (set_currentQuality quality s)
  end.

(** [adjustQuality()] *)
Definition adjustQuality (s : State) : State :=
  let avgFrameTime := getAverageFrameTime s in
  let currentFPS := fps s in
  let s1 :=
    if num_lt currentFPS minAcceptableFPS && num_gt avgFrameTime (num 33) then
      if decide (currentQuality s = "HIGH") then
        console_write (Log "Quality downgraded to MEDIUM (FPS:" currentFPS)
          (setQuality "MEDIUM" s)
      else if decide (currentQuality s = "MEDIUM") then
        console_write (Log "Quality downgraded to LOW (FPS:" currentFPS)
          (setQuality "LOW" s)
      else s
    else s in
  if num_ge currentFPS targetFPS && num_lt avgFrameTime (num 16) then
    if decide (currentQuality s1 = "LOW") then
      console_write (Log "Quality upgraded to MEDIUM (FPS:" currentFPS)
        (setQuality "MEDIUM" s1)
    else if decide (currentQuality s1 = "MEDIUM") then
      console_write (Log "Quality upgraded to HIGH (FPS:" currentFPS)
        (setQuality "HIGH" s1)
    else s1
  else s1.

(** [setAutoQualityAdjust(enabled)] *)
Definition setAutoQualityAdjust (enabled : bool) (s : State) : State :=
  {| fps := fps s; frameTime := frameTime s; lastTime := lastTime s; frames := frames s;
     lastFpsUpdate := lastFpsUpdate s; currentQuality := currentQuality s;
     autoQualityAdjust := enabled; frameTimes := frameTimes s;
     beginTime := beginTime s; emitted := emitted s; console := console s |}.

(** The first half of [end()]: the frame is timed, counted and pushed on the
    sample window, whose oldest sample is dropped past the capacity. *)
Definition record_frame (currentTime : JSNumber) (s : State) : State :=
  let frameTime' := num_sub currentTime (to_number (beginTime s)) in
  let pushed := frameTimes s ++ [frameTime'] in
  {| fps := fps s; frameTime := frameTime'; lastTime := lastTime s;
     frames := num_add (frames s) (num 1);
     lastFpsUpdate := lastFpsUpdate s; currentQuality := currentQuality s;
     autoQualityAdjust := autoQualityAdjust s;
     frameTimes := if decide (maxFrameTimeSamples < length pushed) then tail pushed else pushed;
     beginTime := beginTime s; emitted := emitted s; console := console s |}.

(** The fps computed at an evaluation. *)
Definition computed_fps (currentTime : JSNumber) (s : State) : JSNumber :=
  Math_round (num_div (num_mul (frames s) (num 1000))
                (num_sub currentTime (lastFpsUpdate s))).

(** The assignments that open the [if] of [end()]. *)
Definition update_fps (currentTime : JSNumber) (s : State) : State :=
  {| fps := computed_fps currentTime s; frameTime := frameTime s; lastTime := lastTime s;
     frames := num 0;
     lastFpsUpdate := currentTime; currentQuality := currentQuality s;
     autoQualityAdjust := autoQualityAdjust s; frameTimes := frameTimes s;
     beginTime := beginTime s; emitted := emitted s; console := console s |}.

Definition set_lastTime (currentTime : JSNumber) (s : State) : State :=
  {| fps := fps s; frameTime := frameTime s; lastTime := currentTime; frames := frames s;
     lastFpsUpdate := lastFpsUpdate s; currentQuality := currentQuality s;
     autoQualityAdjust := autoQualityAdjust s; frameTimes := frameTimes s;
     beginTime := beginTime s; emitted := emitted s; console := console s |}.

(** Whether this [end()] is an evaluation tick:
    [currentTime - this.lastFpsUpdate >= this.fpsUpdateInterval]. *)
Definition evaluation_due (currentTime : JSNumber) (s : State) : bool :=
  num_ge (num_sub currentTime (lastFpsUpdate s)) fpsUpdateInterval.

(** [end()], with the reading of [performance.now()]. *)
Definition end_ (currentTime : JSNumber) (s : State) : State :=
  let s1 := record_frame currentTime s in
  let s2 :=
    if evaluation_due currentTime s1 then
      let s3 := update_fps currentTime s1 in
      let s4 := if autoQualityAdjust s3 then adjustQuality s3 else s3 in
      eventBus_emit "performance:fps" (FpsUpdate (fps s4)) s4
    else s1 in
  set_lastTime currentTime s2.

(** [reset()], with the two readings of [performance.now()]. *)
Definition reset (now0 now1 : JSNumber) (s : State) : State :=
  {| fps := num 60; frameTime := num 0; lastTime := now1; frames := num 0;
     lastFpsUpdate := now0; currentQuality := currentQuality s;
     autoQualityAdjust := autoQualityAdjust s; frameTimes := [];
     beginTime := beginTime s; emitted := emitted s; console := console s |}.

(** [getQuality()] *)
Definition getQuality (s : State) : string := currentQuality s.

(** Calls on the monitor, as a host makes them. *)
Inductive Call :=
| Begin (now : JSNumber)
| End (now : JSNumber)
| SetQuality (quality : string)
| SetAutoQualityAdjust (enabled : bool)
| Reset (now0 now1 : JSNumber).

Definition call (c : Call) (s : State) : State :=
  match c with
  | Begin now => begin now s
  | End now => end_ now s
  | SetQuality quality => setQuality quality s
  | SetAutoQualityAdjust enabled => setAutoQualityAdjust enabled s
  | Reset now0 now1 => reset now0 now1 s
  end.

Definition calls (cs : list Call) (s : State) : State := foldl (λ s c, call c s) s cs.

End PerformanceMonitor.

(** ** Properties of the quality controller *)

Module QualityControl.
Import PerformanceMonitor.

(** One level down, as the specification words it: HIGH to MEDIUM, MEDIUM to
    LOW, nothing otherwise. *)
Definition step_down (level : string) : string :=
  if decide (level = "HIGH") then "MEDIUM"
  else if decide (level = "MEDIUM") then "LOW"
  else level.

(** One level up: LOW to MEDIUM, MEDIUM to HIGH, nothing otherwise. *)
Definition step_up (level : string) : string :=
  if decide (level = "LOW") then "MEDIUM"
  else if decide (level = "MEDIUM") then "HIGH"
  else level.

(** The level the specification asks for after an evaluation with the given
    fps and average frame time. *)
Definition evaluated_level (fps avgFrameTime : JSNumber) (level : string) : string :=
  if num_lt fps (num 30) && num_gt avgFrameTime (num 33) then step_down level
  else if num_ge fps (num 60) && num_lt avgFrameTime (num 16) then step_up level
  else level.

(** Position in the ordering LOW < MEDIUM < HIGH. *)
Definition rank (level : string) : option nat :=
  if decide (level = "LOW") then Some 0
  else if decide (level = "MEDIUM") then Some 1
  else if decide (level = "HIGH") then Some 2
  else None.

(** The same level, or a neighbour in the ordering. *)
Definition at_most_one_step (before after : string) : Prop :=
  before = after ∨
  ∃ i j, rank before = Some i ∧ rank after = Some j ∧ (i = S j ∨ j = S i).

(** Calls that time frames; they leave the manual controls alone. *)
Definition frame_call (c : Call) : bool :=
  match c with
  | Begin _ | End _ | Reset _ _ => true
  | SetQuality _ | SetAutoQualityAdjust _ => false
  end.

(** A number below 30 is not at least 60, whatever double it is. *)
Lemma below_30_not_above_60 (x : JSNumber) :
  num_lt x (num 30) = true → num_ge x (num 60) = false.
Proof.
  change (num 30) with (S754_finite false 8444249301319680 (-48)).
  change (num 60) with (S754_finite false 8444249301319680 (-47)).
  unfold num_lt, num_ge, SFltb, SFleb.
  destruct x as [sx | sx | | sx m e]; cbn [SFcompare]; try done.
  - by destruct sx.
  - destruct sx; [done |].
    destruct (Z.compare_spec e (-48)), (Z.compare_spec (-47) e); try done; lia.
Qed.

Lemma currentQuality_setQuality_level level s :
  level ∈ ["HIGH"; "MEDIUM"; "LOW"] →
  currentQuality (setQuality level s) = level.
Proof.
  intros Hl. repeat (apply elem_of_cons in Hl as [-> | Hl]); try reflexivity.
  by apply elem_of_nil in Hl.
Qed.

Lemma currentQuality_adjustQuality s :
  currentQuality (adjustQuality s)
  = evaluated_level (fps s) (getAverageFrameTime s) (currentQuality s).
Proof.
  unfold adjustQuality, evaluated_level, step_down, step_up,
    minAcceptableFPS, targetFPS.
  destruct (num_lt (fps s) (num 30)) eqn:Hlow; simpl.
  - rewrite (below_30_not_above_60 _ Hlow). simpl.
    destruct (num_gt (getAverageFrameTime s) (num 33)); [| reflexivity].
    repeat case_decide; reflexivity.
  - destruct (num_ge (fps s) (num 60) && num_lt (getAverageFrameTime s) (num 16));
      [| reflexivity].
    repeat case_decide; reflexivity.
Qed.

Lemma fps_adjustQuality s : fps (adjustQuality s) = fps s.
Proof.
  unfold adjustQuality.
  repeat (match goal with |- context [if ?c then _ else _] => destruct c end);
    reflexivity.
Qed.

Lemma fps_end now s :
  fps (end_ now s) =
    if evaluation_due now (record_frame now s)
    then computed_fps now (record_frame now s) else fps s.
Proof.
  unfold end_.
  destruct (evaluation_due now (record_frame now s)); [| reflexivity].
  change (autoQualityAdjust (update_fps now (record_frame now s)))
    with (autoQualityAdjust s).
  destruct (autoQualityAdjust s); [| reflexivity].
  change (fps (adjustQuality (update_fps now (record_frame now s)))
          = computed_fps now (record_frame now s)).
  by rewrite fps_adjustQuality.
Qed.

Lemma step_down_at_most_one level : at_most_one_step level (step_down level).
Proof.
  unfold step_down. repeat case_decide; subst; [right | right | by left].
  - exists 2, 1. by repeat split; [..| left].
  - exists 1, 0. by repeat split; [..| left].
Qed.

Lemma step_up_at_most_one level : at_most_one_step level (step_up level).
Proof.
  unfold step_up. repeat case_decide; subst; [right | right | by left].
  - exists 0, 1. by repeat split; [..| right].
  - exists 1, 2. by repeat split; [..| right].
Qed.

Lemma evaluated_level_at_most_one fps avg level :
  at_most_one_step level (evaluated_level fps avg level).
Proof.
  unfold evaluated_level.
  destruct (_ && _); [apply step_down_at_most_one |].
  destruct (_ && _); [apply step_up_at_most_one | by left].
Qed.

Lemma currentQuality_end now s :
  currentQuality (end_ now s) =
    if evaluation_due now (record_frame now s) && autoQualityAdjust s
    then evaluated_level (computed_fps now (record_frame now s))
           (getAverageFrameTime (record_frame now s)) (currentQuality s)
    else currentQuality s.
Proof.
  unfold end_.
  destruct (evaluation_due now (record_frame now s)); [| reflexivity].
  change (autoQualityAdjust (update_fps now (record_frame now s)))
    with (autoQualityAdjust s).
  destruct (autoQualityAdjust s); [| reflexivity].
  change (currentQuality (adjustQuality (update_fps now (record_frame now s)))
          = evaluated_level (computed_fps now (record_frame now s))
              (getAverageFrameTime (record_frame now s)) (currentQuality s)).
  by rewrite currentQuality_adjustQuality.
Qed.

(** C1: at an evaluation tick with automatic adjustment enabled, the level
    after [end()] is one step down when the computed fps is below 30 and the
    average frame time exceeds 33 ms (HIGH to MEDIUM, MEDIUM to LOW, LOW
    stays), else one step up when the fps is at least 60 and the average is
    below 16 ms (LOW to MEDIUM, MEDIUM to HIGH, HIGH stays), and the same
    level otherwise. *)
Theorem evaluation_steps_one_level now s :
  autoQualityAdjust s = true →
  evaluation_due now (record_frame now s) = true →
  let fps' := computed_fps now (record_frame now s) in
  let avgFrameTime := getAverageFrameTime (record_frame now s) in
  fps (end_ now s) = fps' ∧
  currentQuality (end_ now s) =
    (if num_lt fps' (num 30) && num_gt avgFrameTime (num 33) then
       if decide (currentQuality s = "HIGH") then "MEDIUM"
       else if decide (currentQuality s = "MEDIUM") then "LOW"
       else currentQuality s
     else if num_ge fps' (num 60) && num_lt avgFrameTime (num 16) then
       if decide (currentQuality s = "LOW") then "MEDIUM"
       else if decide (currentQuality s = "MEDIUM") then "HIGH"
       else currentQuality s
     else currentQuality s).
Proof.
  intros Hauto Hdue fps' avgFrameTime. split.
  - by rewrite fps_end, Hdue.
  - by rewrite currentQuality_end, Hdue, Hauto.
Qed.

Lemma evaluation_steps_one_level_witness :
  let s := begin (num 0) (new_PerformanceMonitor (num 0) (num 0)) in
  autoQualityAdjust s = true ∧
  evaluation_due (num 1000) (record_frame (num 1000) s) = true ∧
  currentQuality (end_ (num 1000) s) = "MEDIUM" ∧
  currentQuality (end_ (num 2000) (begin (num 1000) (end_ (num 1000) s))) = "LOW".
Proof.
  intros s.
  assert (autoQualityAdjust s = true) as Hauto by reflexivity.
  assert (evaluation_due (num 1000) (record_frame (num 1000) s) = true) as Hdue
    by (vm_compute; reflexivity).
  split; [exact Hauto |]. split; [exact Hdue |]. split.
  - destruct (evaluation_steps_one_level (num 1000) s Hauto Hdue) as [_ ->].
    vm_compute. reflexivity.
  - set (s' := begin (num 1000) (end_ (num 1000) s)).
    assert (autoQualityAdjust s' = true) as Hauto' by (vm_compute; reflexivity).
    assert (evaluation_due (num 2000) (record_frame (num 2000) s') = true) as Hdue'
      by (vm_compute; reflexivity).
    destruct (evaluation_steps_one_level (num 2000) s' Hauto' Hdue') as [_ ->].
    vm_compute. reflexivity.
Defined.

(** C5: a single [end()] call, from any state of the monitor, leaves the
    level where it is or moves it to a neighbour in LOW < MEDIUM < HIGH; from
    HIGH it yields HIGH or MEDIUM, never LOW. *)
Theorem tick_moves_at_most_one_step now s :
  at_most_one_step (currentQuality s) (currentQuality (end_ now s)) ∧
  (currentQuality s = "HIGH" →
   (currentQuality (end_ now s) = "HIGH" ∨ currentQuality (end_ now s) = "MEDIUM") ∧
   currentQuality (end_ now s) ≠ "LOW").
Proof.
  rewrite currentQuality_end. split.
  - destruct (_ && _); [apply evaluated_level_at_most_one | by left].
  - intros ->. destruct (_ && _); [| by split; [left |]].
    unfold evaluated_level, step_down, step_up.
    repeat (match goal with |- context [if ?c then _ else _] => destruct c end);
      (split; [first [by left | by right] | done]).
Qed.

Lemma tick_moves_at_most_one_step_witness :
  let s := begin (num 0) (new_PerformanceMonitor (num 0) (num 0)) in
  currentQuality s = "HIGH" ∧ currentQuality (end_ (num 1000) s) ≠ "LOW".
Proof.
  intros s. split; [reflexivity |].
  exact (proj2 (proj2 (tick_moves_at_most_one_step (num 1000) s) eq_refl)).
Defined.

(** [setQuality] with a key that [qualityLevels] does not have, on the
    object or on its prototype: a warning, and nothing else. *)
Lemma setQuality_undefined_level level s :
  qualityLevels level = None →
  setQuality level s = console_write (Warn ("Invalid quality level: " +:+ level)) s.
Proof. intros H. unfold setQuality. by rewrite H. Qed.

(** C8 (the code departs from it): ["toString"] is not one of the three
    levels, yet [qualityLevels["toString"]] is the function inherited from
    [Object.prototype], so the guard of [setQuality] lets it through: the
    active level becomes ["toString"], a quality-changed event is emitted
    and no diagnostic is written. *)
Theorem setQuality_accepts_inherited_key :
  let s := new_PerformanceMonitor (num 0) (num 0) in
  ("toString" ∉ ["LOW"; "MEDIUM"; "HIGH"]) ∧
  currentQuality s = "HIGH" ∧
  currentQuality (setQuality "toString" s) = "toString" ∧
  emitted (setQuality "toString" s)
  = [("performance:quality-changed", QualityChanged "toString" (Inherited "toString"))] ∧
  console (setQuality "toString" s) = [].
Proof.
  intros s. split; [| by repeat split].
  intros H. repeat (apply elem_of_cons in H as [H | H]; [discriminate |]).
  by apply elem_of_nil in H.
Qed.

Lemma frame_call_frozen c s :
  frame_call c = true →
  autoQualityAdjust s = false →
  autoQualityAdjust (call c s) = false ∧ currentQuality (call c s) = currentQuality s.
Proof.
  intros Hc Hoff. destruct c; try discriminate; cbn [call].
  - by split.
  - split.
    + unfold end_. destruct (evaluation_due now (record_frame now s)); [| done].
      change (autoQualityAdjust (update_fps now (record_frame now s)))
        with (autoQualityAdjust s).
      by rewrite Hoff.
    + by rewrite currentQuality_end, Hoff, andb_false_r.
  - by split.
Qed.

Lemma frame_calls_frozen cs s :
  forallb frame_call cs = true →
  autoQualityAdjust s = false →
  autoQualityAdjust (calls cs s) = false ∧ currentQuality (calls cs s) = currentQuality s.
Proof.
  revert s. induction cs as [| c cs IH]; intros s Hcs Hoff; [done |].
  simpl in Hcs. apply andb_prop in Hcs as [Hc Hcs].
  destruct (frame_call_frozen c s Hc Hoff) as [Hoff' Hq].
  destruct (IH (call c s) Hcs Hoff') as [? ?].
  unfold calls in *. simpl. split; congruence.
Qed.

(** C9: after [setAutoQualityAdjust(false)], whatever frames are then timed
    (and whatever resets are made), the level is the one it was, also after
    one more [end()]; and when that [end()] is an evaluation tick, the fps
    is recomputed and the fps event is emitted. *)
Theorem disabled_adjustment_freezes_level s cs now :
  forallb frame_call cs = true →
  let s1 := calls cs (setAutoQualityAdjust false s) in
  currentQuality s1 = currentQuality s ∧
  currentQuality (end_ now s1) = currentQuality s ∧
  (evaluation_due now (record_frame now s1) = true →
   fps (end_ now s1) = computed_fps now (record_frame now s1) ∧
   emitted (end_ now s1)
   = emitted s1 ++ [("performance:fps", FpsUpdate (computed_fps now (record_frame now s1)))]).
Proof.
  intros Hcs s1.
  destruct (frame_calls_frozen cs (setAutoQualityAdjust false s) Hcs eq_refl)
    as [Hoff Hq].
  fold s1 in Hoff, Hq. change (currentQuality (setAutoQualityAdjust false s))
    with (currentQuality s) in Hq.
  split; [done |]. split.
  - by rewrite currentQuality_end, Hoff, andb_false_r.
  - intros Hdue. split; [by rewrite fps_end, Hdue |].
    unfold end_. rewrite Hdue.
    change (autoQualityAdjust (update_fps now (record_frame now s1)))
      with (autoQualityAdjust s1).
    by rewrite Hoff.
Qed.

Lemma disabled_adjustment_freezes_level_witness :
  let s := new_PerformanceMonitor (num 0) (num 0) in
  let cs := [Begin (num 0); End (num 1000); Begin (num 1000); End (num 2000);
             Begin (num 2000)] in
  let s1 := calls cs (setAutoQualityAdjust false s) in
  forallb frame_call cs = true ∧
  evaluation_due (num 3000) (record_frame (num 3000) s1) = true ∧
  currentQuality (end_ (num 3000) s1) = "HIGH" ∧
  fps (end_ (num 3000) s1) = num 1 ∧
  emitted (end_ (num 3000) s1) = emitted s1 ++ [("performance:fps", FpsUpdate (num 1))].
Proof.
  intros s cs s1.
  assert (forallb frame_call cs = true) as Hcs by reflexivity.
  assert (evaluation_due (num 3000) (record_frame (num 3000) s1) = true) as Hd
    by (vm_compute; reflexivity).
  split; [exact Hcs |]. split; [exact Hd |].
  destruct (disabled_adjustment_freezes_level s cs (num 3000) Hcs) as (_ & Hq & Hdue).
  destruct (Hdue Hd) as [Hfps Hev].
  assert (computed_fps (num 3000) (record_frame (num 3000) s1) = num 1) as Hone
    by (vm_compute; reflexivity).
  split; [exact Hq |]. split; [exact (eq_trans Hfps Hone) |].
  rewrite <- Hone. exact Hev.
Defined.

End QualityControl.

(** ** Properties of the EventBus *)

Module EventBusFacts.
Import EventBus.

(** The same handlers, none of which throws. *)
Definition silence (code : Handler → Callback) (h : Handler) : Callback :=
  {| body := body (code h); throws := None |}.

(** The same bus with another console. *)
Definition with_errors (lines : list (string * string * string)) (b : State) : State :=
  {| sets := sets b; listeners := listeners b; onceListeners := onceListeners b;
     invoked := invoked b; errors := lines |}.

(** The state after the handlers [hs] have been called in turn for [event],
    when calling them changes nothing on the bus: the calls are on the
    trace and each handler that throws has a line on the console. *)
Definition delivered (code : Handler → Callback) (prefix event : string) (data : Payload)
    (hs : list Handler) (b : State) : State :=
  {| sets := sets b; listeners := listeners b; onceListeners := onceListeners b;
     invoked := invoked b ++ ((λ h, (event, h, data)) <$> hs);
     errors := errors b ++ omap (λ h, (λ error, (prefix, event, error)) <$> throws (code h)) hs |}.

(** Number of slots of the [Set] registered for an event in a registry. *)
Definition slots (registry : gmap string nat) (event : string) (b : State) : nat :=
  match registry !! event with Some r => length (deref b r) | None => 0 end.

(** [on] and [once] in one step: the handler is added to the registered
    [Set], or a new [Set] holding it is registered. *)
Lemma on_eq e h b :
  (on e h b).2 =
    match listeners b !! e with
    | Some r => with_sets (alter (set_add h) r) b
    | None =>
        with_listeners <[e := length (sets b)]> (with_sets (λ ss, ss ++ [[Some h]]) b)
    end.
Proof.
  unfold on. simpl. destruct (listeners b !! e) eqn:He; [by rewrite He |].
  simpl. rewrite lookup_insert_eq. unfold with_sets, with_listeners. simpl.
  f_equal. rewrite alter_app_r_alt by done. by rewrite Nat.sub_diag.
Qed.

Lemma once_eq e h b :
  once e h b =
    match onceListeners b !! e with
    | Some r => with_sets (alter (set_add h) r) b
    | None =>
        with_onceListeners <[e := length (sets b)]> (with_sets (λ ss, ss ++ [[Some h]]) b)
    end.
Proof.
  unfold once. destruct (onceListeners b !! e) eqn:He; [by rewrite He |].
  simpl. rewrite lookup_insert_eq. unfold with_sets, with_onceListeners. simpl.
  f_equal. rewrite alter_app_r_alt by done. by rewrite Nat.sub_diag.
Qed.

(** *** Sets and the store *)

Lemma elem_of_set_live x s : x ∈ set_live s ↔ Some x ∈ s.
Proof.
  unfold set_live. rewrite list_elem_of_omap. split.
  - intros (y & Hy & Heq). simpl in Heq. by subst y.
  - intros H. by exists (Some x).
Qed.

Lemma elem_of_set_add x h s : Some x ∈ set_add h s ↔ Some x ∈ s ∨ x = h.
Proof.
  unfold set_add. case_decide as Hin.
  - split; [by left | by intros [? | ->]].
  - rewrite elem_of_app, list_elem_of_singleton.
    split; intros [? | ?]; [by left | right; congruence | by left | right; congruence].
Qed.

Lemma elem_of_set_delete x h s : Some x ∈ set_delete h s ↔ Some x ∈ s ∧ x ≠ h.
Proof.
  unfold set_delete. rewrite list_elem_of_fmap. split.
  - intros (y & Hy & Hin). case_decide; [done |]. subst y. split; [done | congruence].
  - intros [Hin Hne]. exists (Some x). split; [| done].
    case_decide; [congruence | done].
Qed.

Lemma set_live_add h s :
  set_live (set_add h s) = if decide (Some h ∈ s) then set_live s else set_live s ++ [h].
Proof.
  unfold set_add, set_live. case_decide; [done |]. by rewrite omap_app.
Qed.

Lemma set_live_delete h s :
  set_live (set_delete h s) = filter (λ x, x ≠ h) (set_live s).
Proof.
  unfold set_delete, set_live. induction s as [| [x |] s IH]; csimpl; [done | |].
  - case_decide as Hx; csimpl.
    + inversion Hx; subst. rewrite IH. by rewrite filter_cons_False by (intros ?; done).
    + rewrite IH. rewrite filter_cons_True by congruence. done.
  - apply IH.
Qed.

Lemma NoDup_set_add h s : NoDup (set_live s) → NoDup (set_live (set_add h s)).
Proof.
  intros Hs. rewrite set_live_add. case_decide as Hin; [done |].
  apply NoDup_app. split; [done |]. split; [| apply NoDup_singleton].
  intros x Hx ->%list_elem_of_singleton. by apply Hin, elem_of_set_live.
Qed.

Lemma NoDup_set_delete h s : NoDup (set_live s) → NoDup (set_live (set_delete h s)).
Proof. intros Hs. rewrite set_live_delete. by apply NoDup_filter. Qed.

Lemma deref_alter f r b r' :
  deref (with_sets (alter f r) b) r'
  = if decide (r = r' ∧ r < length (sets b)) then f (deref b r) else deref b r'.
Proof.
  unfold deref. simpl. destruct (decide (r = r')) as [<- | Hne].
  - rewrite list_lookup_alter_eq.
    destruct (sets b !! r) as [s |] eqn:Hs; simpl.
    + apply lookup_lt_Some in Hs. case_decide; [done | tauto].
    + apply lookup_ge_None in Hs. case_decide; [lia | done].
  - rewrite list_lookup_alter_ne by done. case_decide; [tauto | done].
Qed.

Lemma deref_alloc s b r :
  deref (with_sets (λ ss, ss ++ [s]) b) r
  = if decide (r = length (sets b)) then s else deref b r.
Proof.
  unfold deref. simpl. case_decide as H.
  - subst r. rewrite lookup_app_r by done. by rewrite Nat.sub_diag.
  - destruct (decide (r < length (sets b))).
    + by rewrite lookup_app_l.
    + rewrite !(proj2 (lookup_ge_None _ _)); [done | lia |].
      rewrite length_app. simpl. lia.
Qed.

Lemma deref_with_listeners f b r : deref (with_listeners f b) r = deref b r.
Proof. reflexivity. Qed.

Lemma deref_with_onceListeners f b r : deref (with_onceListeners f b) r = deref b r.
Proof. reflexivity. Qed.

Lemma deref_out_of_range b (r : nat) : length (sets b) ≤ r → deref b r = [].
Proof. intros H. unfold deref. by rewrite (proj2 (lookup_ge_None _ _)). Qed.

(** *** Well-formed buses *)

(** The [Set] behind [r] is registered for [event], in either registry. *)
Definition attached (event : string) (b : State) (r : nat) : Prop :=
  listeners b !! event = Some r ∨ onceListeners b !! event = Some r.

(** Registered sets exist, no set is registered for two events, and no set
    lists a handler twice. *)
Record wf (b : State) : Prop := {
  wf_bound : ∀ ev r, attached ev b r → r < length (sets b);
  wf_owner : ∀ ev ev' r, attached ev b r → attached ev' b r → ev = ev';
  wf_nodup : ∀ r, NoDup (set_live (deref b r))
}.

(** What a step may change: sets are only added to the store; a set newly
    registered for an event is a new set, and only a registration registers
    one; a handler newly listed in a set was registered by this step for an
    event the set is registered for. *)
Record footprint (reg : option (string * Handler)) (b b' : State) : Prop := {
  fp_length : length (sets b) ≤ length (sets b');
  fp_attached : ∀ ev r,
    attached ev b' r →
    attached ev b r ∨
    (length (sets b) ≤ r ∧ r < length (sets b') ∧ ∃ h, reg = Some (ev, h));
  fp_member : ∀ r h,
    Some h ∈ deref b' r →
    Some h ∈ deref b r ∨ ∃ ev, reg = Some (ev, h) ∧ attached ev b' r;
  fp_nodup : ∀ r, NoDup (set_live (deref b r)) → NoDup (set_live (deref b' r))
}.

Lemma wf_new : wf new_EventBus.
Proof.
  split.
  - intros ev r [H | H]; simpl in H; by rewrite lookup_empty in H.
  - intros ev ev' r [H | H]; simpl in H; by rewrite lookup_empty in H.
  - intros r. rewrite deref_out_of_range by (simpl; lia). apply NoDup_nil_2.
Qed.

Lemma wf_footprint reg b b' : footprint reg b b' → wf b → wf b'.
Proof.
  intros [Hlen Hatt Hmem Hnd] [Hb Ho Hn]. split.
  - intros ev r Ha. destruct (Hatt ev r Ha) as [Hold | (_ & Hlt & _)]; [| done].
    specialize (Hb ev r Hold). lia.
  - intros ev ev' r Ha Ha'.
    destruct (Hatt ev r Ha) as [Hold | (Hge & _ & h & Hreg)],
             (Hatt ev' r Ha') as [Hold' | (Hge' & _ & h' & Hreg')].
    + eauto.
    + specialize (Hb ev r Hold). lia.
    + specialize (Hb ev' r Hold'). lia.
    + congruence.
  - intros r. apply Hnd, Hn.
Qed.

Lemma footprint_add_to reg h r b :
  (∃ ev, reg = Some (ev, h) ∧ attached ev b r) →
  footprint reg b (with_sets (alter (set_add h) r) b).
Proof.
  intros Hreg. split.
  - simpl. by rewrite length_alter.
  - intros ev r'. by left.
  - intros r' h'. rewrite deref_alter. case_decide as Hr; [| by left].
    destruct Hr as [<- _]. intros [? | ->]%elem_of_set_add; [by left | by right].
  - intros r'. rewrite deref_alter. case_decide as Hr; [| done].
    destruct Hr as [<- _]. apply NoDup_set_add.
Qed.

Lemma footprint_delete_from reg h r b :
  footprint reg b (with_sets (alter (set_delete h) r) b).
Proof.
  split.
  - simpl. by rewrite length_alter.
  - intros ev r'. by left.
  - intros r' h'. rewrite deref_alter. case_decide as Hr; [| by left].
    destruct Hr as [<- _]. intros [? _]%elem_of_set_delete. by left.
  - intros r'. rewrite deref_alter. case_decide as Hr; [| done].
    destruct Hr as [<- _]. apply NoDup_set_delete.
Qed.

Lemma footprint_refl reg b : footprint reg b b.
Proof. split; [done | by left | by left | done]. Qed.

Lemma footprint_trans reg b1 b2 b3 :
  footprint None b1 b2 → footprint reg b2 b3 → footprint reg b1 b3.
Proof.
  intros [Hl1 Ha1 Hm1 Hn1] [Hl2 Ha2 Hm2 Hn2]. split.
  - lia.
  - intros ev r Ha. destruct (Ha2 ev r Ha) as [Hold | (? & ? & ?)].
    + destruct (Ha1 ev r Hold) as [? | (_ & _ & ? & ?)]; [by left | done].
    + right. split; [lia | done].
  - intros r h Hm. destruct (Hm2 r h Hm) as [Hold | ?]; [| by right].
    destruct (Hm1 r h Hold) as [? | (? & ? & _)]; [by left | done].
  - intros r ?. by apply Hn2, Hn1.
Qed.

Lemma footprint_on e h b : footprint (Some (e, h)) b (on e h b).2.
Proof.
  rewrite on_eq. destruct (listeners b !! e) as [r |] eqn:He.
  - apply footprint_add_to. exists e. split; [done | by left].
  - split.
    + simpl. rewrite length_app. simpl. lia.
    + intros ev r [Hl | Ho]; [| by left; right]. simpl in Hl.
      apply lookup_insert_Some in Hl as [[<- <-] | [_ Hl]]; [| by left; left].
      right. simpl. rewrite length_app. simpl. split; [done |]. split; [lia | by exists h].
    + intros r h'.
      rewrite ?deref_with_listeners, ?deref_with_onceListeners.
      rewrite (deref_alloc [Some h] b r). case_decide as Hr; [| by left].
      intros ->%list_elem_of_singleton%(inj Some). subst r. right. exists e. split; [done |].
      left. simpl. apply lookup_insert_eq.
    + intros r.
      rewrite ?deref_with_listeners, ?deref_with_onceListeners.
      rewrite (deref_alloc [Some h] b r). case_decide; [| done].
      intros _. apply NoDup_singleton.
Qed.

Lemma footprint_once e h b : footprint (Some (e, h)) b (once e h b).
Proof.
  rewrite once_eq. destruct (onceListeners b !! e) as [r |] eqn:He.
  - apply footprint_add_to. exists e. split; [done | by right].
  - split.
    + simpl. rewrite length_app. simpl. lia.
    + intros ev r [Hl | Ho]; [by left; left |]. simpl in Ho.
      apply lookup_insert_Some in Ho as [[<- <-] | [_ Ho]]; [| by left; right].
      right. simpl. rewrite length_app. simpl. split; [done |]. split; [lia | by exists h].
    + intros r h'.
      rewrite ?deref_with_listeners, ?deref_with_onceListeners.
      rewrite (deref_alloc [Some h] b r). case_decide as Hr; [| by left].
      intros ->%list_elem_of_singleton%(inj Some). subst r. right. exists e. split; [done |].
      right. simpl. apply lookup_insert_eq.
    + intros r.
      rewrite ?deref_with_listeners, ?deref_with_onceListeners.
      rewrite (deref_alloc [Some h] b r). case_decide; [| done].
      intros _. apply NoDup_singleton.
Qed.

Lemma footprint_off e h b : footprint None b (off e h b).
Proof.
  unfold off. destruct (listeners b !! e) as [r |].
  - change (onceListeners (with_sets (alter (set_delete h) r) b))
      with (onceListeners b).
    destruct (onceListeners b !! e) as [r' |].
    + eapply footprint_trans; apply footprint_delete_from.
    + apply footprint_delete_from.
  - destruct (onceListeners b !! e) as [r' |].
    + apply footprint_delete_from.
    + apply footprint_refl.
Qed.

Lemma footprint_registries ls os b :
  (∀ ev r, ls (listeners b) !! ev = Some r → listeners b !! ev = Some r) →
  (∀ ev r, os (onceListeners b) !! ev = Some r → onceListeners b !! ev = Some r) →
  footprint None b (with_onceListeners os (with_listeners ls b)).
Proof.
  intros Hls Hos. split; [done | | by left | done].
  intros ev r [H | H]; left; [left; by apply Hls | right; by apply Hos].
Qed.

Lemma footprint_clear e b : footprint None b (clear e b).
Proof.
  apply footprint_registries; intros ev r H; by apply lookup_delete_Some in H as [_ H].
Qed.

Lemma footprint_clearAll b : footprint None b (clearAll b).
Proof. apply footprint_registries; intros ev r H; by rewrite lookup_empty in H. Qed.

Lemma footprint_drop_once e b : footprint None b (with_onceListeners (delete e) b).
Proof.
  split; [done | | by left | done].
  intros ev r [H | H]; left; [by left | right].
  simpl in H. by apply lookup_delete_Some in H as [_ H].
Qed.

Lemma footprint_record_call e h d b : footprint None b (record_call e h d b).
Proof. split; [done | by left | by left | done]. Qed.

Lemma footprint_console_error p e err b : footprint None b (console_error p e err b).
Proof. split; [done | by left | by left | done]. Qed.

Section Facts.

Variable code : Handler → Callback.

Lemma guarded_no_throw emit_ prefix event data h b error :
  (guarded code emit_ prefix event data h b).1 ≠ Throw error.
Proof.
  unfold guarded. destruct (invoke code emit_ event h data b) as [[] ?]; done.
Qed.

Lemma forEach_no_throw fuel f r index b error :
  (∀ h b', (f h b').1 ≠ Throw error) →
  (forEach fuel f r index b).1 ≠ Throw error.
Proof.
  intros Hf. revert index b.
  induction fuel as [| fuel IH]; intros index b; simpl; [done |].
  destruct (deref b r !! index) as [[h |] |]; [| apply IH | done].
  specialize (Hf h b). destruct (f h b) as [[] b1]; simpl in *; [apply IH | done ..].
Qed.

Lemma emit_step_no_throw emit_ fuel event data b error :
  (emit_step code emit_ fuel event data b).1 ≠ Throw error.
Proof.
  assert (∀ prefix r b', (forEach fuel (guarded code emit_ prefix event data)
                            r 0 b').1 ≠ Throw error) as Hloop.
  { intros. apply forEach_no_throw. intros. apply guarded_no_throw. }
  unfold emit_step.
  destruct (listeners b !! event) as [r |].
  - pose proof (Hloop "Error in event listener for" r b) as H1.
    destruct (forEach fuel _ r 0 b) as [[] b1]; simpl in *; try done.
    destruct (onceListeners b1 !! event) as [r' |]; [| done].
    pose proof (Hloop "Error in once listener for" r' b1) as H2.
    destruct (forEach fuel _ r' 0 b1) as [[] b2]; simpl in *; done.
  - destruct (onceListeners b !! event) as [r' |]; [| done].
    pose proof (Hloop "Error in once listener for" r' b) as H2.
    destruct (forEach fuel _ r' 0 b) as [[] b2]; simpl in *; done.
Qed.

(** [emit] never ends by throwing. *)
Lemma emit_no_throw fuel event data b error :
  (emit code fuel event data b).1 ≠ Throw error.
Proof. destruct fuel; simpl; [done | apply emit_step_no_throw]. Qed.

End Facts.

(** *** Invariants of dispatch *)

(** The registration a call makes, if it makes one. *)
Definition registers (a : Action) : option (string * Handler) :=
  match a with
  | CallOn e h | CallOnce e h => Some (e, h)
  | _ => None
  end.

(** An invariant [P] of the bus, and a property [Q event r] of the set [r]
    that holds while a [forEach] started by an emit of [event] runs over
    it, are kept by [emit] and by client programs as soon as every single
    step keeps them.  The steps are: a call other than [emit] that the
    clients are allowed ([ok]) to make, seen through its footprint; the
    invocation of a handler found in a set being iterated; and the steps
    that touch neither the store nor the trace of invocations. *)
Section Lifting.

Variable code : Handler → Callback.
Variable ok : Action → Prop.
Variable P : State → Prop.
Variable Q : string → nat → State → Prop.

Definition keeps (b b' : State) : Prop := P b' ∧ ∀ ev r, Q ev r b → Q ev r b'.

Hypothesis code_ok : ∀ h, Forall ok (body (code h)).
Hypothesis Q_start : ∀ ev r b, P b → attached ev b r → Q ev r b.
Hypothesis keeps_step : ∀ a b b',
  ok a → footprint (registers a) b b' → invoked b' = invoked b → P b → keeps b b'.
Hypothesis keeps_quiet : ∀ b b',
  footprint None b b' → invoked b' = invoked b → P b → keeps b b'.
Hypothesis keeps_call : ∀ ev r h d b,
  P b → Q ev r b → Some h ∈ deref b r → keeps b (record_call ev h d b).

Lemma keeps_refl b : P b → keeps b b.
Proof. by split. Qed.

Lemma keeps_trans b1 b2 b3 : keeps b1 b2 → keeps b2 b3 → keeps b1 b3.
Proof. intros [? H1] [? H2]. split; [done |]. intros ev r ?. by apply H2, H1. Qed.

Section WithEmit.

Variable emit_ : string → Payload → State → Signal * State.
Hypothesis emit_keeps_ : ∀ e d b, P b → keeps b (emit_ e d b).2.

Lemma invoked_on e h b : invoked (on e h b).2 = invoked b.
Proof. rewrite on_eq. by destruct (listeners b !! e). Qed.

Lemma invoked_once e h b : invoked (once e h b) = invoked b.
Proof. rewrite once_eq. by destruct (onceListeners b !! e). Qed.

Lemma invoked_off e h b : invoked (off e h b) = invoked b.
Proof.
  unfold off. destruct (listeners b !! e); simpl;
    by destruct (onceListeners b !! e).
Qed.

Lemma run_action_keeps a b : ok a → P b → keeps b (run_action emit_ a b).2.
Proof.
  intros Ha Hb. destruct a; simpl.
  - apply (keeps_step (CallOn event callback));
      [done | apply footprint_on | apply invoked_on | done].
  - apply (keeps_step (CallOnce event callback));
      [done | apply footprint_once | apply invoked_once | done].
  - apply keeps_quiet; [apply footprint_off | apply invoked_off | done].
  - by apply emit_keeps_.
  - apply keeps_quiet; [apply footprint_clear | done ..].
  - apply keeps_quiet; [apply footprint_clearAll | done ..].
  - by apply keeps_refl.
Qed.

Lemma run_body_keeps acts b : Forall ok acts → P b → keeps b (run_body emit_ acts b).2.
Proof.
  intros Hok. revert b. induction Hok as [| a acts Ha _ IH]; intros b Hb; simpl.
  - by apply keeps_refl.
  - pose proof (run_action_keeps a b Ha Hb) as Hk.
    destruct (run_action emit_ a b) as [[] b1]; simpl in *; [| done ..].
    eapply keeps_trans; [done |]. apply IH, Hk.
Qed.

Lemma guarded_keeps prefix ev d r h b :
  P b → Q ev r b → Some h ∈ deref b r →
  keeps b (guarded code emit_ prefix ev d h b).2.
Proof.
  intros Hb Hq Hin. unfold guarded, invoke.
  pose proof (keeps_call ev r h d b Hb Hq Hin) as Hc.
  pose proof (run_body_keeps (body (code h)) _ (code_ok h) (proj1 Hc)) as Hk.
  pose proof (keeps_trans _ _ _ Hc Hk) as Hk'.
  destruct (run_body emit_ (body (code h)) _) as [[] b1]; simpl in *.
  - destruct (throws (code h)); simpl; [| done].
    eapply keeps_trans; [done |].
    apply keeps_quiet; [apply footprint_console_error | done | apply Hk'].
  - eapply keeps_trans; [done |].
    apply keeps_quiet; [apply footprint_console_error | done | apply Hk'].
  - done.
Qed.

Lemma forEach_keeps prefix ev d fuel r index b :
  P b → Q ev r b →
  keeps b (forEach fuel (guarded code emit_ prefix ev d) r index b).2.
Proof.
  revert index b. induction fuel as [| fuel IH]; intros index b Hb Hq; simpl.
  - by apply keeps_refl.
  - destruct (deref b r !! index) as [[h |] |] eqn:Hi.
    + pose proof (guarded_keeps prefix ev d r h b Hb Hq
                    (list_elem_of_lookup_2 _ _ _ Hi)) as Hk.
      destruct (guarded code emit_ prefix ev d h b) as [[] b1]; simpl in *;
        [| done ..].
      eapply keeps_trans; [done |]. apply IH; [apply Hk | by apply Hk].
    + by apply IH.
    + by apply keeps_refl.
Qed.

Lemma emit_step_keeps fuel ev d b : P b → keeps b (emit_step code emit_ fuel ev d b).2.
Proof.
  intros Hb. unfold emit_step.
  assert (keeps b
    (match listeners b !! ev with
     | Some r => forEach fuel (guarded code emit_ "Error in event listener for" ev d) r 0 b
     | None => (Normal, b)
     end).2) as Hk.
  { destruct (listeners b !! ev) as [r |] eqn:Hl; [| by apply keeps_refl].
    apply forEach_keeps; [done |]. apply Q_start; [done | by left]. }
  destruct (match listeners b !! ev with Some _ => _ | None => _ end) as [[] b1];
    simpl in *; [| done ..].
  destruct (onceListeners b1 !! ev) as [r |] eqn:Ho; [| done].
  assert (keeps b1
    (forEach fuel (guarded code emit_ "Error in once listener for" ev d) r 0 b1).2) as Hk'.
  { apply forEach_keeps; [apply Hk |]. apply Q_start; [apply Hk | by right]. }
  destruct (forEach fuel _ r 0 b1) as [[] b2]; simpl in *.
  - eapply keeps_trans; [done |]. eapply keeps_trans; [done |].
    apply keeps_quiet; [apply footprint_drop_once | done | apply Hk'].
  - by eapply keeps_trans.
  - by eapply keeps_trans.
Qed.

End WithEmit.

Lemma emit_keeps fuel ev d b : P b → keeps b (emit code fuel ev d b).2.
Proof.
  revert ev d b. induction fuel as [| fuel IH]; intros ev d b Hb; simpl.
  - by apply keeps_refl.
  - by apply emit_step_keeps.
Qed.

Lemma run_keeps fuel script b :
  Forall ok script → P b → keeps b (run code fuel script b).2.
Proof. intros. apply run_body_keeps; [apply emit_keeps | done ..]. Qed.

End Lifting.

(** Every state reached from a well-formed bus is well formed. *)
Lemma run_wf code fuel script b : wf b → wf (run code fuel script b).2.
Proof.
  intros Hb.
  refine (proj1 (run_keeps code (λ _, True) wf (λ _ _ _, True) _ _ _ _ _ fuel script b _ Hb)).
  - intros h. by apply Forall_true.
  - done.
  - intros a b1 b2 _ Hfp _ H1. split; [by eapply wf_footprint | done].
  - intros b1 b2 Hfp _ H1. split; [by eapply wf_footprint | done].
  - intros ev r h d b1 H1 _ _. split; [| done].
    by eapply wf_footprint; [apply footprint_record_call |].
  - by apply Forall_true.
Qed.

Lemma emit_wf code fuel ev d b : wf b → wf (emit code fuel ev d b).2.
Proof. intros Hb. apply (run_wf code fuel [CallEmit ev d] b) in Hb. revert Hb.
  unfold run. simpl. by destruct (emit code fuel ev d b) as [[] ?].
Qed.

(** *** After unsubscribing *)

Lemma run_body_app emit_ acts1 acts2 b :
  run_body emit_ (acts1 ++ acts2) b =
    match run_body emit_ acts1 b with
    | (Normal, b1) => run_body emit_ acts2 b1
    | stop => stop
    end.
Proof.
  revert b. induction acts1 as [| a acts1 IH]; intros b; simpl; [done |].
  destruct (run_action emit_ a b) as [[] b1]; [apply IH | done ..].
Qed.

Lemma set_delete_absent h s : Some h ∉ s → set_delete h s = s.
Proof.
  intros Hs. unfold set_delete. induction s as [| x s IH]; csimpl; [done |].
  rewrite IH by (intros ?; apply Hs; by right).
  case_decide as Hx; [| done]. subst x. exfalso. apply Hs. by left.
Qed.

Lemma with_sets_alter_id f r b :
  f (deref b r) = deref b r → with_sets (alter f r) b = b.
Proof.
  intros Hf. destruct b as [ss ls os iv er]. unfold with_sets, deref in *. simpl in *.
  f_equal. apply list_eq. intros i. destruct (decide (r = i)) as [<- | Hne].
  - rewrite list_lookup_alter_eq. destruct (ss !! r); simpl in *; [by rewrite Hf | done].
  - by rewrite list_lookup_alter_ne.
Qed.

Lemma delete_from_deref h r0 b r :
  Some h ∈ deref (with_sets (alter (set_delete h) r0) b) r →
  Some h ∈ deref b r ∧ r ≠ r0.
Proof.
  rewrite deref_alter. case_decide as Hr.
  - destruct Hr as [<- _]. by intros [_ ?]%elem_of_set_delete.
  - intros Hin. split; [done |]. intros ->.
    rewrite deref_out_of_range in Hin by lia. by apply elem_of_nil in Hin.
Qed.

Lemma off_delete_deref e h b r :
  Some h ∈ deref (off e h b) r → Some h ∈ deref b r ∧ ¬ attached e b r.
Proof.
  unfold off, attached.
  destruct (listeners b !! e) as [r1 |].
  - change (onceListeners (with_sets (alter (set_delete h) r1) b))
      with (onceListeners b).
    destruct (onceListeners b !! e) as [r2 |].
    + intros [[Hin ?]%delete_from_deref ?]%delete_from_deref.
      split; [done |]. intros [[= ->] | [= ->]]; done.
    + intros [Hin ?]%delete_from_deref.
      split; [done |]. intros [[= ->] | ?]; done.
  - destruct (onceListeners b !! e) as [r2 |].
    + intros [Hin ?]%delete_from_deref.
      split; [done |]. intros [? | [= ->]]; done.
    + intros Hin. split; [done |]. intros [? | ?]; done.
Qed.

Lemma attached_off e h b ev r : attached ev (off e h b) r ↔ attached ev b r.
Proof.
  unfold off, attached.
  destruct (listeners b !! e); simpl; by destruct (onceListeners b !! e).
Qed.

Lemma persistent_regs_attached e b x :
  x ∈ persistent_regs e b → ∃ r, attached e b r ∧ Some x ∈ deref b r.
Proof.
  unfold persistent_regs. destruct (listeners b !! e) as [r |] eqn:Hl.
  - intros ?%elem_of_set_live. exists r. split; [by left | done].
  - by intros ?%elem_of_nil.
Qed.

Lemma once_regs_attached e b x :
  x ∈ once_regs e b → ∃ r, attached e b r ∧ Some x ∈ deref b r.
Proof.
  unfold once_regs. destruct (onceListeners b !! e) as [r |] eqn:Hl.
  - intros ?%elem_of_set_live. exists r. split; [by right | done].
  - by intros ?%elem_of_nil.
Qed.

(** [off] takes the handler out of both registries of the event. *)
Lemma off_unregisters e h b :
  (h ∉ persistent_regs e (off e h b)) ∧ (h ∉ once_regs e (off e h b)).
Proof.
  split.
  - intros (r & Ha & Hin)%persistent_regs_attached.
    apply off_delete_deref in Hin as [_ Hn]. by apply Hn, (attached_off e h b e r).
  - intros (r & Ha & Hin)%once_regs_attached.
    apply off_delete_deref in Hin as [_ Hn]. by apply Hn, (attached_off e h b e r).
Qed.

(** [off] does nothing when the handler is registered for the event in
    neither registry, in particular when the event is unknown. *)
Lemma off_absent e h b :
  h ∉ persistent_regs e b → h ∉ once_regs e b → off e h b = b.
Proof.
  unfold persistent_regs, once_regs, off. intros Hp Ho.
  destruct (listeners b !! e) as [r1 |].
  - rewrite with_sets_alter_id
      by (apply set_delete_absent; by rewrite <- elem_of_set_live).
    destruct (onceListeners b !! e) as [r2 |]; [| done].
    apply with_sets_alter_id, set_delete_absent. by rewrite <- elem_of_set_live.
  - destruct (onceListeners b !! e) as [r2 |]; [| done].
    apply with_sets_alter_id, set_delete_absent. by rewrite <- elem_of_set_live.
Qed.

Section Unsubscribed.

Variable event : string.
Variable handler : Handler.
Variable before : list (string * Handler * Payload).

(** The handler is in no set registered for the event. *)
Definition unregistered (b : State) : Prop :=
  ∀ r, attached event b r → Some handler ∉ deref b r.

(** No invocation of the handler for the event after the trace [before]. *)
Definition silent_since (b : State) : Prop :=
  ∃ calls, invoked b = before ++ calls ∧ ∀ d, (event, handler, d) ∉ calls.

Definition unsubscribed (b : State) : Prop :=
  wf b ∧ unregistered b ∧ silent_since b.

(** The set is one of the event's own and the handler is not in it. *)
Definition own_set_clean (ev : string) (r : nat) (b : State) : Prop :=
  ev = event →
  r < length (sets b) ∧ (Some handler ∉ deref b r) ∧ ∀ ev', attached ev' b r → ev' = event.

Definition no_resubscribe (a : Action) : Prop := registers a ≠ Some (event, handler).

Lemma unsubscribed_step reg b b' :
  reg ≠ Some (event, handler) →
  footprint reg b b' →
  silent_since b' →
  unsubscribed b →
  keeps unsubscribed own_set_clean b b'.
Proof.
  intros Hreg Hfp Hsil (Hwf & Hun & _).
  pose proof (wf_footprint _ _ _ Hfp Hwf) as Hwf'.
  destruct Hfp as [Hlen Hatt Hmem _].
  split; [split; [done | split; [| done]] |].
  - intros r Ha Hin.
    destruct (Hmem r handler Hin) as [Hold | (ev & -> & Ha')].
    + destruct (Hatt event r Ha) as [Ha0 | (Hge & _)]; [by apply (Hun r) |].
      rewrite deref_out_of_range in Hold by done. by apply elem_of_nil in Hold.
    + apply Hreg. by rewrite (wf_owner _ Hwf' _ _ _ Ha' Ha).
  - intros ev r Hq Hev. destruct (Hq Hev) as (Hr & Hclean & Hown).
    split; [lia |]. split.
    + intros Hin. destruct (Hmem r handler Hin) as [Hold | (ev' & -> & Ha')]; [done |].
      destruct (Hatt ev' r Ha') as [Ha0 | (Hge & _)]; [| lia].
      apply Hreg. by rewrite (Hown ev' Ha0).
    + intros ev' Ha'. destruct (Hatt ev' r Ha') as [Ha0 | (Hge & _)]; [| lia].
      by apply Hown.
Qed.

Lemma unsubscribed_call ev r h d b :
  unsubscribed b → own_set_clean ev r b → Some h ∈ deref b r →
  keeps unsubscribed own_set_clean b (record_call ev h d b).
Proof.
  intros Hb Hq Hin. apply (unsubscribed_step None); [done | | | done].
  - apply footprint_record_call.
  - destruct Hb as (_ & _ & calls & Hcalls & Hsil).
    exists (calls ++ [(ev, h, d)]). split.
    + simpl. by rewrite Hcalls, app_assoc.
    + intros d' [? | Heq%list_elem_of_singleton]%elem_of_app; [by eapply Hsil |].
      injection Heq as <- <- <-. destruct (Hq eq_refl) as (_ & Hclean & _). done.
Qed.

Lemma silent_since_same b b' : invoked b' = invoked b → silent_since b → silent_since b'.
Proof. intros Heq (calls & ? & ?). exists calls. by rewrite Heq. Qed.

Lemma run_unsubscribed code fuel script b :
  (∀ h, Forall no_resubscribe (body (code h))) →
  Forall no_resubscribe script →
  unsubscribed b →
  unsubscribed (run code fuel script b).2.
Proof.
  intros Hcode Hscript Hb.
  refine (proj1 (run_keeps code no_resubscribe unsubscribed own_set_clean
                   Hcode _ _ _ _ fuel script b Hscript Hb)).
  - intros ev r b1 (Hwf & Hun & _) Ha ->. split; [by eapply wf_bound |].
    split; [by apply Hun |]. intros ev' Ha'. by eapply wf_owner.
  - intros a b1 b2 Ha Hfp Hinv H1.
    apply (unsubscribed_step (registers a)); [done .. | | done].
    eapply silent_since_same; [done | apply H1].
  - intros b1 b2 Hfp Hinv H1.
    apply (unsubscribed_step None); [done .. | | done].
    eapply silent_since_same; [done | apply H1].
  - apply unsubscribed_call.
Qed.

End Unsubscribed.

(** C4: once [off(event, handler)] has been called (which is what the
    function returned by [on(event, handler)] does), whatever the clients
    and the handlers did before, no later emit invokes the handler for that
    event, as long as neither the clients nor the handlers register it for
    that event again.  [off] removes the handler from both registries of
    the event, changes nothing when it is registered in neither, and
    returns normally. *)
Theorem unsubscribed_handler_is_not_invoked
    code event handler fuel1 fuel2 prefix suffix b1 :
  run code fuel1 (prefix ++ [CallOff event handler]) new_EventBus = (Normal, b1) →
  (∀ h, Forall (no_resubscribe event handler) (body (code h))) →
  Forall (no_resubscribe event handler) suffix →
  (∃ calls,
     invoked (run code fuel2 suffix b1).2 = invoked b1 ++ calls ∧
     ∀ d, (event, handler, d) ∉ calls) ∧
  (∀ b, (on event handler b).1 = CallOff event handler) ∧
  (∀ b, (handler ∉ persistent_regs event (off event handler b)) ∧
        (handler ∉ once_regs event (off event handler b))) ∧
  (∀ b, handler ∉ persistent_regs event b → handler ∉ once_regs event b →
        off event handler b = b) ∧
  (∀ emit_ b, run_action emit_ (CallOff event handler) b = (Normal, off event handler b)).
Proof.
  intros Hrun Hcode Hsuffix.
  split; [| split; [done | split; [apply off_unregisters | split; [apply off_absent | done]]]].
  unfold run in Hrun. rewrite run_body_app in Hrun.
  pose proof (run_wf code fuel1 prefix new_EventBus wf_new) as Hwf. unfold run in Hwf.
  destruct (run_body (emit code fuel1) prefix new_EventBus) as [[] b0];
    simpl in Hrun, Hwf; [| done ..].
  injection Hrun as <-.
  assert (unsubscribed event handler (invoked (off event handler b0)) (off event handler b0))
    as Hb1.
  { split; [by eapply wf_footprint; [apply footprint_off |] |]. split.
    - intros r Ha Hin. apply off_delete_deref in Hin as [_ Hn].
      by apply Hn, (attached_off event handler b0 event r).
    - exists []. split; [by rewrite app_nil_r |]. intros d. apply not_elem_of_nil. }
  by destruct (run_unsubscribed event handler _ code fuel2 suffix _ Hcode Hsuffix Hb1)
    as (_ & _ & Hsilent).
Qed.

(** Handler 2 emits ["f"] when called; the others do nothing. *)
Definition relays (h : Handler) : Callback :=
  match h with
  | 2 => {| body := [CallEmit "f" (Opaque 1)]; throws := None |}
  | _ => inert
  end.

Lemma unsubscribed_handler_is_not_invoked_witness :
  let prefix := [CallOn "e" 1; CallOn "e" 2; CallOn "f" 1; CallEmit "e" (Opaque 0)] in
  let suffix := [CallEmit "e" (Opaque 2); CallOnce "g" 1; CallEmit "f" (Opaque 3)] in
  let b1 := (run relays 6 (prefix ++ [CallOff "e" 1]) new_EventBus).2 in
  invoked b1 = [("e", 1, Opaque 0); ("e", 2, Opaque 0); ("f", 1, Opaque 1)] ∧
  ∃ calls,
    invoked (run relays 6 suffix b1).2 = invoked b1 ++ calls ∧
    ∀ d, ("e", 1, d) ∉ calls.
Proof.
  intros prefix suffix b1. split; [by vm_compute |].
  refine (proj1 (unsubscribed_handler_is_not_invoked relays "e" 1 6 6 prefix suffix b1 _ _ _)).
  - by vm_compute.
  - intros [| [| [| h]]]; repeat constructor; done.
  - repeat constructor; done.
Defined.

(** *** Throwing changes nothing but the console *)

(** Two states that differ at most by their console lines. *)
Definition agree (b b' : State) : Prop :=
  sets b = sets b' ∧ listeners b = listeners b' ∧
  onceListeners b = onceListeners b' ∧ invoked b = invoked b'.

Definition agree_result (r r' : Signal * State) : Prop :=
  r.1 = r'.1 ∧ agree r.2 r'.2.

Ltac agree_fields :=
  match goal with
  | H : agree ?b ?b' |- _ =>
      destruct H as (? & ? & ? & ?); destruct b, b'; simpl in *; subst
  end.

Lemma agree_refl b : agree b b.
Proof. by repeat split. Qed.

Lemma agree_on e h b b' : agree b b' → agree (on e h b).2 (on e h b').2.
Proof.
  intros H. rewrite !on_eq. agree_fields.
  destruct (_ !! e); by repeat split.
Qed.

Lemma agree_once e h b b' : agree b b' → agree (once e h b) (once e h b').
Proof.
  intros H. rewrite !once_eq. agree_fields.
  destruct (_ !! e); by repeat split.
Qed.

Lemma agree_off e h b b' : agree b b' → agree (off e h b) (off e h b').
Proof.
  intros H. agree_fields. unfold off; simpl.
  destruct (listeners1 !! e); simpl; destruct (onceListeners1 !! e); by repeat split.
Qed.

Lemma agree_clear e b b' : agree b b' → agree (clear e b) (clear e b').
Proof. intros H. agree_fields. by repeat split. Qed.

Lemma agree_clearAll b b' : agree b b' → agree (clearAll b) (clearAll b').
Proof. intros H. agree_fields. by repeat split. Qed.

Lemma agree_record_call e h d b b' :
  agree b b' → agree (record_call e h d b) (record_call e h d b').
Proof. intros H. agree_fields. by repeat split. Qed.

Lemma agree_console_error_l p e err b b' :
  agree b b' → agree (console_error p e err b) b'.
Proof. intros H. agree_fields. by repeat split. Qed.

Lemma agree_console_error_r p e err b b' :
  agree b b' → agree b (console_error p e err b').
Proof. intros H. agree_fields. by repeat split. Qed.

Lemma agree_drop_once e b b' :
  agree b b' →
  agree (with_onceListeners (delete e) b) (with_onceListeners (delete e) b').
Proof. intros H. agree_fields. by repeat split. Qed.

Lemma agree_deref b b' r : agree b b' → deref b r = deref b' r.
Proof. intros (Hs & _). unfold deref. by rewrite Hs. Qed.

Section Isolation.

Variable code : Handler → Callback.
Variables emit_ emit_' : string → Payload → State → Signal * State.
Hypothesis emit_agree_ : ∀ e d b b',
  agree b b' → agree_result (emit_ e d b) (emit_' e d b').

Lemma run_action_agree a b b' :
  agree b b' → agree_result (run_action emit_ a b) (run_action emit_' a b').
Proof.
  intros H. destruct a; simpl; try (split; [done |]; simpl).
  - by apply agree_on.
  - by apply agree_once.
  - by apply agree_off.
  - by apply emit_agree_.
  - by apply agree_clear.
  - by apply agree_clearAll.
  - done.
Qed.

Lemma run_body_agree acts b b' :
  agree b b' → agree_result (run_body emit_ acts b) (run_body emit_' acts b').
Proof.
  revert b b'. induction acts as [| a acts IH]; intros b b' H; simpl; [by split |].
  destruct (run_action_agree a b b' H) as [Hs Hb].
  destruct (run_action emit_ a b) as [sg b1], (run_action emit_' a b') as [sg' b1'].
  simpl in *. subst sg'. destruct sg; [by apply IH | by split ..].
Qed.

Lemma guarded_agree prefix event data h b b' :
  agree b b' →
  agree_result (guarded code emit_ prefix event data h b)
               (guarded (silence code) emit_' prefix event data h b').
Proof.
  intros H. unfold guarded, invoke. simpl.
  destruct (run_body_agree (body (code h)) _ _ (agree_record_call event h data _ _ H))
    as [Hs Hb].
  destruct (run_body emit_ _ _) as [sg b1], (run_body emit_' _ _) as [sg' b1'].
  simpl in *. subst sg'. destruct sg.
  - destruct (throws (code h)); split; simpl; [done | | done ..].
    by apply agree_console_error_l.
  - split; [done |]. simpl.
    by apply agree_console_error_l, agree_console_error_r.
  - by split.
Qed.

Lemma forEach_agree fuel f f' r index b b' :
  (∀ h b b', agree b b' → agree_result (f h b) (f' h b')) →
  agree b b' →
  agree_result (forEach fuel f r index b) (forEach fuel f' r index b').
Proof.
  intros Hf. revert index b b'.
  induction fuel as [| fuel IH]; intros index b b' H; simpl; [by split |].
  rewrite <- (agree_deref b b' r H).
  destruct (deref b r !! index) as [[h |] |]; [| by apply IH | by split].
  destruct (Hf h b b' H) as [Hs Hb].
  destruct (f h b) as [sg b1], (f' h b') as [sg' b1'].
  simpl in *. subst sg'. destruct sg; [by apply IH | by split ..].
Qed.

Lemma emit_step_agree fuel event data b b' :
  agree b b' →
  agree_result (emit_step code emit_ fuel event data b)
               (emit_step (silence code) emit_' fuel event data b').
Proof.
  intros H. unfold emit_step.
  assert (agree_result
    match listeners b !! event with
    | Some r => forEach fuel (guarded code emit_ "Error in event listener for" event data) r 0 b
    | None => (Normal, b)
    end
    match listeners b' !! event with
    | Some r => forEach fuel (guarded (silence code) emit_' "Error in event listener for" event data) r 0 b'
    | None => (Normal, b')
    end) as [Hs Hb].
  { destruct H as (? & Hl & ?). rewrite <- Hl.
    destruct (listeners b !! event); [| by split].
    apply forEach_agree; [intros; by apply guarded_agree | done]. }
  destruct (match listeners b !! event with Some _ => _ | None => _ end) as [sg b1].
  destruct (match listeners b' !! event with Some _ => _ | None => _ end) as [sg' b1'].
  simpl in *. subst sg'. destruct sg; [| by split ..].
  destruct Hb as (? & ? & Ho & ?). rewrite <- Ho.
  destruct (onceListeners b1 !! event) as [r |]; [| by split].
  destruct (forEach_agree fuel
    (guarded code emit_ "Error in once listener for" event data)
    (guarded (silence code) emit_' "Error in once listener for" event data)
    r 0 b1 b1') as [Hs' Hb']; [intros; by apply guarded_agree | done |].
  destruct (forEach fuel _ r 0 b1) as [sg b2], (forEach fuel _ r 0 b1') as [sg' b2'].
  simpl in *. subst sg'. destruct sg; split; try done.
  by apply agree_drop_once.
Qed.

End Isolation.

Lemma emit_agree code fuel event data b b' :
  agree b b' →
  agree_result (emit code fuel event data b) (emit (silence code) fuel event data b').
Proof.
  revert event data b b'.
  induction fuel as [| fuel IH]; intros event data b b' H; simpl; [by split |].
  by apply emit_step_agree.
Qed.

(** *** Handlers that leave the bus alone *)

Lemma delivered_nil code prefix event data b :
  delivered code prefix event data [] b = b.
Proof. destruct b. unfold delivered. simpl. by rewrite !app_nil_r. Qed.

Lemma delivered_app code prefix event data hs1 hs2 b :
  delivered code prefix event data hs2 (delivered code prefix event data hs1 b)
  = delivered code prefix event data (hs1 ++ hs2) b.
Proof.
  unfold delivered. simpl. by rewrite fmap_app, omap_app, !app_assoc.
Qed.

Lemma deref_delivered code prefix event data hs b r :
  deref (delivered code prefix event data hs b) r = deref b r.
Proof. reflexivity. Qed.

Section Inert.

Variable code : Handler → Callback.
Hypothesis code_inert : ∀ h, body (code h) = [].
Variable emit_ : string → Payload → State → Signal * State.

Lemma guarded_inert prefix event data h b :
  guarded code emit_ prefix event data h b
  = (Normal, delivered code prefix event data [h] b).
Proof.
  unfold guarded, invoke. rewrite code_inert. simpl.
  unfold delivered, console_error, record_call. simpl.
  destruct (throws (code h)); simpl; [done |]. by rewrite app_nil_r.
Qed.

Lemma forEach_inert prefix event data fuel r index b :
  length (deref b r) - index < fuel →
  forEach fuel (guarded code emit_ prefix event data) r index b
  = (Normal, delivered code prefix event data (set_live (drop index (deref b r))) b).
Proof.
  revert index b. induction fuel as [| fuel IH]; intros index b Hfuel; [lia |].
  simpl. destruct (deref b r !! index) as [[h |] |] eqn:Hi.
  - pose proof (lookup_lt_Some _ _ _ Hi).
    rewrite guarded_inert, IH by (rewrite deref_delivered; lia).
    rewrite deref_delivered, delivered_app.
    by rewrite (drop_S _ _ _ Hi).
  - pose proof (lookup_lt_Some _ _ _ Hi).
    rewrite IH by lia. by rewrite (drop_S _ _ _ Hi).
  - apply lookup_ge_None in Hi. rewrite drop_ge by done.
    by rewrite delivered_nil.
Qed.

Lemma emit_step_inert fuel event data b :
  slots (listeners b) event b < fuel →
  slots (onceListeners b) event b < fuel →
  emit_step code emit_ fuel event data b
  = (Normal,
     with_onceListeners (delete event)
       (delivered code "Error in once listener for" event data (once_regs event b)
          (delivered code "Error in event listener for" event data
             (persistent_regs event b) b))).
Proof.
  unfold slots, emit_step, persistent_regs, once_regs. intros H1 H2.
  set (b1 := delivered code "Error in event listener for" event data
               match listeners b !! event with
               | Some r => set_live (deref b r) | None => []
               end b).
  assert (match listeners b !! event with
          | Some r => forEach fuel
              (guarded code emit_ "Error in event listener for" event data) r 0 b
          | None => (Normal, b)
          end = (Normal, b1)) as ->.
  { subst b1. destruct (listeners b !! event) as [r |].
    - by rewrite forEach_inert by lia.
    - by rewrite delivered_nil. }
  change (onceListeners b1) with (onceListeners b).
  destruct (onceListeners b !! event) as [r |] eqn:Ho.
  - rewrite forEach_inert by (subst b1; rewrite deref_delivered; lia).
    by subst b1.
  - rewrite delivered_nil. destruct b1 as [ss ls os iv er] eqn:Hb1.
    unfold with_onceListeners. simpl.
    assert (os = onceListeners b) as -> by (subst b1; by inversion Hb1).
    by rewrite delete_id.
Qed.

End Inert.

Lemma emit_inert code (fuel : nat) event data b :
  (∀ h, body (code h) = []) →
  (slots (listeners b) event b + 2 ≤ fuel)%nat →
  (slots (onceListeners b) event b + 2 ≤ fuel)%nat →
  emit code fuel event data b
  = (Normal,
     with_onceListeners (delete event)
       (delivered code "Error in once listener for" event data (once_regs event b)
          (delivered code "Error in event listener for" event data
             (persistent_regs event b) b))).
Proof.
  intros Hinert H1 H2. destruct fuel as [| fuel]; [lia |]. simpl.
  apply emit_step_inert; [done | lia ..].
Qed.

(** C2: [emit] never ends by throwing; the handler invocations it performs
    and the registries it leaves are those of the same emit where no
    handler throws, so that an error in one handler takes nothing away
    from the others; and when the handlers themselves do not call the bus,
    [emit] invokes every persistent handler and then every once handler
    registered for the event, in order, whichever of them throw, writes
    one console line per handler that threw, and returns. *)
Theorem emit_isolates_handler_errors code (fuel : nat) event data b :
  let r := emit code fuel event data b in
  (∀ error, r.1 ≠ Throw error) ∧
  agree_result r (emit (silence code) fuel event data b) ∧
  ((∀ h, body (code h) = []) →
   slots (listeners b) event b + 2 ≤ fuel →
   slots (onceListeners b) event b + 2 ≤ fuel →
   r.1 = Normal ∧
   invoked r.2
   = invoked b
     ++ ((λ h, (event, h, data)) <$> (persistent_regs event b ++ once_regs event b)) ∧
   errors r.2
   = errors b
     ++ omap (λ h, (λ error, ("Error in event listener for", event, error))
                     <$> throws (code h)) (persistent_regs event b)
     ++ omap (λ h, (λ error, ("Error in once listener for", event, error))
                     <$> throws (code h)) (once_regs event b)).
Proof.
  intros r. split; [| split].
  - intros error. apply emit_no_throw.
  - apply emit_agree, agree_refl.
  - intros Hinert H1 H2. subst r. rewrite emit_inert by done. simpl.
    split; [done |]. by rewrite fmap_app, !app_assoc.
Qed.

(** Handler 1 throws, the others return; none of them calls the bus. *)
Definition first_throws (h : Handler) : Callback :=
  {| body := []; throws := if decide (h = 1) then Some "boom" else None |}.

Lemma emit_isolates_handler_errors_witness :
  let b := (run first_throws 0 [CallOn "e" 1; CallOn "e" 2; CallOnce "e" 3] new_EventBus).2 in
  let r := emit first_throws 4 "e" (Opaque 7) b in
  r.1 = Normal ∧
  invoked r.2 = [("e", 1, Opaque 7); ("e", 2, Opaque 7); ("e", 3, Opaque 7)] ∧
  errors r.2 = [("Error in event listener for", "e", "boom")].
Proof.
  intros b r.
  assert (∀ h, body (first_throws h) = []) as Hinert by reflexivity.
  assert (slots (listeners b) "e" b + 2 ≤ 4)%nat as H1 by (vm_compute; lia).
  assert (slots (onceListeners b) "e" b + 2 ≤ 4)%nat as H2 by (vm_compute; lia).
  destruct (proj2 (proj2 (emit_isolates_handler_errors first_throws 4 "e" (Opaque 7) b))
              Hinert H1 H2) as (Hsg & Hinv & Herr).
  fold r in Hsg, Hinv, Herr. rewrite Hsg, Hinv, Herr. by vm_compute.
Defined.

(** *** More fuel changes nothing *)

Section Monotone.

Variable code : Handler → Callback.

(** [f'] ends as [f] does wherever [f] does not run out of fuel. *)
Definition extends {A} (f f' : A → State → Signal * State) : Prop :=
  ∀ x b sg b', sg ≠ Diverge → f x b = (sg, b') → f' x b = (sg, b').

Section WithEmit.

Variables emit_ emit_' : string → Payload → State → Signal * State.
Hypothesis emit_extends_ : ∀ e, extends (emit_ e) (emit_' e).

Lemma run_action_extends : extends (run_action emit_) (run_action emit_').
Proof.
  intros a b sg b' Hsg. destruct a; simpl; try done. by apply emit_extends_.
Qed.

Lemma run_body_extends : extends (run_body emit_) (run_body emit_').
Proof.
  intros acts. induction acts as [| a acts IH]; intros b sg b' Hsg; simpl; [done |].
  destruct (run_action emit_ a b) as [sg1 b1] eqn:Ha.
  destruct sg1.
  - rewrite (run_action_extends a b Normal b1) by done. by apply IH.
  - intros [= <- <-]. by rewrite (run_action_extends a b (Throw error) b1).
  - intros [= <- <-]. done.
Qed.

Lemma guarded_extends prefix event data :
  extends (guarded code emit_ prefix event data) (guarded code emit_' prefix event data).
Proof.
  intros h b sg b' Hsg. unfold guarded, invoke.
  destruct (run_body emit_ (body (code h)) _) as [sg1 b1] eqn:Hb.
  destruct sg1.
  - by rewrite (run_body_extends _ _ Normal b1).
  - by rewrite (run_body_extends _ _ (Throw error) b1).
  - intros [= <- <-]. done.
Qed.

Lemma forEach_extends f f' fuel fuel' r index :
  extends f f' → fuel ≤ fuel' →
  ∀ b sg b', sg ≠ Diverge →
    forEach fuel f r index b = (sg, b') → forEach fuel' f' r index b = (sg, b').
Proof.
  intros Hf. revert fuel' index.
  induction fuel as [| fuel IH]; intros fuel' index Hle b sg b' Hsg; simpl.
  - intros [= <- <-]. done.
  - destruct fuel' as [| fuel']; [lia |]. simpl.
    destruct (deref b r !! index) as [[h |] |]; [| apply IH; [lia | done] | done].
    destruct (f h b) as [sg1 b1] eqn:Hh. destruct sg1.
    + rewrite (Hf h b Normal b1) by done. apply IH; [lia | done].
    + intros [= <- <-]. by rewrite (Hf h b (Throw error) b1).
    + intros [= <- <-]. done.
Qed.

Lemma emit_step_extends fuel fuel' event :
  fuel ≤ fuel' →
  extends (emit_step code emit_ fuel event) (emit_step code emit_' fuel' event).
Proof.
  intros Hle data b sg b' Hsg. unfold emit_step.
  set (g := guarded code emit_ "Error in event listener for" event data).
  set (g' := guarded code emit_' "Error in event listener for" event data).
  set (o := guarded code emit_ "Error in once listener for" event data).
  set (o' := guarded code emit_' "Error in once listener for" event data).
  assert (∀ r index b sg b', sg ≠ Diverge →
            forEach fuel g r index b = (sg, b') →
            forEach fuel' g' r index b = (sg, b')) as Hg.
  { intros. eapply forEach_extends; [apply guarded_extends | done ..]. }
  assert (∀ r index b sg b', sg ≠ Diverge →
            forEach fuel o r index b = (sg, b') →
            forEach fuel' o' r index b = (sg, b')) as Ho.
  { intros. eapply forEach_extends; [apply guarded_extends | done ..]. }
  destruct (listeners b !! event) as [r |].
  - destruct (forEach fuel g r 0 b) as [sg1 b1] eqn:H1. destruct sg1.
    + rewrite (Hg r 0 b Normal b1) by done.
      destruct (onceListeners b1 !! event) as [r' |]; [| done].
      destruct (forEach fuel o r' 0 b1) as [sg2 b2] eqn:H2. destruct sg2.
      * by rewrite (Ho r' 0 b1 Normal b2).
      * by rewrite (Ho r' 0 b1 (Throw error) b2).
      * intros [= <- <-]. done.
    + by rewrite (Hg r 0 b (Throw error) b1).
    + intros [= <- <-]. done.
  - destruct (onceListeners b !! event) as [r' |]; [| done].
    destruct (forEach fuel o r' 0 b) as [sg2 b2] eqn:H2. destruct sg2.
    * by rewrite (Ho r' 0 b Normal b2).
    * by rewrite (Ho r' 0 b (Throw error) b2).
    * intros [= <- <-]. done.
Qed.

End WithEmit.

Lemma emit_extends fuel fuel' event :
  fuel ≤ fuel' → extends (emit code fuel event) (emit code fuel' event).
Proof.
  revert fuel' event. induction fuel as [| fuel IH]; intros fuel' event Hle.
  - intros data b sg b' Hsg [= <- <-]. done.
  - destruct fuel' as [| fuel']; [lia |]. simpl.
    apply emit_step_extends; [| lia]. intros e. apply IH. lia.
Qed.

(** A client program that ends with some fuel ends the same way with more. *)
Lemma run_more_fuel fuel fuel' script b sg b' :
  fuel ≤ fuel' → sg ≠ Diverge →
  run code fuel script b = (sg, b') → run code fuel' script b = (sg, b').
Proof.
  intros Hle Hsg. apply run_body_extends; [| done].
  intros e. by apply emit_extends.
Qed.

End Monotone.

(** *** Registering twice *)





(** *** Counting listeners *)

Lemma listenerCount_delivered code prefix event data hs e b :
  listenerCount e (delivered code prefix event data hs b) = listenerCount e b.
Proof. reflexivity. Qed.

(** C7: in every state of the bus, [listenerCount(event)] is the number of
    handlers in the persistent registry of the event plus the number in its
    once registry, and the call leaves the bus as it is.  These are the
    registrations that are live: when the handlers do not call the bus, an
    emit of the event invokes that many handlers, after which the once
    registrations no longer count. *)
Theorem listenerCount_counts_registrations event b :
  listenerCount event b
  = length (persistent_regs event b) + length (once_regs event b) ∧
  (∀ emit_, run_action emit_ (CallListenerCount event) b = (Normal, b)) ∧
  (∀ code (fuel : nat) data,
     (∀ h, body (code h) = []) →
     slots (listeners b) event b + 2 ≤ fuel →
     slots (onceListeners b) event b + 2 ≤ fuel →
     let b' := (emit code fuel event data b).2 in
     length (invoked b') = length (invoked b) + listenerCount event b ∧
     listenerCount event b' = length (persistent_regs event b)).
Proof.
  assert (listenerCount event b
          = length (persistent_regs event b) + length (once_regs event b)) as Hcount.
  { unfold listenerCount, persistent_regs, once_regs, set_size.
    by destruct (listeners b !! event), (onceListeners b !! event). }
  split; [done |]. split; [done |].
  intros code fuel data Hinert H1 H2. rewrite emit_inert by done. simpl. split.
  - rewrite !length_app, !length_fmap, Hcount. lia.
  - unfold listenerCount, persistent_regs, set_size. simpl.
    rewrite lookup_delete_eq. unfold deref. simpl.
    destruct (listeners b !! event); simpl; lia.
Qed.

Lemma listenerCount_counts_registrations_witness :
  let b := (run (λ _, inert) 0 [CallOn "e" 1; CallOn "e" 2; CallOnce "e" 3; CallOff "e" 2]
              new_EventBus).2 in
  listenerCount "e" b = 2 ∧
  length (invoked (emit (λ _, inert) 4 "e" (Opaque 0) b).2) = 2 ∧
  listenerCount "e" (emit (λ _, inert) 4 "e" (Opaque 0) b).2 = 1.
Proof.
  intros b. split; [reflexivity |].
  destruct (listenerCount_counts_registrations "e" b) as (_ & _ & Hemit).
  destruct (Hemit (λ _, inert) 4 (Opaque 0)) as [Hlen Hafter];
    [done | vm_compute; lia | vm_compute; lia |].
  split; [rewrite Hlen | rewrite Hafter]; reflexivity.
Defined.

(** *** Once handlers and emits from inside an emit *)

(** Handler 1 unsubscribes itself and emits ["e"]; the others do nothing. *)
Definition reemits (h : Handler) : Callback :=
  match h with
  | 1 => {| body := [CallOff "e" 1; CallEmit "e" (Opaque 0)]; throws := None |}
  | _ => inert
  end.

(** C3 (the code departs from it): handlers 1 and 2 are registered with
    [once] for ["e"], and handler 1 emits ["e"] when it is called.  One
    emit of ["e"] then invokes handler 2 twice: the once registry of the
    event is deleted only after its [forEach] has finished, so the emit
    made by handler 1 finds handler 2 still registered, and the outer
    [forEach] goes on to call it again. *)
Theorem once_handler_fires_twice (fuel : nat) :
  5 ≤ fuel →
  let r := run reemits fuel [CallOnce "e" 1; CallOnce "e" 2; CallEmit "e" (Opaque 0)]
             new_EventBus in
  r.1 = Normal ∧
  invoked r.2 = [("e", 1, Opaque 0); ("e", 2, Opaque 0); ("e", 2, Opaque 0)] ∧
  once_regs "e" r.2 = [].
Proof.
  intros Hfuel r.
  set (r5 := run reemits 5 [CallOnce "e" 1; CallOnce "e" 2; CallEmit "e" (Opaque 0)]
               new_EventBus).
  assert (r5.1 = Normal) as Hsg by (by vm_compute).
  assert (r = r5) as ->.
  { subst r. rewrite (surjective_pairing r5), Hsg.
    apply (run_more_fuel reemits 5 fuel); [done | done |].
    by rewrite <- Hsg, <- surjective_pairing. }
  by vm_compute.
Qed.

Lemma once_handler_fires_twice_witness :
  invoked (run reemits 5 [CallOnce "e" 1; CallOnce "e" 2; CallEmit "e" (Opaque 0)]
             new_EventBus).2
  = [("e", 1, Opaque 0); ("e", 2, Opaque 0); ("e", 2, Opaque 0)].
Proof. exact (proj1 (proj2 (once_handler_fires_twice 5 (le_n 5)))). Defined.

(** With handlers that do not call the bus, an emit leaves no once
    registration for the event, so that a later emit invokes none of them. *)
Lemma emit_clears_once code (fuel : nat) event data b :
  (∀ h, body (code h) = []) →
  slots (listeners b) event b + 2 ≤ fuel →
  slots (onceListeners b) event b + 2 ≤ fuel →
  once_regs event (emit code fuel event data b).2 = [].
Proof.
  intros Hinert H1 H2. rewrite emit_inert by done.
  unfold once_regs. simpl. by rewrite lookup_delete_eq.
Qed.

Lemma once_registers e h b :
  wf b → h ∈ once_regs e (once e h b) ∧ NoDup (once_regs e (once e h b)).
Proof.
  intros Hwf.
  pose proof (wf_footprint _ _ _ (footprint_once e h b) Hwf) as Hwf'.
  split; [| unfold once_regs; destruct (onceListeners _ !! e); [apply Hwf' | apply NoDup_nil_2]].
  unfold once_regs. rewrite once_eq.
  destruct (onceListeners b !! e) as [r |] eqn:He.
  - simpl. rewrite He. apply elem_of_set_live. rewrite deref_alter.
    rewrite decide_True by (split; [done | eapply wf_bound; [done | by right]]).
    apply elem_of_set_add. by right.
  - simpl. rewrite lookup_insert_eq. apply elem_of_set_live.
    rewrite deref_with_onceListeners, (deref_alloc [Some h] b), decide_True by done.
    by left.
Qed.

(** What does hold of [once]: when the handlers do not call the bus, two
    emits made one after the other invoke the handlers of the once registry
    during the first emit only, and the handler registered with [once] is
    among them, once. *)
Lemma once_handler_fires_once_in_sequence code (fuel : nat) e h d1 d2 b :
  wf b →
  (∀ h', body (code h') = []) →
  let b1 := once e h b in
  slots (listeners b1) e b1 + 2 ≤ fuel →
  slots (onceListeners b1) e b1 + 2 ≤ fuel →
  let b2 := (emit code fuel e d1 b1).2 in
  let b3 := (emit code fuel e d2 b2).2 in
  h ∈ once_regs e b1 ∧ NoDup (once_regs e b1) ∧
  invoked b3
  = invoked b1
    ++ ((λ x, (e, x, d1)) <$> (persistent_regs e b1 ++ once_regs e b1))
    ++ ((λ x, (e, x, d2)) <$> persistent_regs e b1).
Proof.
  intros Hwf Hinert b1 H1 H2 b2 b3.
  destruct (once_registers e h b Hwf) as [Hin Hnd].
  split; [done |]. split; [done |].
  subst b3 b2. rewrite (emit_inert code fuel e d1 b1) by done.
  rewrite emit_inert; [| done | done |].
  - unfold once_regs at 1. simpl. rewrite lookup_delete_eq. simpl.
    rewrite fmap_app, !app_nil_r, !app_assoc. done.
  - unfold slots. simpl. by rewrite lookup_delete_eq; lia.
Qed.

End EventBusFacts.

(** ** The monitor's events as its subscribers see them *)

Module Subscribers.
Import EventBus EventBusFacts.

Abbreviation quality_changed := "performance:quality-changed" (only parsing).

(** C10: [setQuality] with one of the three levels makes that level the
    active one and emits the quality-changed event with the level and its
    bundle, whatever the active level was; when it was that level already,
    the level does not change and the event is emitted all the same.  A
    handler subscribed to the event on a bus whose handlers do not call the
    bus is invoked with that payload when the event is emitted. *)
Theorem setQuality_emits_without_transition level s :
  level ∈ ["HIGH"; "MEDIUM"; "LOW"] →
  ∃ settings,
    PerformanceMonitor.qualityLevels level = Some (Settings settings) ∧
    PerformanceMonitor.currentQuality (PerformanceMonitor.setQuality level s) = level ∧
    (PerformanceMonitor.currentQuality s = level →
     PerformanceMonitor.currentQuality (PerformanceMonitor.setQuality level s)
     = PerformanceMonitor.currentQuality s) ∧
    PerformanceMonitor.emitted (PerformanceMonitor.setQuality level s)
    = PerformanceMonitor.emitted s
      ++ [(quality_changed, QualityChanged level (Settings settings))] ∧
    ∀ code (fuel : nat) b h,
      (∀ h', body (code h') = []) →
      slots (listeners b) quality_changed b + 2 ≤ fuel →
      slots (onceListeners b) quality_changed b + 2 ≤ fuel →
      h ∈ persistent_regs quality_changed b →
      (quality_changed, h, QualityChanged level (Settings settings))
      ∈ invoked (emit code fuel quality_changed
                   (QualityChanged level (Settings settings)) b).2.
Proof.
  intros Hlevel.
  assert (∃ settings, PerformanceMonitor.qualityLevels level = Some (Settings settings))
    as [settings Hq].
  { repeat (apply elem_of_cons in Hlevel as [-> | Hlevel]); [by eexists .. |].
    by apply elem_of_nil in Hlevel. }
  exists settings. unfold PerformanceMonitor.setQuality. rewrite Hq.
  split; [done |]. split; [done |]. split; [by intros -> |]. split; [done |].
  intros code fuel b h Hinert H1 H2 Hin. rewrite emit_inert by done. simpl.
  apply elem_of_app. left. apply elem_of_app. right.
  by apply (list_elem_of_fmap_2 (λ h, (quality_changed, h, _))).
Qed.

Lemma setQuality_emits_without_transition_witness :
  let s := PerformanceMonitor.new_PerformanceMonitor (PerformanceMonitor.num 0)
             (PerformanceMonitor.num 0) in
  PerformanceMonitor.currentQuality s = "HIGH" ∧
  PerformanceMonitor.currentQuality (PerformanceMonitor.setQuality "HIGH" s) = "HIGH" ∧
  PerformanceMonitor.emitted (PerformanceMonitor.setQuality "HIGH" s)
  = [(quality_changed, QualityChanged "HIGH" (Settings PerformanceMonitor.HIGH))].
Proof.
  intros s. split; [reflexivity |].
  destruct (setQuality_emits_without_transition "HIGH" s) as (settings & Hq & Hl & _ & He & _).
  { by left. }
  injection Hq as <-. split; [exact Hl | exact He].
Defined.

End Subscribers.

(** ** The registries as lists of handlers *)

Module EventBusRegistry.
Import EventBus EventBusFacts.

(** No [Set] serves both as a persistent and as a once registry. *)
Definition separate (b : State) : Prop :=
  ∀ ev ev' r, listeners b !! ev = Some r → onceListeners b !! ev' ≠ Some r.

(** The states a bus can be in. *)
Definition sound (b : State) : Prop := wf b ∧ separate b.

(** A property of the bus kept by every step of a dispatch is kept by
    [emit] and by client programs, whatever the handlers do. *)
Section Preserved.

Variable code : Handler → Callback.
Variable P : State → Prop.

Hypothesis P_on : ∀ e h b, P b → P (on e h b).2.
Hypothesis P_once : ∀ e h b, P b → P (once e h b).
Hypothesis P_off : ∀ e h b, P b → P (off e h b).
Hypothesis P_clear : ∀ e b, P b → P (clear e b).
Hypothesis P_clearAll : ∀ b, P b → P (clearAll b).
Hypothesis P_call : ∀ e h d b, P b → P (record_call e h d b).
Hypothesis P_error : ∀ p e err b, P b → P (console_error p e err b).
Hypothesis P_drop : ∀ e b, P b → P (with_onceListeners (delete e) b).

Section WithEmit.

Variable emit_ : string → Payload → State → Signal * State.
Hypothesis P_emit_ : ∀ e d b, P b → P (emit_ e d b).2.

Lemma run_action_preserves a b : P b → P (run_action emit_ a b).2.
Proof.
  intros Hb. destruct a; cbn [run_action snd].
  - by apply P_on.
  - by apply P_once.
  - by apply P_off.
  - by apply P_emit_.
  - by apply P_clear.
  - by apply P_clearAll.
  - done.
Qed.

Lemma run_body_preserves acts b : P b → P (run_body emit_ acts b).2.
Proof.
  revert b. induction acts as [| a acts IH]; intros b Hb; simpl; [done |].
  pose proof (run_action_preserves a b Hb) as Ha.
  destruct (run_action emit_ a b) as [[] b1]; simpl in *; [by apply IH | done ..].
Qed.

Lemma guarded_preserves prefix ev d h b :
  P b → P (guarded code emit_ prefix ev d h b).2.
Proof.
  intros Hb. unfold guarded, invoke.
  pose proof (run_body_preserves (body (code h)) _ (P_call ev h d b Hb)) as Hk.
  destruct (run_body emit_ (body (code h)) _) as [[] b1]; simpl in *.
  - destruct (throws (code h)); simpl; auto.
  - auto.
  - done.
Qed.

Lemma forEach_preserves prefix ev d fuel r index b :
  P b → P (forEach fuel (guarded code emit_ prefix ev d) r index b).2.
Proof.
  revert index b. induction fuel as [| fuel IH]; intros index b Hb; simpl; [done |].
  destruct (deref b r !! index) as [[h |] |]; [| by apply IH | done].
  pose proof (guarded_preserves prefix ev d h b Hb) as Hk.
  destruct (guarded code emit_ prefix ev d h b) as [[] b1]; simpl in *;
    [by apply IH | done ..].
Qed.

Lemma emit_step_preserves fuel ev d b : P b → P (emit_step code emit_ fuel ev d b).2.
Proof.
  intros Hb. unfold emit_step.
  assert (P (match listeners b !! ev with
             | Some r => forEach fuel
                 (guarded code emit_ "Error in event listener for" ev d) r 0 b
             | None => (Normal, b)
             end).2) as Hk.
  { destruct (listeners b !! ev); [by apply forEach_preserves | done]. }
  destruct (match listeners b !! ev with Some _ => _ | None => _ end) as [[] b1];
    simpl in *; [| done ..].
  destruct (onceListeners b1 !! ev) as [r |]; [| done].
  pose proof (forEach_preserves "Error in once listener for" ev d fuel r 0 b1 Hk) as Hk'.
  destruct (forEach fuel _ r 0 b1) as [[] b2]; simpl in *; auto.
Qed.

End WithEmit.

Lemma emit_preserves fuel ev d b : P b → P (emit code fuel ev d b).2.
Proof.
  revert ev d b. induction fuel as [| fuel IH]; intros ev d b Hb; simpl; [done |].
  by apply emit_step_preserves.
Qed.

Lemma run_preserves fuel script b : P b → P (run code fuel script b).2.
Proof. intros. apply run_body_preserves; [apply emit_preserves | done]. Qed.

End Preserved.

Lemma sound_new : sound new_EventBus.
Proof.
  split; [apply wf_new |]. intros ev ev' r H. simpl in H. by rewrite lookup_empty in H.
Qed.

Lemma sound_on e h b : sound b → sound (on e h b).2.
Proof.
  intros [Hwf Hsep]. split; [by eapply wf_footprint; [apply footprint_on |] |].
  rewrite on_eq. destruct (listeners b !! e) as [r |] eqn:He; [done |].
  intros ev ev' r Hl Ho. simpl in Hl, Ho.
  apply lookup_insert_Some in Hl as [[<- <-] | [_ Hl]]; [| by eapply Hsep].
  assert (length (sets b) < length (sets b)); [| lia].
  eapply wf_bound; [done | by right].
Qed.

Lemma sound_once e h b : sound b → sound (once e h b).
Proof.
  intros [Hwf Hsep]. split; [by eapply wf_footprint; [apply footprint_once |] |].
  rewrite once_eq. destruct (onceListeners b !! e) as [r |] eqn:He; [done |].
  intros ev ev' r Hl Ho. simpl in Hl, Ho.
  apply lookup_insert_Some in Ho as [[<- <-] | [_ Ho]]; [| by eapply Hsep].
  assert (length (sets b) < length (sets b)); [| lia].
  eapply wf_bound; [done | by left].
Qed.

Lemma sound_off e h b : sound b → sound (off e h b).
Proof.
  intros [Hwf Hsep]. split; [by eapply wf_footprint; [apply footprint_off |] |].
  intros ev ev' r Hl Ho. eapply (Hsep ev ev' r).
  - revert Hl. unfold off. destruct (listeners b !! e); simpl;
      by destruct (onceListeners b !! e).
  - revert Ho. unfold off. destruct (listeners b !! e); simpl;
      by destruct (onceListeners b !! e).
Qed.

Lemma sound_clear e b : sound b → sound (clear e b).
Proof.
  intros [Hwf Hsep]. split; [by eapply wf_footprint; [apply footprint_clear |] |].
  intros ev ev' r Hl Ho. simpl in Hl, Ho.
  apply lookup_delete_Some in Hl as [_ Hl]. apply lookup_delete_Some in Ho as [_ Ho].
  by eapply Hsep.
Qed.

Lemma sound_clearAll b : sound b → sound (clearAll b).
Proof.
  intros [Hwf Hsep]. split; [by eapply wf_footprint; [apply footprint_clearAll |] |].
  intros ev ev' r Hl. simpl in Hl. by rewrite lookup_empty in Hl.
Qed.

Lemma sound_drop_once e b : sound b → sound (with_onceListeners (delete e) b).
Proof.
  intros [Hwf Hsep]. split; [by eapply wf_footprint; [apply footprint_drop_once |] |].
  intros ev ev' r Hl Ho. simpl in Hl, Ho.
  apply lookup_delete_Some in Ho as [_ Ho]. by eapply Hsep.
Qed.

Lemma run_sound code fuel script b : sound b → sound (run code fuel script b).2.
Proof.
  apply run_preserves.
  - apply sound_on.
  - apply sound_once.
  - apply sound_off.
  - apply sound_clear.
  - apply sound_clearAll.
  - intros e h d b1 [Hwf Hsep]. split; [| done].
    by eapply wf_footprint; [apply footprint_record_call |].
  - intros p e err b1 [Hwf Hsep]. split; [| done].
    by eapply wf_footprint; [apply footprint_console_error |].
  - apply sound_drop_once.
Qed.

(** *** What each method does to the registries *)

Lemma set_live_add_regs h s :
  set_live (set_add h s)
  = if decide (h ∈ set_live s) then set_live s else set_live s ++ [h].
Proof.
  rewrite set_live_add.
  destruct (decide (Some h ∈ s)) as [Hin | Hin], (decide (h ∈ set_live s)) as [Hin' | Hin'];
    try done; exfalso; rewrite elem_of_set_live in Hin'; done.
Qed.

(** X1: on a bus reached by any client program, [on(event, handler)] puts
    the handler at the end of the persistent registry of the event unless
    it is there already, in which case the registry is as it was; the once
    registries, and the persistent registries of the other events, are as
    they were. *)
Theorem on_appends_unless_registered event handler b :
  sound b →
  persistent_regs event (on event handler b).2
  = (if decide (handler ∈ persistent_regs event b) then persistent_regs event b
     else persistent_regs event b ++ [handler]) ∧
  (∀ e, once_regs e (on event handler b).2 = once_regs e b) ∧
  (∀ e, e ≠ event → persistent_regs e (on event handler b).2 = persistent_regs e b).
Proof.
  intros [Hwf Hsep]. rewrite on_eq. unfold persistent_regs, once_regs.
  destruct (listeners b !! event) as [r |] eqn:He.
  - simpl. rewrite He. split; [| split].
    + rewrite deref_alter.
      rewrite decide_True by (split; [done | eapply wf_bound; [done | by left]]).
      apply set_live_add_regs.
    + intros e. destruct (onceListeners b !! e) as [r' |] eqn:Ho; [| done].
      rewrite deref_alter, decide_False; [done |].
      intros [-> _]. by eapply Hsep.
    + intros e Hne. destruct (listeners b !! e) as [r' |] eqn:Hl; [| done].
      rewrite deref_alter, decide_False; [done |].
      intros [-> _]. apply Hne. eapply (wf_owner _ Hwf); by left.
  - simpl. rewrite lookup_insert_eq. split; [| split].
    + rewrite deref_with_listeners, (deref_alloc [Some handler] b), decide_True by done.
      done.
    + intros e. destruct (onceListeners b !! e) as [r' |] eqn:Ho; [| done].
      rewrite deref_with_listeners, (deref_alloc [Some handler] b), decide_False; [done |].
      assert (r' < length (sets b)); [| lia]. eapply wf_bound; [done | by right].
    + intros e Hne. rewrite lookup_insert_ne by done.
      destruct (listeners b !! e) as [r' |] eqn:Hl; [| done].
      rewrite deref_with_listeners, (deref_alloc [Some handler] b), decide_False; [done |].
      assert (r' < length (sets b)); [| lia]. eapply wf_bound; [done | by left].
Qed.

Lemma on_appends_unless_registered_witness :
  let b := (run (λ _, inert) 0 [CallOn "e" 1; CallOnce "e" 2; CallOn "f" 3] new_EventBus).2 in
  persistent_regs "e" (on "e" 4 b).2 = [1; 4] ∧
  persistent_regs "e" (on "e" 1 b).2 = [1] ∧
  once_regs "e" (on "e" 4 b).2 = [2] ∧
  persistent_regs "f" (on "e" 4 b).2 = [3].
Proof.
  intros b.
  assert (sound b) as Hb by apply run_sound, sound_new.
  destruct (on_appends_unless_registered "e" 4 b Hb) as (H1 & H2 & H3).
  destruct (on_appends_unless_registered "e" 1 b Hb) as (H4 & _).
  rewrite H1, H4, H2, H3 by done. by vm_compute.
Defined.

(** X2: on a bus reached by any client program, [once(event, handler)]
    puts the handler at the end of the once registry of the event unless it
    is there already; the persistent registries, and the once registries of
    the other events, are as they were. *)
Theorem once_appends_unless_registered event handler b :
  sound b →
  once_regs event (once event handler b)
  = (if decide (handler ∈ once_regs event b) then once_regs event b
     else once_regs event b ++ [handler]) ∧
  (∀ e, persistent_regs e (once event handler b) = persistent_regs e b) ∧
  (∀ e, e ≠ event → once_regs e (once event handler b) = once_regs e b).
Proof.
  intros [Hwf Hsep]. rewrite once_eq. unfold persistent_regs, once_regs.
  destruct (onceListeners b !! event) as [r |] eqn:He.
  - simpl. rewrite He. split; [| split].
    + rewrite deref_alter.
      rewrite decide_True by (split; [done | eapply wf_bound; [done | by right]]).
      apply set_live_add_regs.
    + intros e. destruct (listeners b !! e) as [r' |] eqn:Hl; [| done].
      rewrite deref_alter, decide_False; [done |].
      intros [-> _]. by eapply Hsep.
    + intros e Hne. destruct (onceListeners b !! e) as [r' |] eqn:Ho; [| done].
      rewrite deref_alter, decide_False; [done |].
      intros [-> _]. apply Hne. eapply (wf_owner _ Hwf); by right.
  - simpl. rewrite lookup_insert_eq. split; [| split].
    + rewrite deref_with_onceListeners, (deref_alloc [Some handler] b), decide_True by done.
      done.
    + intros e. destruct (listeners b !! e) as [r' |] eqn:Hl; [| done].
      rewrite deref_with_onceListeners, (deref_alloc [Some handler] b), decide_False;
        [done |].
      assert (r' < length (sets b)); [| lia]. eapply wf_bound; [done | by left].
    + intros e Hne. rewrite lookup_insert_ne by done.
      destruct (onceListeners b !! e) as [r' |] eqn:Ho; [| done].
      rewrite deref_with_onceListeners, (deref_alloc [Some handler] b), decide_False;
        [done |].
      assert (r' < length (sets b)); [| lia]. eapply wf_bound; [done | by right].
Qed.

Lemma once_appends_unless_registered_witness :
  let b := (run (λ _, inert) 0 [CallOn "e" 1; CallOnce "e" 2; CallOnce "f" 3] new_EventBus).2 in
  once_regs "e" (once "e" 4 b) = [2; 4] ∧
  once_regs "e" (once "e" 2 b) = [2] ∧
  persistent_regs "e" (once "e" 4 b) = [1] ∧
  once_regs "f" (once "e" 4 b) = [3].
Proof.
  intros b.
  assert (sound b) as Hb by apply run_sound, sound_new.
  destruct (once_appends_unless_registered "e" 4 b Hb) as (H1 & H2 & H3).
  destruct (once_appends_unless_registered "e" 2 b Hb) as (H4 & _).
  rewrite H1, H4, H2, H3 by done. by vm_compute.
Defined.

Lemma set_delete_idempotent h s : set_delete h (set_delete h s) = set_delete h s.
Proof. apply set_delete_absent. by intros [_ ?]%elem_of_set_delete. Qed.

Lemma deref_delete h r0 b r :
  deref (with_sets (alter (set_delete h) r0) b) r
  = if decide (r0 = r) then set_delete h (deref b r) else deref b r.
Proof.
  rewrite deref_alter. destruct (decide (r0 = r)) as [<- | Hne].
  - case_decide as Hr; [done |].
    rewrite deref_out_of_range by (apply Nat.nlt_ge; tauto). done.
  - rewrite decide_False by tauto. done.
Qed.

Lemma deref_off e h b r :
  deref (off e h b) r
  = if decide (attached e b r) then set_delete h (deref b r) else deref b r.
Proof.
  unfold off, attached.
  destruct (listeners b !! e) as [r1 |].
  - change (onceListeners (with_sets (alter (set_delete h) r1) b))
      with (onceListeners b).
    destruct (onceListeners b !! e) as [r2 |].
    + rewrite !deref_delete.
      repeat case_decide; subst; rewrite ?set_delete_idempotent; try done;
        exfalso; intuition congruence.
    + rewrite deref_delete. repeat case_decide; subst; try done; exfalso; intuition congruence.
  - destruct (onceListeners b !! e) as [r2 |].
    + rewrite deref_delete. repeat case_decide; subst; try done; exfalso; intuition congruence.
    + case_decide; [exfalso; intuition congruence | done].
Qed.

Lemma listeners_off e h b : listeners (off e h b) = listeners b.
Proof.
  unfold off. destruct (listeners b !! e); simpl; by destruct (onceListeners b !! e).
Qed.

Lemma onceListeners_off e h b : onceListeners (off e h b) = onceListeners b.
Proof.
  unfold off. destruct (listeners b !! e); simpl; by destruct (onceListeners b !! e).
Qed.

(** X3: [off(event, handler)] takes the handler out of the persistent and
    of the once registry of the event and keeps the other handlers of both
    in their order; on a bus reached by any client program the registries
    of the other events are as they were. *)
Theorem off_filters_both_registries event handler b :
  persistent_regs event (off event handler b)
  = filter (λ x, x ≠ handler) (persistent_regs event b) ∧
  once_regs event (off event handler b)
  = filter (λ x, x ≠ handler) (once_regs event b) ∧
  (sound b → ∀ e, e ≠ event →
     persistent_regs e (off event handler b) = persistent_regs e b ∧
     once_regs e (off event handler b) = once_regs e b).
Proof.
  unfold persistent_regs, once_regs.
  rewrite listeners_off, onceListeners_off. split; [| split].
  - destruct (listeners b !! event) as [r |] eqn:Hl; [| done].
    rewrite deref_off, decide_True by (by left). apply set_live_delete.
  - destruct (onceListeners b !! event) as [r |] eqn:Ho; [| done].
    rewrite deref_off, decide_True by (by right). apply set_live_delete.
  - intros [Hwf _] e Hne. split.
    + destruct (listeners b !! e) as [r |] eqn:Hl; [| done].
      rewrite deref_off, decide_False; [done |].
      intros Ha. apply Hne. eapply (wf_owner _ Hwf); [by left | done].
    + destruct (onceListeners b !! e) as [r |] eqn:Ho; [| done].
      rewrite deref_off, decide_False; [done |].
      intros Ha. apply Hne. eapply (wf_owner _ Hwf); [by right | done].
Qed.

Lemma off_filters_both_registries_witness :
  let b := (run (λ _, inert) 0
              [CallOn "e" 1; CallOn "e" 2; CallOn "e" 3; CallOnce "e" 2; CallOn "f" 2]
              new_EventBus).2 in
  persistent_regs "e" (off "e" 2 b) = [1; 3] ∧
  once_regs "e" (off "e" 2 b) = [] ∧
  persistent_regs "f" (off "e" 2 b) = [2].
Proof.
  intros b.
  assert (sound b) as Hb by apply run_sound, sound_new.
  destruct (off_filters_both_registries "e" 2 b) as (H1 & H2 & H3).
  destruct (H3 Hb "f") as [H4 _]; [done |].
  rewrite H1, H2, H4. by vm_compute.
Defined.

(** X4: in every state that client programs and handlers can bring a new
    bus to, no handler is listed twice in the persistent registry of an
    event, nor twice in its once registry. *)
Theorem registries_have_no_duplicates code fuel script event :
  let b := (run code fuel script new_EventBus).2 in
  NoDup (persistent_regs event b) ∧ NoDup (once_regs event b).
Proof.
  intros b.
  assert (wf b) as Hwf by apply run_wf, wf_new.
  unfold persistent_regs, once_regs. split.
  - destruct (listeners b !! event); [apply Hwf | apply NoDup_nil_2].
  - destruct (onceListeners b !! event); [apply Hwf | apply NoDup_nil_2].
Qed.

(** *** Events without registrations *)

Lemma emit_unknown_event code fuel event data b :
  listeners b !! event = None → onceListeners b !! event = None →
  emit code (S fuel) event data b = (Normal, b).
Proof. intros Hl Ho. simpl. unfold emit_step. by rewrite Hl, Ho. Qed.

(** X5: after [clear(event)] the event has no registration left, in either
    registry, while the other events keep theirs; an emit of the event then
    invokes no handler and changes nothing, whatever the handlers of the bus
    do.  After [clearAll()] this holds of every event. *)
Theorem clear_silences_event code fuel event data b :
  listenerCount event (clear event b) = 0 ∧
  emit code (S fuel) event data (clear event b) = (Normal, clear event b) ∧
  (∀ e, e ≠ event →
     persistent_regs e (clear event b) = persistent_regs e b ∧
     once_regs e (clear event b) = once_regs e b) ∧
  listenerCount event (clearAll b) = 0 ∧
  emit code (S fuel) event data (clearAll b) = (Normal, clearAll b).
Proof.
  split; [| split; [| split; [| split]]].
  - unfold listenerCount. simpl. by rewrite !lookup_delete_eq.
  - apply emit_unknown_event; simpl; apply lookup_delete_eq.
  - intros e Hne. unfold persistent_regs, once_regs. simpl.
    by rewrite !lookup_delete_ne.
  - unfold listenerCount. simpl. by rewrite !lookup_empty.
  - apply emit_unknown_event; simpl; apply lookup_empty.
Qed.

Lemma clear_silences_event_witness :
  let b := (run (λ _, inert) 0 [CallOn "e" 1; CallOnce "e" 2; CallOn "f" 3] new_EventBus).2 in
  persistent_regs "f" (clear "e" b) = [3] ∧
  invoked (emit (λ _, inert) 1 "e" (Opaque 0) (clear "e" b)).2 = [].
Proof.
  intros b.
  destruct (clear_silences_event (λ _, inert) 0 "e" (Opaque 0) b) as (_ & He & Hf & _).
  destruct (Hf "f") as [Hp _]; [done |].
  rewrite Hp, He. by vm_compute.
Defined.

(** *** Emits whose handlers leave the bus alone *)

Section Local.

Variable code : Handler → Callback.
Variable emit_ : string → Payload → State → Signal * State.

Lemma guarded_inert_at prefix ev d h b :
  body (code h) = [] →
  guarded code emit_ prefix ev d h b = (Normal, delivered code prefix ev d [h] b).
Proof.
  intros Hh. unfold guarded, invoke. rewrite Hh. simpl.
  unfold delivered, console_error, record_call. simpl.
  destruct (throws (code h)); simpl; [done |]. by rewrite app_nil_r.
Qed.

Lemma forEach_local prefix ev d fuel r index b :
  (∀ h, Some h ∈ drop index (deref b r) → body (code h) = []) →
  length (deref b r) - index < fuel →
  forEach fuel (guarded code emit_ prefix ev d) r index b
  = (Normal, delivered code prefix ev d (set_live (drop index (deref b r))) b).
Proof.
  revert index b. induction fuel as [| fuel IH]; intros index b Hin Hfuel; [lia |].
  simpl. destruct (deref b r !! index) as [[h |] |] eqn:Hi.
  - pose proof (lookup_lt_Some _ _ _ Hi).
    rewrite (drop_S _ _ _ Hi) in Hin.
    rewrite guarded_inert_at by (apply Hin; by left).
    rewrite IH; [| | rewrite deref_delivered; lia].
    + rewrite deref_delivered, delivered_app. by rewrite (drop_S _ _ _ Hi).
    + intros x Hx. rewrite deref_delivered in Hx. apply Hin. by right.
  - pose proof (lookup_lt_Some _ _ _ Hi).
    rewrite (drop_S _ _ _ Hi) in Hin.
    rewrite IH; [by rewrite (drop_S _ _ _ Hi) | | lia].
    intros x Hx. apply Hin. by right.
  - apply lookup_ge_None in Hi. rewrite drop_ge by done. by rewrite delivered_nil.
Qed.

End Local.

(** X6: when the handlers registered for an event do not call the bus,
    an emit of the event invokes exactly them, the persistent ones and then
    the once ones, each in registration order, whatever the handlers
    registered for other events would do; it writes one console line per
    handler that threw, removes the once registry of the event and leaves
    the rest of the bus as it was. *)
Theorem emit_invokes_the_registered_handlers code (fuel : nat) event data b :
  (∀ h, h ∈ persistent_regs event b ++ once_regs event b → body (code h) = []) →
  slots (listeners b) event b + 2 ≤ fuel →
  slots (onceListeners b) event b + 2 ≤ fuel →
  emit code fuel event data b
  = (Normal,
     {| sets := sets b;
        listeners := listeners b;
        onceListeners := delete event (onceListeners b);
        invoked := invoked b
          ++ ((λ h, (event, h, data)) <$> (persistent_regs event b ++ once_regs event b));
        errors := errors b
          ++ omap (λ h, (λ error, ("Error in event listener for", event, error))
                          <$> throws (code h)) (persistent_regs event b)
          ++ omap (λ h, (λ error, ("Error in once listener for", event, error))
                          <$> throws (code h)) (once_regs event b) |}).
Proof.
  intros Hinert H1 H2. destruct fuel as [| fuel]; [lia |]. simpl.
  unfold slots, emit_step, persistent_regs, once_regs in *.
  assert (match listeners b !! event with
          | Some r => forEach fuel
              (guarded code (emit code fuel) "Error in event listener for" event data) r 0 b
          | None => (Normal, b)
          end
          = (Normal, delivered code "Error in event listener for" event data
                       match listeners b !! event with
                       | Some r => set_live (deref b r) | None => []
                       end b)) as ->.
  { destruct (listeners b !! event) as [r |]; [| by rewrite delivered_nil].
    rewrite forEach_local; [done | | lia].
    intros h Hh. apply Hinert, elem_of_app. left. by apply elem_of_set_live. }
  change (onceListeners (delivered ?c ?p ?e ?d ?hs b)) with (onceListeners b).
  destruct (onceListeners b !! event) as [r |] eqn:Ho.
  - rewrite forEach_local; [| | rewrite deref_delivered; lia].
    + unfold with_onceListeners, delivered. simpl.
      by rewrite fmap_app, !app_assoc.
    + intros h Hh. apply Hinert, elem_of_app. right. by apply elem_of_set_live.
  - unfold delivered. simpl. rewrite delete_id by done.
    by rewrite !app_nil_r.
Qed.

Lemma emit_invokes_the_registered_handlers_witness :
  let b := (run relays 0 [CallOn "e" 1; CallOn "f" 2; CallOnce "e" 3] new_EventBus).2 in
  invoked (emit relays 3 "e" (Opaque 0) b).2 = [("e", 1, Opaque 0); ("e", 3, Opaque 0)] ∧
  once_regs "e" (emit relays 3 "e" (Opaque 0) b).2 = [] ∧
  persistent_regs "f" (emit relays 3 "e" (Opaque 0) b).2 = [2].
Proof.
  intros b.
  rewrite (emit_invokes_the_registered_handlers relays 3 "e" (Opaque 0) b).
  - by vm_compute.
  - intros h Hh. assert (h ∈ [1; 3]) as Hin by exact Hh.
    repeat (apply elem_of_cons in Hin as [-> | Hin]); [done .. |].
    by apply elem_of_nil in Hin.
  - vm_compute; lia.
  - vm_compute; lia.
Defined.

(** *** Subscribing twice *)




(** Handler 2 unsubscribes handler 1 and subscribes it again; the others
    do nothing. *)
Definition resubscribes (h : Handler) : Callback :=
  match h with
  | 2 => {| body := [CallOff "e" 1; CallOn "e" 1]; throws := None |}
  | _ => inert
  end.

(** Why the handlers of the event must leave the bus alone: handler 1,
    subscribed twice, is invoked twice by one emit when handler 2 takes it
    out of the registry and puts it back during that emit. *)
Lemma resubscribed_handler_is_invoked_again :
  let b := (run resubscribes 0 [CallOn "e" 1; CallOn "e" 1; CallOn "e" 2] new_EventBus).2 in
  persistent_regs "e" b = [1; 2] ∧
  invoked (emit resubscribes 5 "e" (Opaque 0) b).2
  = [("e", 1, Opaque 0); ("e", 2, Opaque 0); ("e", 1, Opaque 0)].
Proof. by vm_compute. Qed.

(** *** Handlers that change the registry being iterated *)


Section Subscribing.

Variable code : Handler → Callback.
Variable emit_ : string → Payload → State → Signal * State.
Variables (event : string) (g h : nat) (data : Payload).
Hypothesis code_g : body (code g) = [CallOn event h].
Hypothesis code_h : body (code h) = [].



End Subscribing.


Ltac not_listed :=
  let H := fresh in
  intros H; repeat (apply elem_of_cons in H as [H | H]; [discriminate H |]);
  by apply elem_of_nil in H.



Section Unsubscribing.

Variable code : Handler → Callback.
Variable emit_ : string → Payload → State → Signal * State.
Variables (event : string) (g : nat) (data : Payload).
Hypothesis code_g : body (code g) = [CallOff event g].




End Unsubscribing.




End EventBusRegistry.

(** ** More on the monitor: the sample window, the events, the metrics *)

Module MonitorFacts.
Import PerformanceMonitor QualityControl.

(** [getQualitySettings()]; [None] is [undefined]. *)
Definition getQualitySettings (s : State) : option JSValue :=
  qualityLevels (currentQuality s).

(** [getFPS()] *)
Definition getFPS (s : State) : JSNumber := fps s.

(** The quality-changed event that [setQuality] emits for a level. *)
Definition level_event (level : string) : list (string * Payload) :=
  match qualityLevels level with
  | Some settings => [("performance:quality-changed", QualityChanged level settings)]
  | None => []
  end.

(** The level a subscriber that has followed the events believes active:
    the one of the last quality-changed event, HIGH before the first. *)
Definition announced (events : list (string * Payload)) : string :=
  foldl (λ level ev, match ev.2 with QualityChanged q _ => q | _ => level end) "HIGH" events.

(** The states the monitor can be in: those its constructor and methods
    produce. *)
Definition reachable (s : State) : Prop :=
  ∃ now0 now1 cs, s = calls cs (new_PerformanceMonitor now0 now1).

Lemma reachable_ind (P : State → Prop) :
  (∀ now0 now1, P (new_PerformanceMonitor now0 now1)) →
  (∀ c s, P s → P (call c s)) →
  ∀ s, reachable s → P s.
Proof.
  intros Hnew Hcall s (now0 & now1 & cs & ->). unfold calls.
  generalize (Hnew now0 now1). generalize (new_PerformanceMonitor now0 now1).
  induction cs as [| c cs IH]; intros s Hs; simpl; [done |].
  by apply IH, Hcall.
Qed.

(** [adjustQuality] does nothing, or sets another one of the three levels
    and logs it. *)
Lemma adjustQuality_cases s :
  adjustQuality s = s ∨
  ∃ level message,
    level ∈ ["HIGH"; "MEDIUM"; "LOW"] ∧ level ≠ currentQuality s ∧
    adjustQuality s = console_write (Log message (fps s)) (setQuality level s).
Proof.
  unfold adjustQuality, minAcceptableFPS, targetFPS.
  destruct (num_lt (fps s) (num 30)) eqn:Hlow; simpl.
  - pose proof (below_30_not_above_60 _ Hlow) as Hup.
    destruct (num_gt (getAverageFrameTime s) (num 33)).
    + destruct (decide (currentQuality s = "HIGH")) as [Hq | Hq].
      * rewrite Hup. simpl. right. exists "MEDIUM". eexists.
        split; [set_solver |]. split; [by rewrite Hq | done].
      * destruct (decide (currentQuality s = "MEDIUM")) as [Hq' | Hq'].
        -- rewrite Hup. simpl. right. exists "LOW". eexists.
           split; [set_solver |]. split; [by rewrite Hq' | done].
        -- rewrite Hup. by left.
    + rewrite Hup. by left.
  - destruct (num_ge (fps s) (num 60) && num_lt (getAverageFrameTime s) (num 16));
      [| by left].
    destruct (decide (currentQuality s = "LOW")) as [Hq | Hq].
    + right. exists "MEDIUM". eexists.
      split; [set_solver |]. split; [by rewrite Hq | done].
    + destruct (decide (currentQuality s = "MEDIUM")) as [Hq' | Hq']; [| by left].
      right. exists "HIGH". eexists.
      split; [set_solver |]. split; [by rewrite Hq' | done].
Qed.

Lemma setQuality_level level s :
  level ∈ ["HIGH"; "MEDIUM"; "LOW"] →
  ∃ settings, qualityLevels level = Some settings ∧
    setQuality level s
    = eventBus_emit "performance:quality-changed" (QualityChanged level settings)
        (set_currentQuality level s).
Proof.
  intros Hl. unfold setQuality.
  repeat (apply elem_of_cons in Hl as [-> | Hl]); [by eexists .. |].
  by apply elem_of_nil in Hl.
Qed.

Lemma emitted_adjustQuality s :
  emitted (adjustQuality s)
  = emitted s
    ++ (if decide (currentQuality (adjustQuality s) = currentQuality s) then []
        else level_event (currentQuality (adjustQuality s))).
Proof.
  destruct (adjustQuality_cases s) as [-> | (level & message & Hl & Hne & ->)].
  - rewrite decide_True by done. by rewrite app_nil_r.
  - destruct (setQuality_level level s Hl) as (settings & Hq & ->). simpl.
    rewrite decide_False by done. unfold level_event. by rewrite Hq.
Qed.

(** X9: what [end()] emits.  When no evaluation is due it emits nothing.
    At an evaluation it emits the fps event, carrying the fps just
    computed, preceded by one quality-changed event exactly when the call
    has changed the level, and that event carries the new level with its
    bundle. *)
Theorem end_emits_fps_and_transitions now s :
  emitted (end_ now s)
  = emitted s
    ++ (if evaluation_due now (record_frame now s) then
          (if decide (currentQuality (end_ now s) = currentQuality s) then []
           else level_event (currentQuality (end_ now s)))
          ++ [("performance:fps", FpsUpdate (fps (end_ now s)))]
        else []).
Proof.
  unfold end_.
  destruct (evaluation_due now (record_frame now s)); [| by rewrite app_nil_r].
  change (autoQualityAdjust (update_fps now (record_frame now s)))
    with (autoQualityAdjust s).
  destruct (autoQualityAdjust s).
  - simpl. rewrite emitted_adjustQuality. by rewrite <- app_assoc.
  - simpl. by rewrite decide_True by done.
Qed.

(** *** The events tell the level *)

(** Every quality-changed event is emitted under that name and carries a
    level with what [qualityLevels] holds for it. *)
Definition well_announced (ev : string * Payload) : Prop :=
  match ev.2 with
  | QualityChanged level settings =>
      ev.1 = "performance:quality-changed" ∧ qualityLevels level = Some settings
  | _ => True
  end.

Definition in_step (s : State) : Prop :=
  announced (emitted s) = currentQuality s ∧
  Forall well_announced (emitted s) ∧
  is_Some (getQualitySettings s).

Lemma announced_snoc events ev :
  announced (events ++ [ev])
  = match ev.2 with QualityChanged q _ => q | _ => announced events end.
Proof. unfold announced. by rewrite foldl_app. Qed.

Lemma in_step_same s s' :
  emitted s' = emitted s → currentQuality s' = currentQuality s → in_step s → in_step s'.
Proof. unfold in_step, getQualitySettings. by intros -> ->. Qed.

Lemma in_step_setQuality level s : in_step s → in_step (setQuality level s).
Proof.
  intros (Ha & Hw & Hs). unfold setQuality.
  destruct (qualityLevels level) as [settings |] eqn:Hq; [| done].
  split; [| split].
  - simpl. by rewrite announced_snoc.
  - simpl. apply Forall_app. split; [done |]. by apply Forall_singleton.
  - unfold getQualitySettings. simpl. by rewrite Hq.
Qed.

Lemma in_step_adjustQuality s : in_step s → in_step (adjustQuality s).
Proof.
  intros Hs. destruct (adjustQuality_cases s) as [-> | (level & message & _ & _ & ->)];
    [done |].
  by eapply in_step_same; [| | apply (in_step_setQuality level)].
Qed.

Lemma in_step_call c s : in_step s → in_step (call c s).
Proof.
  intros Hs. destruct c; cbn [call].
  - by eapply in_step_same.
  - unfold end_. set (s1 := record_frame now s).
    assert (in_step s1) as H1 by (by eapply in_step_same).
    destruct (evaluation_due now s1); [| by eapply in_step_same].
    assert (in_step (update_fps now s1)) as H3 by (by eapply in_step_same).
    assert (in_step (if autoQualityAdjust (update_fps now s1)
                     then adjustQuality (update_fps now s1) else update_fps now s1)) as H4.
    { destruct (autoQualityAdjust _); [by apply in_step_adjustQuality | done]. }
    destruct H4 as (Ha & Hw & Hsome).
    split; [| split].
    + simpl. by rewrite announced_snoc.
    + simpl. apply Forall_app. split; [done |]. by apply Forall_singleton.
    + done.
  - by apply in_step_setQuality.
  - by eapply in_step_same.
  - by eapply in_step_same.
Qed.

(** X10: in every state of the monitor, the active level is the level of
    the last quality-changed event emitted, HIGH if there was none; every
    quality-changed event emitted carries its level together with what
    [qualityLevels] holds for that level; and [getQualitySettings()] is
    not [undefined]. *)
Theorem events_tell_the_level s :
  reachable s →
  announced (emitted s) = currentQuality s ∧
  Forall well_announced (emitted s) ∧
  is_Some (getQualitySettings s).
Proof.
  apply (reachable_ind in_step).
  - intros now0 now1. split; [done |]. split; [by apply Forall_nil |]. by eexists.
  - apply in_step_call.
Qed.

Lemma events_tell_the_level_witness :
  let s := calls [SetQuality "MEDIUM"; Begin (num 0); End (num 10); SetQuality "ULTRA";
                  Begin (num 10); End (num 1000)]
             (new_PerformanceMonitor (num 0) (num 0)) in
  announced (emitted s) = "LOW" ∧ currentQuality s = "LOW".
Proof.
  intros s.
  destruct (events_tell_the_level s) as (Ha & _); [by eexists _, _, _ |].
  split; [by vm_compute | by rewrite <- Ha; vm_compute].
Defined.

(** Calls whose manual level, if any, is not a name that plain objects
    inherit. *)
Definition plain_call (c : Call) : Prop :=
  match c with
  | SetQuality level => level ∉ Object_prototype
  | _ => True
  end.

Lemma qualityLevels_plain level settings :
  level ∉ Object_prototype → qualityLevels level = Some settings →
  level ∈ ["HIGH"; "MEDIUM"; "LOW"].
Proof.
  intros Hp. unfold qualityLevels.
  repeat (case_decide; [subst; set_solver |]). done.
Qed.

Lemma currentQuality_adjustQuality_level s :
  currentQuality s ∈ ["HIGH"; "MEDIUM"; "LOW"] →
  currentQuality (adjustQuality s) ∈ ["HIGH"; "MEDIUM"; "LOW"].
Proof.
  intros Hs. destruct (adjustQuality_cases s) as [-> | (level & message & Hl & _ & ->)];
    [done |].
  destruct (setQuality_level level s Hl) as (settings & _ & ->). done.
Qed.

(** X11: as long as no manual [setQuality] is given a name inherited from
    [Object.prototype], the active level is one of HIGH, MEDIUM and LOW
    after any sequence of calls, and [getQualitySettings()] is the bundle
    of that level. *)
Theorem level_stays_among_the_three now0 now1 cs :
  Forall plain_call cs →
  let s := calls cs (new_PerformanceMonitor now0 now1) in
  currentQuality s ∈ ["HIGH"; "MEDIUM"; "LOW"] ∧
  ∃ bundle, getQualitySettings s = Some (Settings bundle) ∧ bundle ∈ [HIGH; MEDIUM; LOW].
Proof.
  intros Hcs s.
  assert (currentQuality s ∈ ["HIGH"; "MEDIUM"; "LOW"]) as Hl.
  { subst s. unfold calls.
    assert (currentQuality (new_PerformanceMonitor now0 now1) ∈ ["HIGH"; "MEDIUM"; "LOW"])
      as H0 by set_solver.
    revert H0. generalize (new_PerformanceMonitor now0 now1).
    induction Hcs as [| c cs Hc _ IH]; intros s Hs; simpl; [done |].
    apply IH. destruct c; cbn [call]; try done.
    - rewrite currentQuality_end. destruct (_ && _); [| done].
      unfold evaluated_level, step_down, step_up.
      repeat (match goal with |- context [if ?c then _ else _] => destruct c end);
        first [assumption | by left | by right; left | by right; right; left].
    - unfold setQuality. destruct (qualityLevels quality) eqn:Hq; [| done].
      simpl. by eapply qualityLevels_plain. }
  split; [done |]. unfold getQualitySettings.
  repeat (apply elem_of_cons in Hl as [-> | Hl]);
    [eexists; split; [reflexivity | set_solver] .. |].
  by apply elem_of_nil in Hl.
Qed.

Lemma level_stays_among_the_three_witness :
  let cs := [SetQuality "LOW"; Begin (num 0); End (num 10); SetQuality "ULTRA";
             Begin (num 10); End (num 1000)] in
  Forall plain_call cs ∧
  currentQuality (calls cs (new_PerformanceMonitor (num 0) (num 0)))
    ∈ ["HIGH"; "MEDIUM"; "LOW"].
Proof.
  intros cs.
  assert (Forall plain_call cs) as Hcs.
  { repeat constructor; unfold Object_prototype; EventBusRegistry.not_listed. }
  split; [done |].
  exact (proj1 (level_stays_among_the_three (num 0) (num 0) cs Hcs)).
Defined.

(** *** The sample window *)

Lemma frameTimes_adjustQuality s : frameTimes (adjustQuality s) = frameTimes s.
Proof.
  destruct (adjustQuality_cases s) as [-> | (level & message & Hl & _ & ->)]; [done |].
  by destruct (setQuality_level level s Hl) as (settings & _ & ->).
Qed.

Lemma frameTimes_end now s : frameTimes (end_ now s) = frameTimes (record_frame now s).
Proof.
  unfold end_. destruct (evaluation_due now (record_frame now s)); [| done].
  change (autoQualityAdjust (update_fps now (record_frame now s)))
    with (autoQualityAdjust s).
  destruct (autoQualityAdjust s); [| done].
  simpl. by rewrite frameTimes_adjustQuality.
Qed.

Lemma frameTimes_setQuality level s : frameTimes (setQuality level s) = frameTimes s.
Proof. unfold setQuality. by destruct (qualityLevels level). Qed.

(** X12: the sample window never holds more than 60 frame times, whatever
    calls are made; [end()] appends the time of the frame at the end of the
    window and, when the window is full, drops the oldest sample. *)
Theorem sample_window_is_bounded s :
  reachable s →
  length (frameTimes s) ≤ 60 ∧
  ∀ now,
    frameTimes (end_ now s)
    = (if decide (length (frameTimes s) = 60) then tail (frameTimes s) else frameTimes s)
      ++ [num_sub now (to_number (beginTime s))].
Proof.
  intros Hs.
  assert (length (frameTimes s) ≤ 60) as Hlen.
  { revert s Hs. apply reachable_ind; [intros; simpl; lia |].
    intros c s Hs. destruct c; cbn [call]; try done.
    - rewrite frameTimes_end. unfold record_frame, maxFrameTimeSamples. simpl.
      case_decide as Hfull; [| lia].
      destruct (frameTimes s) as [| x l]; simpl in *; [lia |].
      rewrite length_app in *. simpl in *. lia.
    - by rewrite frameTimes_setQuality.
    - simpl. lia. }
  split; [done |]. intros now. rewrite frameTimes_end.
  unfold record_frame, maxFrameTimeSamples. simpl. rewrite length_app. simpl.
  destruct (decide (length (frameTimes s) = 60)) as [Hfull | Hnot].
  - rewrite decide_True by lia. destruct (frameTimes s); [done |]. done.
  - rewrite decide_False by lia. done.
Qed.

Lemma sample_window_is_bounded_witness :
  let s := calls (concat (replicate 61 [Begin (num 0); End (num 5)]))
             (new_PerformanceMonitor (num 0) (num 0)) in
  length (frameTimes s) = 60 ∧
  frameTimes (end_ (num 9) s) = tail (frameTimes s) ++ [num 9].
Proof.
  intros s.
  destruct (sample_window_is_bounded s) as [_ Hend]; [by eexists _, _, _ |].
  split; [by vm_compute |]. rewrite Hend. by vm_compute.
Defined.

(** *** Samples that are not numbers *)

Lemma num_add_NaN_r (x : JSNumber) : num_add x NaN = NaN.
Proof. by destruct x. Qed.

Lemma foldl_num_add_NaN l : foldl num_add NaN l = NaN.
Proof. by induction l. Qed.

Lemma foldl_num_add_poisoned acc l : NaN ∈ l → foldl num_add acc l = NaN.
Proof.
  revert acc. induction l as [| x l IH]; intros acc Hin; [by apply elem_of_nil in Hin |].
  apply elem_of_cons in Hin as [<- | Hin]; cbn [foldl].
  - rewrite num_add_NaN_r. apply foldl_num_add_NaN.
  - by apply IH.
Qed.

Lemma num_gt_NaN (x : JSNumber) : num_gt NaN x = false.
Proof. by destruct x. Qed.

(** X14: a sample that is not a number makes the average not a number,
    and then [adjustQuality] does nothing at all.  An [end()] that no
    [begin()] has preceded puts such a sample in the window and leaves the
    level as it is, whatever the fps. *)
Theorem nan_sample_blocks_adjustment s :
  (NaN ∈ frameTimes s →
   getAverageFrameTime s = NaN ∧ adjustQuality s = s) ∧
  (beginTime s = None →
   ∀ now, NaN ∈ frameTimes (end_ now s) ∧
          currentQuality (end_ now s) = currentQuality s).
Proof.
  assert (∀ s, NaN ∈ frameTimes s → getAverageFrameTime s = NaN) as Havg.
  { intros s' Hin. unfold getAverageFrameTime.
    destruct (frameTimes s') eqn:Hf; [by apply elem_of_nil in Hin |].
    by rewrite foldl_num_add_poisoned. }
  assert (∀ s, NaN ∈ frameTimes s → adjustQuality s = s) as Hadj.
  { intros s' Hin. unfold adjustQuality. rewrite (Havg s' Hin). cbv zeta.
    rewrite num_gt_NaN. change (num_lt NaN (num 16)) with false.
    by rewrite !andb_false_r. }
  split; [by intros Hin; split; [apply Havg | apply Hadj] |].
  intros Hb now.
  assert (num_sub now (to_number (beginTime s)) = NaN) as Hnan.
  { rewrite Hb. by destruct now. }
  assert (NaN ∈ frameTimes (record_frame now s)) as Hin.
  { unfold record_frame. simpl. rewrite Hnan.
    case_decide as Hfull; [| apply elem_of_app; right; by left].
    destruct (frameTimes s) as [| x l]; simpl in *.
    - unfold maxFrameTimeSamples in Hfull. lia.
    - apply elem_of_app. right. by left. }
  split; [by rewrite frameTimes_end |].
  unfold end_. destruct (evaluation_due now (record_frame now s)); [| done].
  change (autoQualityAdjust (update_fps now (record_frame now s)))
    with (autoQualityAdjust s).
  destruct (autoQualityAdjust s); [| done].
  rewrite Hadj; done.
Qed.

Lemma nan_sample_blocks_adjustment_witness :
  let s := new_PerformanceMonitor (num 0) (num 0) in
  beginTime s = None ∧ currentQuality (end_ (num 5000) s) = "HIGH" ∧
  fps (end_ (num 5000) s) = num 0.
Proof.
  intros s. split; [done |].
  destruct (proj2 (nan_sample_blocks_adjustment s) eq_refl (num 5000)) as [_ Hq].
  split; [exact Hq | by vm_compute].
Defined.

(** *** Rounding *)

(** The double nearest to [n / 10 ^ k], which the decimal literal denotes,
    for [n] and [10 ^ k] below [2 ^ 53]. *)
Definition decimal (n : Z) (k : nat) : JSNumber :=
  num_div (num n) (num (10 ^ Z.of_nat k)).

(** The numbers round as the doubles of an engine do.  [1100.3 - 100.3] is
    1000, so that a monitor made at 100.3 evaluates at 1100.3; the average
    of three samples of 0.1 is above 0.1; the average of [33 + 2^-47] and 33
    is 33, hence not above 33; and 33 frames in 1118.6440677966102 ms make
    29.5 frames a second, which [Math.round] takes to 30. *)
Lemma numbers_round_as_doubles :
  num_sub (decimal 11003 1) (decimal 1003 1) = num 1000 ∧
  evaluation_due (decimal 11003 1)
    (new_PerformanceMonitor (decimal 1003 1) (decimal 1003 1)) = true ∧
  (let s := calls [Begin (num 0); End (decimal 1 1); Begin (num 0); End (decimal 1 1);
                   Begin (num 0); End (decimal 1 1)]
              (new_PerformanceMonitor (num 0) (num 0)) in
   frameTimes s = [decimal 1 1; decimal 1 1; decimal 1 1] ∧
   num_gt (getAverageFrameTime s) (decimal 1 1) = true) ∧
  (let s := calls [Begin (num 0); End (S754_finite false 4644337115725825 (-47));
                   Begin (num 0); End (num 33)]
              (new_PerformanceMonitor (num 0) (num 0)) in
   getAverageFrameTime s = num 33 ∧ num_gt (getAverageFrameTime s) (num 33) = false) ∧
  (let s := calls (concat (replicate 32 [Begin (num 0); End (num 1)]))
              (new_PerformanceMonitor (num 0) (num 0)) in
   computed_fps (S754_finite false 4919848639540068 (-42))
     (record_frame (S754_finite false 4919848639540068 (-42)) s)
   = Math_round (decimal 295 1) ∧
   fps (end_ (S754_finite false 4919848639540068 (-42)) s) = num 30).
Proof. vm_compute. by repeat split. Qed.

End MonitorFacts.

(** ** The render loop *)

(** [SceneManager.startRenderLoop], [pause], [resume] and the success path
    of [initialize], with [PortfolioApp.start], [pause], [resume] and
    [handleVisibilityChange] on top of them.  The host is modelled by the
    animation frame callbacks it has been asked to run and has neither run
    nor cancelled; every one of them runs the [render] closure.  The
    before- and after-render callbacks and the handlers of the events are
    taken not to call these methods. *)
Module RenderLoop.

Record State := {
  scheduled : list nat;
  next_id : nat;
  animationFrameId : option nat;
  isInitialized : bool;
  monitor : PerformanceMonitor.State;
  isRunning : bool;
  emitted : list string
}.

(** Before anything is constructed; the host numbers its callbacks from 1. *)
Definition start_state (now0 now1 : PerformanceMonitor.JSNumber) : State :=
  {| scheduled := []; next_id := 1; animationFrameId := None; isInitialized := false;
     monitor := PerformanceMonitor.new_PerformanceMonitor now0 now1;
     isRunning := false; emitted := [] |}.

Definition set_host (ids : list nat) (next : nat) (s : State) : State :=
  {| scheduled := ids; next_id := next; animationFrameId := animationFrameId s;
     isInitialized := isInitialized s; monitor := monitor s; isRunning := isRunning s;
     emitted := emitted s |}.

Definition set_animationFrameId (id : option nat) (s : State) : State :=
  {| scheduled := scheduled s; next_id := next_id s; animationFrameId := id;
     isInitialized := isInitialized s; monitor := monitor s; isRunning := isRunning s;
     emitted := emitted s |}.

Definition set_isInitialized (v : bool) (s : State) : State :=
  {| scheduled := scheduled s; next_id := next_id s;
     animationFrameId := animationFrameId s;
     isInitialized := v; monitor := monitor s; isRunning := isRunning s;
     emitted := emitted s |}.

Definition set_monitor (m : PerformanceMonitor.State) (s : State) : State :=
  {| scheduled := scheduled s; next_id := next_id s;
     animationFrameId := animationFrameId s;
     isInitialized := isInitialized s; monitor := m; isRunning := isRunning s;
     emitted := emitted s |}.

Definition set_isRunning (v : bool) (s : State) : State :=
  {| scheduled := scheduled s; next_id := next_id s;
     animationFrameId := animationFrameId s;
     isInitialized := isInitialized s; monitor := monitor s; isRunning := v;
     emitted := emitted s |}.

Definition eventBus_emit (event : string) (s : State) : State :=
  {| scheduled := scheduled s; next_id := next_id s;
     animationFrameId := animationFrameId s;
     isInitialized := isInitialized s; monitor := monitor s; isRunning := isRunning s;
     emitted := emitted s ++ [event] |}.

(** [requestAnimationFrame(render)]: the id handed out and the new state. *)
Definition requestAnimationFrame (s : State) : nat * State :=
  (next_id s, set_host (scheduled s ++ [next_id s]) (S (next_id s)) s).

(** [cancelAnimationFrame(id)] *)
Definition cancelAnimationFrame (id : nat) (s : State) : State :=
  set_host (filter (λ x, x ≠ id) (scheduled s)) (next_id s) s.

(** Whether [this.animationFrameId] is truthy: neither [null] nor 0. *)
Definition looping (s : State) : bool :=
  match animationFrameId s with
  | Some (S _) => true
  | _ => false
  end.

(** [startRenderLoop()] *)
Definition startRenderLoop (s : State) : State :=
  let '(id, s1) := requestAnimationFrame s in
  set_animationFrameId (Some id) s1.

(** The [render] closure, with the readings of [performance.now()] made by
    [begin()] and [end()]. *)
Definition render (now_begin now_end : PerformanceMonitor.JSNumber) (s : State) : State :=
  let '(id, s1) := requestAnimationFrame s in
  let s2 := set_animationFrameId (Some id) s1 in
  let s3 := set_monitor (PerformanceMonitor.begin now_begin (monitor s2)) s2 in
  let s4 := set_monitor (PerformanceMonitor.end_ now_end (monitor s3)) s3 in
  eventBus_emit "scene:render" s4.

(** The host runs the callback [id], if it still has it. *)
Definition frame (id : nat) (now_begin now_end : PerformanceMonitor.JSNumber)
    (s : State) : State :=
  if decide (id ∈ scheduled s)
  then render now_begin now_end
         (set_host (filter (λ x, x ≠ id) (scheduled s)) (next_id s) s)
  else s.

(** [SceneManager.pause()] *)
Definition pause (s : State) : State :=
  match animationFrameId s with
  | Some (S n) =>
      eventBus_emit "scene:paused"
        (set_animationFrameId None (cancelAnimationFrame (S n) s))
  | _ => s
  end.

(** [SceneManager.resume()] *)
Definition resume (s : State) : State :=
  if looping s then s else eventBus_emit "scene:resumed" (startRenderLoop s).

(** [SceneManager.initialize(container, options)] when the renderer can be
    created. *)
Definition initialize (s : State) : State :=
  if isInitialized s then s
  else eventBus_emit "scene:initialized" (set_isInitialized true (startRenderLoop s)).

(** [PortfolioApp.start()] *)
Definition app_start (s : State) : State :=
  if isRunning s then s
  else eventBus_emit "app:started" (set_isRunning true (resume s)).

(** [PortfolioApp.pause()] *)
Definition app_pause (s : State) : State :=
  if isRunning s
  then eventBus_emit "app:paused" (set_isRunning false (pause s))
  else s.

(** [PortfolioApp.resume()] *)
Definition app_resume (s : State) : State :=
  if isRunning s then s
  else eventBus_emit "app:resumed" (set_isRunning true (resume s)).

(** [PortfolioApp.handleVisibilityChange()], with [document.hidden]. *)
Definition handleVisibilityChange (hidden : bool) (s : State) : State :=
  if hidden then app_pause s else app_resume s.

(** What can happen once the scene manager is initialized and the
    application started. *)
Inductive Step :=
| Frame (id : nat) (now_begin now_end : PerformanceMonitor.JSNumber)
| Pause
| Resume
| Initialize
| AppStart
| AppPause
| AppResume
| VisibilityChange (hidden : bool).

Definition step (c : Step) (s : State) : State :=
  match c with
  | Frame id now_begin now_end => frame id now_begin now_end s
  | Pause => pause s
  | Resume => resume s
  | Initialize => initialize s
  | AppStart => app_start s
  | AppPause => app_pause s
  | AppResume => app_resume s
  | VisibilityChange hidden => handleVisibilityChange hidden s
  end.

Definition steps (cs : list Step) (s : State) : State := foldl (λ s c, step c s) s cs.

(** The calls that go through the application: its own methods and the
    frames of the host, but not [SceneManager.pause()] called directly. *)
Definition through_app (c : Step) : Prop :=
  match c with
  | Pause | Resume | Initialize => False
  | _ => True
  end.

(** The callbacks the host holds are exactly the one the scene manager
    remembers, if it remembers one. *)
Definition one_loop (s : State) : Prop :=
  isInitialized s = true ∧
  0 < next_id s ∧
  (∀ id, id ∈ scheduled s → id < next_id s) ∧
  scheduled s = match animationFrameId s with Some id => [id] | None => [] end ∧
  (∀ id, animationFrameId s = Some id → 0 < id).

Lemma filter_only (id : nat) : filter (λ x, x ≠ id) [id] = [].
Proof. rewrite filter_cons_False by (intros H; by apply H). apply filter_nil. Qed.

Lemma one_loop_upkeep s s' :
  scheduled s' = scheduled s → next_id s' = next_id s →
  animationFrameId s' = animationFrameId s → isInitialized s' = isInitialized s →
  one_loop s → one_loop s'.
Proof. unfold one_loop. by intros -> -> -> ->. Qed.

Lemma one_loop_startRenderLoop s :
  one_loop s → scheduled s = [] → one_loop (startRenderLoop s).
Proof.
  intros (Hi & Hn & Hb & _ & _) Hs. unfold startRenderLoop, one_loop. simpl.
  split; [done |]. split; [lia |]. split; [| split].
  - intros id. rewrite Hs. simpl. intros ->%list_elem_of_singleton. lia.
  - by rewrite Hs.
  - intros id [= <-]. done.
Qed.

Lemma one_loop_pause s : one_loop s → one_loop (pause s) ∧ scheduled (pause s) = [].
Proof.
  intros Hs. pose proof Hs as (Hi & Hn & Hb & Hsch & Hpos). unfold pause.
  destruct (animationFrameId s) as [[| n] |] eqn:Hid.
  - specialize (Hpos 0 eq_refl). lia.
  - unfold one_loop, cancelAnimationFrame. simpl. rewrite Hsch, filter_only.
    split; [| done]. split; [done |]. split; [done |]. split; [| done].
    intros id Hin. by apply elem_of_nil in Hin.
  - done.
Qed.

Lemma one_loop_resume s : one_loop s → one_loop (resume s).
Proof.
  intros Hs. pose proof Hs as (Hi & Hn & Hb & Hsch & Hpos). unfold resume, looping.
  destruct (animationFrameId s) as [[| n] |] eqn:Hid.
  - specialize (Hpos 0 eq_refl). lia.
  - done.
  - eapply one_loop_upkeep; [..| by apply (one_loop_startRenderLoop s)]; done.
Qed.

Lemma one_loop_frame id now_begin now_end s :
  one_loop s → one_loop (frame id now_begin now_end s).
Proof.
  intros Hs. pose proof Hs as (Hi & Hn & Hb & Hsch & Hpos). unfold frame.
  case_decide as Hin; [| done].
  assert (filter (λ x, x ≠ id) (scheduled s) = []) as Hrest.
  { rewrite Hsch in Hin |- *. destruct (animationFrameId s); [| done].
    apply list_elem_of_singleton in Hin as ->. apply filter_only. }
  unfold render, one_loop. simpl. rewrite Hrest. simpl.
  split; [done |]. split; [lia |]. split; [| split].
  - intros x ->%list_elem_of_singleton. lia.
  - done.
  - intros x [= <-]. done.
Qed.

Lemma one_loop_step c s : one_loop s → one_loop (step c s).
Proof.
  intros Hs. destruct c; cbn [step].
  - by apply one_loop_frame.
  - by apply one_loop_pause.
  - by apply one_loop_resume.
  - unfold initialize. by rewrite (proj1 Hs).
  - unfold app_start. destruct (isRunning s); [done |].
    by eapply one_loop_upkeep; [..| apply (one_loop_resume s)].
  - unfold app_pause. destruct (isRunning s); [| done].
    by eapply one_loop_upkeep; [..| apply (one_loop_pause s)].
  - unfold app_resume. destruct (isRunning s); [done |].
    by eapply one_loop_upkeep; [..| apply (one_loop_resume s)].
  - destruct hidden; simpl.
    + unfold app_pause. destruct (isRunning s); [| done].
      by eapply one_loop_upkeep; [..| apply (one_loop_pause s)].
    + unfold app_resume. destruct (isRunning s); [done |].
      by eapply one_loop_upkeep; [..| apply (one_loop_resume s)].
Qed.


Lemma one_loop_initialize now0 now1 : one_loop (initialize (start_state now0 now1)).
Proof.
  unfold initialize, one_loop. simpl. split; [done |]. split; [lia |]. split; [| split].
  - intros id ->%list_elem_of_singleton. lia.
  - done.
  - intros id [= <-]. lia.
Qed.


Lemma looping_resume s : 0 < next_id s → looping (resume s) = true.
Proof.
  intros Hn. unfold resume. destruct (looping s) eqn:Hl; [done |].
  unfold looping, startRenderLoop. simpl. by destruct (next_id s); [lia |].
Qed.

Lemma running_loops_step c s :
  through_app c → one_loop s →
  (isRunning s = true → looping s = true) →
  isRunning (step c s) = true → looping (step c s) = true.
Proof.
  intros Hc Hs Hinv. pose proof (proj1 (proj2 Hs)) as Hn.
  assert (isRunning (app_pause s) = true → looping (app_pause s) = true) as Hpause.
  { unfold app_pause. destruct (isRunning s) eqn:Hr; [by simpl | by rewrite Hr]. }
  assert (isRunning (app_resume s) = true → looping (app_resume s) = true) as Hresume.
  { unfold app_resume. destruct (isRunning s) eqn:Hr; [intros _; by apply Hinv |].
    intros _. by apply (looping_resume s). }
  destruct c; cbn [step].
  - unfold frame. case_decide as Hin; [| done]. intros _.
    unfold looping, render. simpl. by destruct (next_id s); [lia |].
  - done.
  - done.
  - done.
  - unfold app_start. destruct (isRunning s) eqn:Hr; [intros _; by apply Hinv |].
    intros _. by apply (looping_resume s).
  - done.
  - done.
  - by destruct hidden.
Qed.

(** X17: as long as the scene manager is paused and resumed through the
    application only, a running application has its render loop on: from
    the initialized scene manager, after any frames and any [start()],
    [pause()], [resume()] and visibility changes of the application,
    [isRunning] implies that [animationFrameId] names the one callback the
    host holds. *)
Theorem running_application_renders now0 now1 cs :
  Forall through_app cs →
  let s := steps cs (initialize (start_state now0 now1)) in
  isRunning s = true → ∃ id, animationFrameId s = Some id ∧ scheduled s = [id] ∧ 0 < id.
Proof.
  intros Hcs s.
  assert (one_loop s ∧ (isRunning s = true → looping s = true)) as [Hs Hinv].
  { subst s. pose proof (one_loop_initialize now0 now1) as H0.
    assert (isRunning (initialize (start_state now0 now1)) = true →
            looping (initialize (start_state now0 now1)) = true) as H1 by done.
    revert H0 H1. generalize (initialize (start_state now0 now1)).
    unfold steps. induction Hcs as [| c cs Hc Hcs IH]; intros s H0 H1; [done |].
    simpl. apply IH; [by apply one_loop_step | by apply running_loops_step]. }
  intros Hr. specialize (Hinv Hr). destruct Hs as (_ & _ & _ & Hsch & _).
  unfold looping in Hinv. destruct (animationFrameId s) as [[| n] |]; [done | | done].
  exists (S n). split; [done |]. split; [done | lia].
Qed.

Lemma running_application_renders_witness :
  let s := steps [AppStart; Frame 1 (PerformanceMonitor.num 0) (PerformanceMonitor.num 16);
                  VisibilityChange true; VisibilityChange false]
             (initialize (start_state (PerformanceMonitor.num 0) (PerformanceMonitor.num 0))) in
  isRunning s = true ∧ ∃ id, animationFrameId s = Some id ∧ scheduled s = [id] ∧ 0 < id.
Proof.
  intros s.
  assert (Forall through_app
            [AppStart; Frame 1 (PerformanceMonitor.num 0) (PerformanceMonitor.num 16);
             VisibilityChange true; VisibilityChange false])
    as Hcs by (repeat constructor).
  assert (isRunning s = true) as Hr by done.
  split; [exact Hr |].
  exact (running_application_renders (PerformanceMonitor.num 0) (PerformanceMonitor.num 0)
           _ Hcs Hr).
Defined.

(** X18: [initialize()] does not look at [animationFrameId].  Called while
    a loop started by [resume()] is running, it requests a second callback
    and forgets the first; [pause()] then cancels the second only, so the
    first still runs its frame, emits the render event and leaves the loop
    running after the pause. *)
Theorem initialize_while_looping_leaves_a_loop_behind s id :
  isInitialized s = false →
  animationFrameId s = Some id → 0 < id → scheduled s = [id] → id < next_id s →
  scheduled (initialize s) = [id; next_id s] ∧
  scheduled (pause (initialize s)) = [id] ∧
  looping (pause (initialize s)) = false ∧
  ∀ now_begin now_end,
    let s' := frame id now_begin now_end (pause (initialize s)) in
    looping s' = true ∧
    scheduled s' = [S (next_id s)] ∧
    emitted s' = emitted s ++ ["scene:initialized"; "scene:paused"; "scene:render"].
Proof.
  intros Hi Hid Hpos Hsch Hlt.
  assert (∃ n, next_id s = S n) as [n Hn] by (exists (pred (next_id s)); lia).
  unfold initialize. rewrite Hi. unfold pause, startRenderLoop. simpl.
  rewrite Hsch, Hn. simpl.
  assert (filter (λ x, x ≠ S n) [id; S n] = [id]) as Hrest.
  { rewrite filter_cons_True by lia. by rewrite filter_only. }
  split; [done |]. split; [done |]. split; [done |].
  intros now_begin now_end. unfold frame, cancelAnimationFrame. simpl.
  rewrite Hrest.
  rewrite decide_True by (by left). unfold render. simpl.
  rewrite filter_only.
  split; [done |]. split; [done |]. by rewrite <- !app_assoc.
Qed.

Lemma initialize_while_looping_leaves_a_loop_behind_witness :
  let s := resume (start_state (PerformanceMonitor.num 0) (PerformanceMonitor.num 0)) in
  scheduled (initialize s) = [1; 2] ∧
  scheduled (pause (initialize s)) = [1] ∧
  looping (frame 1 (PerformanceMonitor.num 0) (PerformanceMonitor.num 16)
             (pause (initialize s))) = true.
Proof.
  intros s.
  destruct (initialize_while_looping_leaves_a_loop_behind s 1)
    as (H1 & H2 & _ & H3); [done | done | lia | done | simpl; lia |].
  split; [exact H1 |]. split; [exact H2 |].
  exact (proj1 (H3 (PerformanceMonitor.num 0) (PerformanceMonitor.num 16))).
Defined.

End RenderLoop.

(** ** The asset manager *)

(** [AssetManager]: the caches and the counters behind [isComplete()].  A
    texture or a material is the number of its object.  The loaders of
    three.js are the loads handed to them that they have not finished:
    [TextureLoader] loads one image and calls [onLoad] when it has loaded
    and [onError] when it has failed; [CubeTextureLoader] loads the six
    images that [loadCubeTexture] documents, calls [onError] for every
    image that fails and [onLoad] when the sixth image has loaded.  The
    callbacks are called some time after the call that started the load.
    The url and the options of a load do not reach the caches or the
    counters and are left out, and so are the events: their handlers are
    taken not to call the asset manager. *)
Module AssetManager.

Inductive Kind := texture | cube_texture.

Definition type (k : Kind) : string :=
  match k with
  | texture => "texture"
  | cube_texture => "cube-texture"
  end.

(** A load with its loader: the images the loader still waits for, and
    whether one of its images has failed. *)
Record Load := { kind : Kind; name : string; images : nat; broken : bool }.

Record State := {
  textures : gmap string nat;
  materials : gmap string nat;
  totalAssets : nat;
  loadedAssets : nat;
  failedAssets : list (string * string);
  in_flight : list Load
}.

(** [new AssetManager()] *)
Definition new_AssetManager : State :=
  {| textures := ∅; materials := ∅; totalAssets := 0; loadedAssets := 0;
     failedAssets := []; in_flight := [] |}.

Definition with_in_flight (loads : list Load) (s : State) : State :=
  {| textures := textures s; materials := materials s; totalAssets := totalAssets s;
     loadedAssets := loadedAssets s; failedAssets := failedAssets s;
     in_flight := loads |}.

(** The executor of the promise: [this.totalAssets++] and the call of the
    loader. *)
Definition start_load (k : Kind) (n : string) (s : State) : State :=
  {| textures := textures s; materials := materials s;
     totalAssets := S (totalAssets s); loadedAssets := loadedAssets s;
     failedAssets := failedAssets s;
     in_flight := in_flight s
       ++ [{| kind := k; name := n;
              images := match k with texture => 1 | cube_texture => 6 end;
              broken := false |}] |}.

(** [loadTexture(name, url, options)] *)
Definition loadTexture (n : string) (s : State) : State :=
  if decide (is_Some (textures s !! n)) then s else start_load texture n s.

(** [loadCubeTexture(name, urls)] *)
Definition loadCubeTexture (n : string) (s : State) : State :=
  if decide (is_Some (textures s !! n)) then s else start_load cube_texture n s.

(** The [onLoad] function that a load hands to its loader, called with the
    texture. *)
Definition onLoad (l : Load) (t : nat) (s : State) : State :=
  {| textures := <[name l := t]> (textures s); materials := materials s;
     totalAssets := totalAssets s; loadedAssets := S (loadedAssets s);
     failedAssets := failedAssets s; in_flight := in_flight s |}.

(** The [onError] function that a load hands to its loader. *)
Definition onError (l : Load) (s : State) : State :=
  {| textures := textures s; materials := materials s;
     totalAssets := totalAssets s; loadedAssets := loadedAssets s;
     failedAssets := failedAssets s ++ [(type (kind l), name l)];
     in_flight := in_flight s |}.

(** The loader calls [onLoad] of the load at place [i] of the loads in
    flight, with the texture [t], and has finished that load. *)
Definition on_load (i : nat) (t : nat) (s : State) : State :=
  match in_flight s !! i with
  | Some l =>
      let s1 := onLoad l t s in
      with_in_flight (delete i (in_flight s1)) s1
  | None => s
  end.

(** An image of the load at place [i] has loaded.  The loader calls
    [onLoad] when this was the last image it waited for and none has
    failed. *)
Definition image_loaded (i : nat) (t : nat) (s : State) : State :=
  match in_flight s !! i with
  | Some l =>
      if decide (images l ≤ 1) then
        if broken l then with_in_flight (delete i (in_flight s)) s else on_load i t s
      else
        with_in_flight
          (<[i := {| kind := kind l; name := name l; images := images l - 1;
                     broken := broken l |}]> (in_flight s)) s
  | None => s
  end.

(** An image of the load at place [i] has failed: the loader calls
    [onError]. *)
Definition image_failed (i : nat) (s : State) : State :=
  match in_flight s !! i with
  | Some l =>
      let s1 := onError l s in
      if decide (images l ≤ 1) then with_in_flight (delete i (in_flight s1)) s1
      else
        with_in_flight
          (<[i := {| kind := kind l; name := name l; images := images l - 1;
                     broken := true |}]> (in_flight s1)) s1
  | None => s
  end.

(** [createProceduralTexture(name, generator)], with the texture made of
    the canvas of the generator. *)
Definition createProceduralTexture (n : string) (t : nat) (s : State) : nat * State :=
  match textures s !! n with
  | Some cached => (cached, s)
  | None =>
      (t, {| textures := <[n := t]> (textures s); materials := materials s;
             totalAssets := totalAssets s; loadedAssets := loadedAssets s;
             failedAssets := failedAssets s; in_flight := in_flight s |})
  end.

(** [cacheMaterial(name, material)] *)
Definition cacheMaterial (n : string) (m : nat) (s : State) : State :=
  {| textures := textures s; materials := <[n := m]> (materials s);
     totalAssets := totalAssets s; loadedAssets := loadedAssets s;
     failedAssets := failedAssets s; in_flight := in_flight s |}.

(** The start of every load of [loadAssets(assets)], an asset being its
    [type] and its [name]. *)
Definition start_asset (s : State) (a : string * string) : State :=
  if decide (a.1 = "texture") then loadTexture a.2 s
  else if decide (a.1 = "cube-texture") then loadCubeTexture a.2 s
  else s.

Definition loadAssets (assets : list (string * string)) (s : State) : State :=
  foldl start_asset s assets.

(** [isComplete()] *)
Definition isComplete (s : State) : bool :=
  bool_decide (0 < totalAssets s) && bool_decide (loadedAssets s = totalAssets s).

(** [clearAsset(name)] *)
Definition clearAsset (n : string) (s : State) : State :=
  {| textures := delete n (textures s); materials := delete n (materials s);
     totalAssets := totalAssets s; loadedAssets := loadedAssets s;
     failedAssets := failedAssets s; in_flight := in_flight s |}.

(** [clearAll()], which is [dispose()] too: the loaders are not told. *)
Definition clearAll (s : State) : State :=
  {| textures := ∅; materials := ∅; totalAssets := 0; loadedAssets := 0;
     failedAssets := []; in_flight := in_flight s |}.

Inductive Call :=
| LoadTexture (n : string)
| LoadCubeTexture (n : string)
| LoadAssets (assets : list (string * string))
| ImageLoaded (i : nat) (t : nat)
| ImageFailed (i : nat)
| CreateProceduralTexture (n : string) (t : nat)
| CacheMaterial (n : string) (m : nat)
| ClearAsset (n : string)
| ClearAll.

Definition call (s : State) (c : Call) : State :=
  match c with
  | LoadTexture n => loadTexture n s
  | LoadCubeTexture n => loadCubeTexture n s
  | LoadAssets assets => loadAssets assets s
  | ImageLoaded i t => image_loaded i t s
  | ImageFailed i => image_failed i s
  | CreateProceduralTexture n t => (createProceduralTexture n t s).2
  | CacheMaterial n m => cacheMaterial n m s
  | ClearAsset n => clearAsset n s
  | ClearAll => clearAll s
  end.

Definition calls (cs : list Call) (s : State) : State := foldl call s cs.

(** The loads none of whose images has failed. *)
Definition clean (loads : list Load) : nat :=
  length (filter (λ l, broken l = false) loads).

(** Every load loaded or in flight is counted; as long as nothing has
    failed the count is exact and no load in flight has a failed image;
    once something has failed, a counted load is neither loaded nor
    in flight with all its images sound. *)
Definition accounted (s : State) : Prop :=
  loadedAssets s + length (in_flight s) ≤ totalAssets s ∧
  (failedAssets s = [] →
   loadedAssets s + length (in_flight s) = totalAssets s ∧
   Forall (λ l, broken l = false) (in_flight s)) ∧
  (failedAssets s ≠ [] → loadedAssets s + clean (in_flight s) < totalAssets s).

Lemma clean_app loads loads' : clean (loads ++ loads') = clean loads + clean loads'.
Proof. unfold clean. by rewrite filter_app, length_app. Qed.

Lemma clean_cons l loads :
  clean (l :: loads) = (if broken l then 0 else 1) + clean loads.
Proof.
  unfold clean. destruct (broken l) eqn:Hl.
  - rewrite filter_cons_False; [done | by rewrite Hl].
  - by rewrite filter_cons_True.
Qed.

Lemma clean_lookup i l loads :
  loads !! i = Some l →
  clean loads
  = clean (take i loads) + (if broken l then 0 else 1) + clean (drop (S i) loads).
Proof.
  intros Hl. rewrite <- (take_drop_middle loads i l Hl) at 1.
  rewrite clean_app, clean_cons. lia.
Qed.

Lemma clean_delete i loads :
  clean (delete i loads) = clean (take i loads) + clean (drop (S i) loads).
Proof. by rewrite delete_take_drop, clean_app. Qed.

Lemma clean_insert i l loads :
  i < length loads →
  clean (<[i := l]> loads)
  = clean (take i loads) + (if broken l then 0 else 1) + clean (drop (S i) loads).
Proof.
  intros Hi. rewrite insert_take_drop by done. rewrite clean_app, clean_cons. lia.
Qed.

Lemma clean_le loads : clean loads ≤ length loads.
Proof. unfold clean. apply length_filter. Qed.

Lemma clean_sound loads : Forall (λ l, broken l = false) loads → clean loads = length loads.
Proof.
  induction 1 as [| l loads Hl _ IH]; [done |]. rewrite clean_cons, Hl, IH. done.
Qed.

Lemma length_in_flight_delete {A} (l : list A) i x :
  l !! i = Some x → S (length (delete i l)) = length l.
Proof.
  revert i. induction l as [| y l IH]; intros [| i] H; simplify_eq/=; [done |].
  by rewrite (IH i).
Qed.

Lemma accounted_start_load k n s : accounted s → accounted (start_load k n s).
Proof.
  intros (Hle & Hnone & Hsome). unfold accounted. simpl.
  rewrite length_app, clean_app, clean_cons. simpl. split; [lia |]. split.
  - intros Hf. destruct (Hnone Hf) as [Heq Hall]. split; [lia |].
    apply Forall_app. split; [done |]. by apply Forall_singleton.
  - intros Hf. specialize (Hsome Hf). unfold clean at 2. simpl. lia.
Qed.

Lemma accounted_loadTexture n s : accounted s → accounted (loadTexture n s).
Proof. unfold loadTexture. case_decide; [done | apply accounted_start_load]. Qed.

Lemma accounted_loadCubeTexture n s : accounted s → accounted (loadCubeTexture n s).
Proof. unfold loadCubeTexture. case_decide; [done | apply accounted_start_load]. Qed.

Lemma accounted_loadAssets assets s : accounted s → accounted (loadAssets assets s).
Proof.
  unfold loadAssets. revert s. induction assets as [| a assets IH]; intros s Hs; [done |].
  simpl. apply IH. unfold start_asset.
  repeat case_decide; [by apply accounted_loadTexture | by apply accounted_loadCubeTexture | done].
Qed.

Lemma accounted_image_loaded i t s : accounted s → accounted (image_loaded i t s).
Proof.
  intros (Hle & Hnone & Hsome). unfold image_loaded.
  destruct (in_flight s !! i) as [l |] eqn:Hl; [| done].
  pose proof (length_in_flight_delete _ _ _ Hl) as Hlen.
  pose proof (clean_lookup _ _ _ Hl) as Hclean.
  pose proof (lookup_lt_Some _ _ _ Hl) as Hi.
  case_decide as Hlast.
  - destruct (broken l) eqn:Hb.
    + unfold accounted. simpl. rewrite clean_delete. split; [lia |]. split.
      * intros Hf. destruct (Hnone Hf) as [_ Hall].
        rewrite Forall_forall in Hall. specialize (Hall l (list_elem_of_lookup_2 _ _ _ Hl)).
        congruence.
      * intros Hf. specialize (Hsome Hf). lia.
    + unfold on_load. rewrite Hl. unfold accounted. simpl. rewrite clean_delete.
      split; [lia |]. split.
      * intros Hf. destruct (Hnone Hf) as [Heq Hall]. split; [lia |].
        by apply Forall_delete.
      * intros Hf. specialize (Hsome Hf). lia.
  - unfold accounted. simpl. rewrite length_insert, clean_insert by done. simpl.
    split; [lia |]. split.
    + intros Hf. destruct (Hnone Hf) as [Heq Hall]. split; [lia |].
      apply Forall_insert; [done |]. simpl.
      rewrite Forall_forall in Hall. apply Hall, (list_elem_of_lookup_2 _ _ _ Hl).
    + intros Hf. specialize (Hsome Hf). lia.
Qed.

Lemma accounted_image_failed i s : accounted s → accounted (image_failed i s).
Proof.
  intros (Hle & Hnone & Hsome). unfold image_failed.
  destruct (in_flight s !! i) as [l |] eqn:Hl; [| done].
  pose proof (length_in_flight_delete _ _ _ Hl) as Hlen.
  pose proof (clean_lookup _ _ _ Hl) as Hclean.
  pose proof (lookup_lt_Some _ _ _ Hl) as Hi.
  assert (loadedAssets s + clean (take i (in_flight s)) + clean (drop (S i) (in_flight s))
          < totalAssets s) as Hlt.
  { destruct (failedAssets s) as [| f fs] eqn:Hf.
    - destruct (Hnone eq_refl) as [Heq Hall].
      pose proof (clean_sound _ Hall) as Hsound.
      rewrite Forall_forall in Hall. specialize (Hall l (list_elem_of_lookup_2 _ _ _ Hl)).
      rewrite Hall in Hclean. lia.
    - assert (f :: fs ≠ []) as Hne by done. specialize (Hsome Hne).
      destruct (broken l); lia. }
  cbv zeta. case_decide as Hlast.
  - unfold accounted. simpl. rewrite clean_delete. split; [lia |]. split.
    + intros Hf. by apply app_nil in Hf as [_ ?].
    + intros _. lia.
  - unfold accounted. simpl. rewrite length_insert, clean_insert by done. simpl.
    split; [lia |]. split.
    + intros Hf. by apply app_nil in Hf as [_ ?].
    + intros _. lia.
Qed.

Lemma accounted_call c s : c ≠ ClearAll → accounted s → accounted (call s c).
Proof.
  intros Hc Hs. destruct c; cbn [call].
  - by apply accounted_loadTexture.
  - by apply accounted_loadCubeTexture.
  - by apply accounted_loadAssets.
  - by apply accounted_image_loaded.
  - by apply accounted_image_failed.
  - unfold createProceduralTexture. by destruct (textures s !! n).
  - done.
  - done.
  - done.
Qed.

Lemma accounted_new : accounted new_AssetManager.
Proof.
  split; [done |]. split; [by split; [| apply Forall_nil] |]. by intros H.
Qed.

Lemma accounted_calls cs s :
  Forall (λ c, c ≠ ClearAll) cs → accounted s → accounted (calls cs s).
Proof.
  unfold calls. intros Hcs. revert s.
  induction Hcs as [| c cs Hc Hcs IH]; intros s Hs; [done |].
  simpl. by apply IH, accounted_call.
Qed.




(** X19: as long as [clearAll()] is not called, every load that is loaded
    or still with its loader is counted in [totalAssets], so [loadedAssets]
    never exceeds it; while nothing has failed, every load counted is
    loaded or still with its loader; and [isComplete()] holds exactly when
    some load was started, none failed and none is in flight. *)
Theorem loads_are_accounted_for cs :
  Forall (λ c, c ≠ ClearAll) cs →
  let s := calls cs new_AssetManager in
  loadedAssets s + length (in_flight s) ≤ totalAssets s ∧
  (failedAssets s = [] → loadedAssets s + length (in_flight s) = totalAssets s) ∧
  (isComplete s = true ↔ 0 < totalAssets s ∧ failedAssets s = [] ∧ in_flight s = []).
Proof.
  intros Hcs s.
  assert (accounted s) as Hs by (apply accounted_calls; [done | apply accounted_new]).
  pose proof Hs as (Hle & Hnone & Hsome).
  split; [done |]. split; [by intros Hf; apply Hnone |].
  unfold isComplete. rewrite andb_true_iff, !bool_decide_eq_true. split.
  - intros [Hpos Heq]. split; [done |].
    destruct (failedAssets s) as [| f fs] eqn:Hf.
    + split; [done |]. destruct (Hnone eq_refl) as [Hsum _].
      destruct (in_flight s); [done | simpl in Hsum; lia].
    + assert (f :: fs ≠ []) as Hne by done. specialize (Hsome Hne). lia.
  - intros (Hpos & Hf & Hp). split; [done |].
    destruct (Hnone Hf) as [Hsum _]. rewrite Hp in Hsum. simpl in Hsum. lia.
Qed.

Lemma loads_are_accounted_for_witness :
  let s := calls [LoadAssets [("texture", "wood"); ("cube-texture", "sky"); ("font", "mono")];
                  ImageFailed 1; ImageFailed 1; ImageLoaded 0 7; LoadTexture "wood"]
             new_AssetManager in
  totalAssets s = 2 ∧ loadedAssets s = 1 ∧ length (failedAssets s) = 2 ∧
  length (in_flight s) = 1 ∧ isComplete s = false ∧
  loadedAssets s + length (in_flight s) ≤ totalAssets s.
Proof.
  intros s.
  assert (Forall (λ c, c ≠ ClearAll)
            [LoadAssets [("texture", "wood"); ("cube-texture", "sky"); ("font", "mono")];
             ImageFailed 1; ImageFailed 1; ImageLoaded 0 7; LoadTexture "wood"]) as Hcs
    by (repeat constructor; done).
  pose proof (loads_are_accounted_for _ Hcs) as (Hle & _).
  split; [done |]. split; [done |]. split; [done |]. split; [done |]. split; [done |].
  exact Hle.
Defined.



(** X21: [clearAll()] empties the caches and the counters but leaves the
    loads in flight with their loaders.  A load that completes afterwards
    caches its texture and is counted as loaded without being counted in
    [totalAssets]; one more load started then makes [isComplete()] true
    while that load is still in flight. *)
Theorem clearAll_keeps_loads_in_flight s i l t n :
  in_flight s !! i = Some l → n ≠ name l →
  let s1 := on_load i t (clearAll s) in
  textures s1 = {[ name l := t ]} ∧ totalAssets s1 = 0 ∧ loadedAssets s1 = 1 ∧
  isComplete (loadTexture n s1) = true ∧
  in_flight (loadTexture n s1)
  = delete i (in_flight s)
    ++ [{| kind := texture; name := n; images := 1; broken := false |}].
Proof.
  intros Hl Hn s1. subst s1. unfold on_load. simpl. rewrite Hl. simpl.
  split; [by rewrite insert_empty |]. split; [done |]. split; [done |].
  unfold loadTexture. simpl.
  rewrite decide_False; [done |].
  rewrite lookup_insert_ne by done. rewrite lookup_empty. by intros [? ?].
Qed.

Lemma clearAll_keeps_loads_in_flight_witness :
  let s := calls [LoadTexture "wood"] new_AssetManager in
  let s1 := on_load 0 7 (clearAll s) in
  textures s1 = {[ "wood" := 7 ]} ∧ isComplete (loadTexture "sky" s1) = true ∧
  in_flight (loadTexture "sky" s1)
  = [{| kind := texture; name := "sky"; images := 1; broken := false |}].
Proof.
  intros s s1.
  assert (in_flight s !! 0
          = Some {| kind := texture; name := "wood"; images := 1; broken := false |})
    as Hl by done.
  assert ("sky" ≠ "wood") as Hn by done.
  pose proof (clearAll_keeps_loads_in_flight s 0 _ 7 "sky" Hl Hn) as (H1 & _ & _ & H2 & H3).
  split; [exact H1 |]. split; [exact H2 |]. exact H3.
Defined.

End AssetManager.

(** ** The lighting system *)

(** [LightingSystem]: the registry of the lights, the registry of their
    helpers and the children of the scene.  A light, a target or a helper
    is an object: one the lighting system constructs, numbered in the order
    of construction, or one of the caller.  Colours, intensities and
    positions do not reach the registries or the scene and are left out, and
    so are the events: their handlers are taken not to call the lighting
    system. *)
Module LightingSystem.

Inductive Object := made (n : nat) | given (n : nat).

#[global] Instance Object_eq_dec : EqDecision Object.
Proof. solve_decision. Defined.

(** A [Map] from names to objects, in the order of insertion. *)
Fixpoint map_get (k : string) (m : list (string * Object)) : option Object :=
  match m with
  | [] => None
  | e :: m => if decide (e.1 = k) then Some e.2 else map_get k m
  end.

Fixpoint map_set (k : string) (v : Object) (m : list (string * Object)) :
    list (string * Object) :=
  match m with
  | [] => [(k, v)]
  | e :: m => if decide (e.1 = k) then (k, v) :: m else e :: map_set k v m
  end.

Definition map_delete (k : string) (m : list (string * Object)) : list (string * Object) :=
  filter (λ e, e.1 ≠ k) m.

(** What [applyPreset] reads of a preset: which of its four properties are
    there, and whether [point] is one light or an array of lights. *)
Inductive Points := no_point | one_point | point_array (n : nat).

Record Preset := {
  ambient : bool;
  directional : bool;
  point : Points;
  hemisphere : bool
}.

(** [this.presets[key]] on the object literal of the constructor; a name
    inherited from [Object.prototype] reads as a truthy value with none of
    the four properties. *)
Definition presets (key : string) : option Preset :=
  if decide (key = "DEFAULT")
  then Some {| ambient := true; directional := true; point := no_point;
               hemisphere := false |}
  else if decide (key = "DRAMATIC")
  then Some {| ambient := true; directional := true; point := one_point;
               hemisphere := false |}
  else if decide (key = "SUNSET")
  then Some {| ambient := true; directional := true; point := no_point;
               hemisphere := true |}
  else if decide (key = "NEON")
  then Some {| ambient := true; directional := false; point := point_array 2;
               hemisphere := false |}
  else if decide (key ∈ PerformanceMonitor.Object_prototype)
  then Some {| ambient := false; directional := false; point := no_point;
               hemisphere := false |}
  else None.

Record State := {
  lights : list (string * Object);
  lightHelpers : list (string * Object);
  showHelpers : bool;
  currentPreset : string;
  children : list Object;
  constructed : nat
}.

(** [new LightingSystem(scene, options)], with the objects the scene holds
    already. *)
Definition new_LightingSystem (scene : list nat) (show : bool) : State :=
  {| lights := []; lightHelpers := []; showHelpers := show; currentPreset := "DEFAULT";
     children := given <$> scene; constructed := 0 |}.

Definition with_lights (m : list (string * Object)) (s : State) : State :=
  {| lights := m; lightHelpers := lightHelpers s; showHelpers := showHelpers s;
     currentPreset := currentPreset s; children := children s;
     constructed := constructed s |}.

Definition with_lightHelpers (m : list (string * Object)) (s : State) : State :=
  {| lights := lights s; lightHelpers := m; showHelpers := showHelpers s;
     currentPreset := currentPreset s; children := children s;
     constructed := constructed s |}.

Definition with_children (c : list Object) (s : State) : State :=
  {| lights := lights s; lightHelpers := lightHelpers s; showHelpers := showHelpers s;
     currentPreset := currentPreset s; children := c; constructed := constructed s |}.

Definition with_currentPreset (p : string) (s : State) : State :=
  {| lights := lights s; lightHelpers := lightHelpers s; showHelpers := showHelpers s;
     currentPreset := p; children := children s; constructed := constructed s |}.

(** [this.scene.add(object)]: the object leaves its place, if it has one,
    and becomes the last child. *)
Definition scene_add (o : Object) (s : State) : State :=
  with_children (filter (λ x, x ≠ o) (children s) ++ [o]) s.

(** [this.scene.remove(object)] *)
Definition scene_remove (o : Object) (s : State) : State :=
  with_children (filter (λ x, x ≠ o) (children s)) s.

(** [new THREE. ...]: an object that is none of those made before. *)
Definition construct (s : State) : Object * State :=
  (made (constructed s),
   {| lights := lights s; lightHelpers := lightHelpers s; showHelpers := showHelpers s;
      currentPreset := currentPreset s; children := children s;
      constructed := S (constructed s) |}).

(** [addLight(name, light)] *)
Definition addLight (name : string) (light : Object) (s : State) : State :=
  scene_add light (with_lights (map_set name light (lights s)) s).

(** The helper of a light, made when [showHelpers] is set. *)
Definition add_helper (name : string) (s : State) : State :=
  if showHelpers s then
    let '(helper, s1) := construct s in
    with_lightHelpers (map_set name helper (lightHelpers s1)) (scene_add helper s1)
  else s.

(** [createAmbientLight(name, color, intensity)] *)
Definition createAmbientLight (name : string) (s : State) : Object * State :=
  let '(light, s1) := construct s in
  (light, addLight name light s1).

(** [createDirectionalLight(name, color, intensity, position, castShadow)] *)
Definition createDirectionalLight (name : string) (s : State) : Object * State :=
  let '(light, s1) := construct s in
  (light, add_helper name (addLight name light s1)).

(** [createPointLight(name, color, intensity, position, distance)] *)
Definition createPointLight (name : string) (s : State) : Object * State :=
  let '(light, s1) := construct s in
  (light, add_helper name (addLight name light s1)).

(** [createSpotLight(name, color, intensity, position, target)]; the light
    comes with its target, an object of its own. *)
Definition createSpotLight (name : string) (s : State) : Object * State :=
  let '(light, s1) := construct s in
  let '(target, s2) := construct s1 in
  (light, add_helper name (scene_add target (addLight name light s2))).

(** [createHemisphereLight(name, skyColor, groundColor, intensity)] *)
Definition createHemisphereLight (name : string) (s : State) : Object * State :=
  let '(light, s1) := construct s in
  (light, add_helper name (addLight name light s1)).

(** [removeLight(name)] *)
Definition removeLight (name : string) (s : State) : State :=
  match map_get name (lights s) with
  | Some light =>
      let s1 := with_lights (map_delete name (lights s)) (scene_remove light s) in
      match map_get name (lightHelpers s1) with
      | Some helper =>
          with_lightHelpers (map_delete name (lightHelpers s1)) (scene_remove helper s1)
      | None => s1
      end
  | None => s
  end.

(** [getLight(name)] *)
Definition getLight (name : string) (s : State) : option Object :=
  map_get name (lights s).

(** [clearLights()]: the callback of [forEach] deletes the entry it is
    called with and no other, so every entry of the registry is visited. *)
Definition clearLights (s : State) : State :=
  foldl (λ s e, removeLight e.1 s) s (lights s).

(** [applyPreset(presetName)] *)
Definition applyPreset (presetName : string) (s : State) : State :=
  match presets presetName with
  | None => s
  | Some preset =>
      let s1 := clearLights s in
      let s2 := if ambient preset then (createAmbientLight "ambient" s1).2 else s1 in
      let s3 :=
        if directional preset then (createDirectionalLight "directional" s2).2 else s2 in
      let s4 :=
        match point preset with
        | no_point => s3
        | one_point => (createPointLight "point" s3).2
        | point_array n =>
            foldl (λ s (index : nat), (createPointLight ("point-" +:+ pretty index) s).2)
              s3 (seq 0 n)
        end in
      let s5 := if hemisphere preset then (createHemisphereLight "hemisphere" s4).2 else s4 in
      with_currentPreset presetName s5
  end.

(** [dispose()] *)
Definition dispose (s : State) : State := with_lightHelpers [] (clearLights s).

(** The calls of a user of the lighting system; a light handed to
    [addLight] is an object of the caller. *)
Inductive Call :=
| CreateAmbientLight (name : string)
| CreateDirectionalLight (name : string)
| CreatePointLight (name : string)
| CreateSpotLight (name : string)
| CreateHemisphereLight (name : string)
| AddLight (name : string) (light : nat)
| RemoveLight (name : string)
| ApplyPreset (presetName : string)
| ClearLights
| Dispose.

Definition call (s : State) (c : Call) : State :=
  match c with
  | CreateAmbientLight name => (createAmbientLight name s).2
  | CreateDirectionalLight name => (createDirectionalLight name s).2
  | CreatePointLight name => (createPointLight name s).2
  | CreateSpotLight name => (createSpotLight name s).2
  | CreateHemisphereLight name => (createHemisphereLight name s).2
  | AddLight name light => addLight name (given light) s
  | RemoveLight name => removeLight name s
  | ApplyPreset presetName => applyPreset presetName s
  | ClearLights => clearLights s
  | Dispose => dispose s
  end.

Definition calls (cs : list Call) (s : State) : State := foldl call s cs.

(** The names of the lights a preset asks for, in the order of creation. *)
Definition preset_names (preset : Preset) : list string :=
  (if ambient preset then ["ambient"] else []) ++
  (if directional preset then ["directional"] else []) ++
  match point preset with
  | no_point => []
  | one_point => ["point"]
  | point_array n => (λ index : nat, "point-" +:+ pretty index) <$> seq 0 n
  end ++
  (if hemisphere preset then ["hemisphere"] else []).

(** *** The registries *)

Lemma map_get_values k m v : map_get k m = Some v → v ∈ m.*2.
Proof.
  induction m as [| e m IH]; [done |]. simpl. case_decide.
  - intros [= <-]. by left.
  - intros H'. right. by apply IH.
Qed.

Lemma map_get_None k m : map_get k m = None ↔ k ∉ m.*1.
Proof.
  induction m as [| e m IH]; simpl.
  - split; [intros _; apply not_elem_of_nil | done].
  - rewrite not_elem_of_cons. case_decide as He.
    + split; [done | intros [Hk _]; by destruct Hk].
    + rewrite IH. split; [by intros H'; split | by intros [_ H']].
Qed.

Lemma map_set_entries k v m e : e ∈ map_set k v m → e = (k, v) ∨ e ∈ m.
Proof.
  induction m as [| e' m IH]; simpl.
  - intros ->%list_elem_of_singleton. by left.
  - case_decide.
    + intros [-> | H']%elem_of_cons; [by left | right; by right].
    + intros [-> | H']%elem_of_cons; [right; by left |].
      destruct (IH H') as [-> | H'']; [by left | right; by right].
Qed.

Lemma map_set_values k v m o : o ∈ (map_set k v m).*2 → o = v ∨ o ∈ m.*2.
Proof.
  intros (e & -> & He)%list_elem_of_fmap.
  destruct (map_set_entries _ _ _ _ He) as [-> | H']; [by left |].
  right. apply list_elem_of_fmap. by exists e.
Qed.

Lemma map_delete_values k m o : o ∈ (map_delete k m).*2 → o ∈ m.*2.
Proof.
  intros (e & -> & He)%list_elem_of_fmap. apply list_elem_of_fmap. exists e.
  split; [done |]. unfold map_delete in He. by apply list_elem_of_filter in He as [_ He].
Qed.

Lemma map_set_keys_new k v m : k ∉ m.*1 → (map_set k v m).*1 = m.*1 ++ [k].
Proof.
  induction m as [| e m IH]; [done |]. csimpl. rewrite not_elem_of_cons.
  intros [Hk Hm]. rewrite decide_False by done. csimpl. by rewrite IH.
Qed.

Lemma map_delete_keys k m : (map_delete k m).*1 = filter (λ x, x ≠ k) m.*1.
Proof.
  unfold map_delete. induction m as [| e m IH]; [done |]. csimpl.
  destruct (decide (e.1 = k)) as [He | He].
  - rewrite !filter_cons_False by (intros H'; by apply H'). done.
  - rewrite !filter_cons_True by done. csimpl. by rewrite IH.
Qed.

Lemma filter_all {A} (P : A → Prop) `{∀ x, Decision (P x)} (l : list A) :
  Forall P l → filter P l = l.
Proof.
  induction 1 as [| x l Hx Hl IH]; [done |]. rewrite filter_cons_True by done.
  by rewrite IH.
Qed.

Lemma filter_none {A} (P : A → Prop) `{∀ x, Decision (P x)} (l : list A) :
  Forall (λ x, ¬ P x) l → filter P l = [].
Proof.
  induction 1 as [| x l Hx Hl IH]; [done |]. by rewrite filter_cons_False.
Qed.

Lemma lights_removeLight name s :
  (lights (removeLight name s)).*1 = filter (λ x, x ≠ name) (lights s).*1.
Proof.
  unfold removeLight. destruct (map_get name (lights s)) as [light |] eqn:Hl.
  - simpl. destruct (map_get name (lightHelpers s)); simpl; apply map_delete_keys.
  - apply map_get_None in Hl. symmetry. apply filter_all.
    apply Forall_forall. intros x Hx ->. by apply Hl.
Qed.

Lemma lights_clearing (names : list string) s :
  (lights (foldl (λ s e, removeLight e s) s names)).*1 =
  filter (λ x, x ∉ names) (lights s).*1.
Proof.
  revert s. induction names as [| n names IH]; intros s; simpl.
  - symmetry. apply filter_all, Forall_forall. intros x _. apply not_elem_of_nil.
  - rewrite IH, lights_removeLight, list_filter_filter.
    apply list_filter_iff. intros x. rewrite not_elem_of_cons. tauto.
Qed.

Lemma clearLights_fold s :
  clearLights s = foldl (λ s e, removeLight e s) s (lights s).*1.
Proof.
  unfold clearLights. generalize (lights s). intros m. revert s.
  induction m as [| e m IH]; intros s; [done |]. simpl. apply IH.
Qed.

Lemma lights_clearLights s : lights (clearLights s) = [].
Proof.
  apply (fmap_nil_inv fst). rewrite clearLights_fold, lights_clearing.
  apply filter_none, Forall_forall. by intros x Hx H'.
Qed.

(** *** Objects out of reach *)

(** An object that is in the scene, but is neither a registered light nor
    a registered helper; if the lighting system made it, it has made it
    already. *)
Definition stranded (o : Object) (s : State) : Prop :=
  o ∈ children s ∧ (o ∉ ((lights s).*2)) ∧ (o ∉ ((lightHelpers s).*2)) ∧
  ∀ n, o = made n → n < constructed s.

(** An object the lighting system has made already, or an object of the
    caller. *)
Definition known (o : Object) (s : State) : Prop := ∀ n, o = made n → n < constructed s.

(** The objects the lighting system will make are not around yet. *)
Definition fresh (s : State) : Prop :=
  ∀ o, o ∈ children s ∨ (o ∈ ((lights s).*2)) ∨ (o ∈ ((lightHelpers s).*2)) → known o s.

(** Every registered light is in the scene. *)
Definition in_scene (s : State) : Prop := ∀ e, e ∈ lights s → e.2 ∈ children s.

Lemma elem_of_scene_add o x s : o ∈ children (scene_add x s) ↔ o = x ∨ o ∈ children s.
Proof.
  simpl. rewrite elem_of_app, list_elem_of_filter, list_elem_of_singleton.
  destruct (decide (o = x)) as [-> | Hne].
  - split; intros _; [by left | by right].
  - split.
    + intros [[_ H'] | H']; [by right | done].
    + intros [H' | H']; [done | by left].
Qed.

Lemma elem_of_scene_remove o x s : o ∈ children (scene_remove x s) ↔ o ≠ x ∧ o ∈ children s.
Proof. simpl. by rewrite list_elem_of_filter. Qed.

Section Stranded.

Variable o : Object.

Lemma stranded_construct s : stranded o s → stranded o (construct s).2 ∧ (construct s).1 ≠ o.
Proof.
  intros (Hc & Hl & Hh & Hn). split.
  - split; [done |]. split; [done |]. split; [done |].
    intros n Ho. specialize (Hn n Ho). simpl. lia.
  - intros Ho. symmetry in Ho. specialize (Hn _ Ho). lia.
Qed.

Lemma stranded_addLight name light s :
  light ≠ o → stranded o s → stranded o (addLight name light s).
Proof.
  intros Hne (Hc & Hl & Hh & Hn). split; [| split; [| by split]].
  - apply elem_of_scene_add. by right.
  - simpl. intros [-> | H']%map_set_values; [done | by apply Hl].
Qed.

Lemma stranded_scene_add x s : stranded o s → stranded o (scene_add x s).
Proof.
  intros (Hc & Hl & Hh & Hn). split; [| done]. apply elem_of_scene_add. by right.
Qed.

Lemma stranded_add_helper name s : stranded o s → stranded o (add_helper name s).
Proof.
  intros Hs. unfold add_helper. destruct (showHelpers s); [| done].
  destruct (stranded_construct s Hs) as [Hs1 Hne].
  destruct (construct s) as [helper s1]. simpl in Hs1, Hne.
  apply (stranded_scene_add helper) in Hs1. destruct Hs1 as (Hc & Hl & Hh & Hn).
  split; [done |]. split; [done |]. split; [| done].
  simpl. intros [-> | H']%map_set_values; [done | by apply Hh].
Qed.

Lemma stranded_createAmbientLight name s :
  stranded o s → stranded o (createAmbientLight name s).2.
Proof.
  intros Hs. unfold createAmbientLight.
  destruct (stranded_construct s Hs) as [Hs1 Hne].
  destruct (construct s) as [light s1]. by apply stranded_addLight.
Qed.

Lemma stranded_with_helper name s :
  stranded o s →
  stranded o (let '(light, s1) := construct s in
              (light, add_helper name (addLight name light s1))).2.
Proof.
  intros Hs. destruct (stranded_construct s Hs) as [Hs1 Hne].
  destruct (construct s) as [light s1]. by apply stranded_add_helper, stranded_addLight.
Qed.

Lemma stranded_createSpotLight name s :
  stranded o s → stranded o (createSpotLight name s).2.
Proof.
  intros Hs. unfold createSpotLight.
  destruct (stranded_construct s Hs) as [Hs1 Hne].
  destruct (construct s) as [light s1]. simpl in Hs1, Hne.
  destruct (stranded_construct s1 Hs1) as [Hs2 Hne2].
  destruct (construct s1) as [target s2]. simpl in Hs2.
  by apply stranded_add_helper, stranded_scene_add, stranded_addLight.
Qed.

Lemma stranded_removeLight name s : stranded o s → stranded o (removeLight name s).
Proof.
  intros (Hc & Hl & Hh & Hn). unfold removeLight.
  destruct (map_get name (lights s)) as [light |] eqn:Hlight; [| done].
  assert (light ≠ o) as Hne.
  { intros ->. by apply Hl, (map_get_values name). }
  simpl. destruct (map_get name (lightHelpers s)) as [helper |] eqn:Hhelper.
  - assert (helper ≠ o) as Hne'.
    { intros ->. by apply Hh, (map_get_values name). }
    split; [| split; [| split; [| done]]]; simpl.
    + apply list_elem_of_filter. split; [by intros -> |].
      apply list_elem_of_filter. split; [by intros -> | done].
    + intros H'%map_delete_values. by apply Hl.
    + intros H'%map_delete_values. by apply Hh.
  - split; [| split; [| split; [| done]]]; simpl.
    + apply list_elem_of_filter. split; [by intros -> | done].
    + intros H'%map_delete_values. by apply Hl.
    + done.
Qed.

Lemma stranded_clearLights s : stranded o s → stranded o (clearLights s).
Proof.
  unfold clearLights. generalize (lights s). intros m. revert s.
  induction m as [| e m IH]; intros s Hs; [done |].
  simpl. by apply IH, stranded_removeLight.
Qed.

End Stranded.

(** What every creation and every removal keeps is kept by the calls made
    of them. *)
Section Kept.

Variable I : State → Prop.

Hypothesis I_ambient : ∀ name s, I s → I (createAmbientLight name s).2.
Hypothesis I_helped : ∀ name s, I s → I (createDirectionalLight name s).2.
Hypothesis I_spot : ∀ name s, I s → I (createSpotLight name s).2.
Hypothesis I_currentPreset : ∀ p s, I s → I (with_currentPreset p s).

Lemma applyPreset_keeps presetName s :
  (presets presetName = None → I s) → I (clearLights s) → I (applyPreset presetName s).
Proof.
  intros Hs0 Hs. unfold applyPreset.
  destruct (presets presetName) as [preset |]; [| by apply Hs0].
  clear Hs0. revert Hs. generalize (clearLights s). clear s. intros s Hs.
  apply I_currentPreset.
  assert (I (if ambient preset then (createAmbientLight "ambient" s).2 else s))
    as Hs2 by (destruct (ambient preset); [by apply I_ambient | done]).
  revert Hs2. generalize (if ambient preset then (createAmbientLight "ambient" s).2 else s).
  clear s Hs. intros s Hs.
  assert (I (if directional preset
             then (createDirectionalLight "directional" s).2 else s))
    as Hs3 by (destruct (directional preset); [by apply I_helped | done]).
  revert Hs3.
  generalize (if directional preset then (createDirectionalLight "directional" s).2 else s).
  clear s Hs. intros s Hs.
  assert (I match point preset with
            | no_point => s
            | one_point => (createPointLight "point" s).2
            | point_array n =>
                foldl (λ s (index : nat),
                         (createPointLight ("point-" +:+ pretty index) s).2) s (seq 0 n)
            end) as Hs4.
  { destruct (point preset) as [| | n]; [done | by apply I_helped |].
    revert s Hs. generalize 0. induction n as [| n IH]; intros i s Hs; [done |].
    simpl. by apply IH, I_helped. }
  revert Hs4.
  generalize (match point preset with
              | no_point => s
              | one_point => (createPointLight "point" s).2
              | point_array n =>
                  foldl (λ s (index : nat),
                           (createPointLight ("point-" +:+ pretty index) s).2) s (seq 0 n)
              end).
  clear s Hs. intros s Hs.
  destruct (hemisphere preset); [| done].
  by apply I_helped.
Qed.

Variable allowed : nat → Prop.

Hypothesis I_removeLight : ∀ name s, I s → I (removeLight name s).
Hypothesis I_addLight : ∀ name n s, allowed n → I s → I (addLight name (given n) s).
Hypothesis I_no_helpers : ∀ s, I s → I (with_lightHelpers [] s).

Lemma clearLights_keeps s : I s → I (clearLights s).
Proof.
  unfold clearLights. generalize (lights s). intros m. revert s.
  induction m as [| e m IH]; intros s Hs; [done |].
  simpl. by apply IH, I_removeLight.
Qed.

Definition allowed_call (c : Call) : Prop :=
  match c with
  | AddLight _ n => allowed n
  | _ => True
  end.

Lemma call_keeps c s : allowed_call c → I s → I (call s c).
Proof.
  intros Hc Hs. destruct c; cbn [call].
  - by apply I_ambient.
  - by apply I_helped.
  - by apply I_helped.
  - by apply I_spot.
  - by apply I_helped.
  - by apply I_addLight.
  - by apply I_removeLight.
  - by apply applyPreset_keeps; [| apply clearLights_keeps].
  - by apply clearLights_keeps.
  - by apply I_no_helpers, clearLights_keeps.
Qed.

Lemma calls_keeps cs s : Forall allowed_call cs → I s → I (calls cs s).
Proof.
  unfold calls. intros Hcs. revert s.
  induction Hcs as [| c cs Hc Hcs IH]; intros s Hs; [done |].
  simpl. by apply IH, call_keeps.
Qed.

End Kept.

Lemma stranded_calls o cs s :
  Forall (allowed_call (λ n, given n ≠ o)) cs → stranded o s → stranded o (calls cs s).
Proof.
  apply calls_keeps.
  - apply stranded_createAmbientLight.
  - apply stranded_with_helper.
  - apply stranded_createSpotLight.
  - done.
  - apply stranded_removeLight.
  - intros name n s' Hn. by apply stranded_addLight.
  - intros s' (Hc & Hl & Hh & Hn). split; [done |]. split; [done |].
    split; [apply not_elem_of_nil | done].
Qed.


(** *** Objects to come *)

Lemma known_construct o s : known o s → known o (construct s).2.
Proof. intros H n Ho. specialize (H n Ho). simpl. lia. Qed.

Lemma fresh_construct s :
  fresh s → fresh (construct s).2 ∧ known (construct s).1 (construct s).2.
Proof.
  intros Hs. split.
  - intros o Ho. apply known_construct. by apply Hs.
  - intros n [= <-]. simpl. lia.
Qed.

Lemma fresh_scene_add x s : known x s → fresh s → fresh (scene_add x s).
Proof.
  intros Hx Hs o [Ho | Ho].
  - apply elem_of_scene_add in Ho as [-> | Ho]; [done |]. apply Hs. by left.
  - apply Hs. by right.
Qed.

Lemma fresh_addLight name light s : known light s → fresh s → fresh (addLight name light s).
Proof.
  intros Hx Hs o [Ho | [Ho | Ho]].
  - apply elem_of_scene_add in Ho as [-> | Ho]; [done |]. apply Hs. by left.
  - simpl in Ho. apply map_set_values in Ho as [-> | Ho]; [done |].
    apply Hs. right. by left.
  - apply Hs. right. by right.
Qed.

Lemma fresh_add_helper name s : fresh s → fresh (add_helper name s).
Proof.
  intros Hs. unfold add_helper. destruct (showHelpers s); [| done].
  destruct (fresh_construct s Hs) as [Hs1 Hk].
  destruct (construct s) as [helper s1]. simpl in Hs1, Hk.
  apply (fresh_scene_add helper) in Hs1; [| done].
  intros o [Ho | [Ho | Ho]].
  - apply Hs1. by left.
  - apply Hs1. right. by left.
  - simpl in Ho. apply map_set_values in Ho as [-> | Ho]; [done |].
    apply Hs1. right. by right.
Qed.

Lemma fresh_createAmbientLight name s : fresh s → fresh (createAmbientLight name s).2.
Proof.
  intros Hs. unfold createAmbientLight. destruct (fresh_construct s Hs) as [Hs1 Hk].
  destruct (construct s) as [light s1]. by apply fresh_addLight.
Qed.

Lemma fresh_with_helper name s : fresh s → fresh (createDirectionalLight name s).2.
Proof.
  intros Hs. unfold createDirectionalLight. destruct (fresh_construct s Hs) as [Hs1 Hk].
  destruct (construct s) as [light s1]. by apply fresh_add_helper, fresh_addLight.
Qed.

Lemma fresh_createSpotLight name s : fresh s → fresh (createSpotLight name s).2.
Proof.
  intros Hs. unfold createSpotLight. destruct (fresh_construct s Hs) as [Hs1 Hk].
  destruct (construct s) as [light s1]. simpl in Hs1, Hk.
  destruct (fresh_construct s1 Hs1) as [Hs2 Hk2]. apply known_construct in Hk.
  destruct (construct s1) as [target s2]. simpl in Hs2, Hk, Hk2.
  apply fresh_add_helper, fresh_scene_add; [done |]. by apply fresh_addLight.
Qed.

Lemma fresh_removeLight name s : fresh s → fresh (removeLight name s).
Proof.
  intros Hs. unfold removeLight. destruct (map_get name (lights s)) as [light |]; [| done].
  cbv zeta.
  assert (fresh (with_lights (map_delete name (lights s)) (scene_remove light s))) as Hs1.
  { intros o [Ho | [Ho | Ho]].
    - apply elem_of_scene_remove in Ho as [_ Ho]. apply Hs. by left.
    - simpl in Ho. apply map_delete_values in Ho. apply Hs. right. by left.
    - apply Hs. right. by right. }
  revert Hs1. generalize (with_lights (map_delete name (lights s)) (scene_remove light s)).
  intros s1 Hs1. destruct (map_get name (lightHelpers s1)) as [helper |]; [| done].
  intros o [Ho | [Ho | Ho]].
  - apply elem_of_scene_remove in Ho as [_ Ho]. apply Hs1. by left.
  - apply Hs1. right. by left.
  - simpl in Ho. apply map_delete_values in Ho. apply Hs1. right. by right.
Qed.

Lemma fresh_calls cs s : fresh s → fresh (calls cs s).
Proof.
  intros Hs. apply (calls_keeps fresh) with (allowed := λ _, True).
  - apply fresh_createAmbientLight.
  - apply fresh_with_helper.
  - apply fresh_createSpotLight.
  - done.
  - apply fresh_removeLight.
  - intros name n s' _. by apply fresh_addLight.
  - intros s' Hs' o [Ho | [Ho | Ho]].
    + apply Hs'. by left.
    + apply Hs'. right. by left.
    + by apply elem_of_nil in Ho.
  - apply Forall_forall. intros c _. by destruct c.
  - done.
Qed.

Lemma fresh_new scene show : fresh (new_LightingSystem scene show).
Proof.
  intros o [Ho | [Ho | Ho]].
  - simpl in Ho. apply list_elem_of_fmap in Ho as (n & -> & _). by intros k.
  - by apply elem_of_nil in Ho.
  - by apply elem_of_nil in Ho.
Qed.

(** *** What a creation does *)

Lemma lights_add_helper name s : lights (add_helper name s) = lights s.
Proof. unfold add_helper. by destruct (showHelpers s). Qed.

Lemma children_add_helper name x s : x ∈ children s → x ∈ children (add_helper name s).
Proof.
  intros Hx. unfold add_helper. destruct (showHelpers s); [| done].
  apply (elem_of_scene_add x (made (constructed s)) (construct s).2). by right.
Qed.

Lemma lightHelpers_add_helper name o s :
  o ∈ (lightHelpers (add_helper name s)).*2 →
  o ∈ (lightHelpers s).*2 ∨ o = made (constructed s).
Proof.
  unfold add_helper. destruct (showHelpers s); [| by left].
  simpl. intros [-> | Ho]%map_set_values; [by right | by left].
Qed.

Lemma constructed_add_helper name s : constructed s ≤ constructed (add_helper name s).
Proof. unfold add_helper. destruct (showHelpers s); simpl; lia. Qed.

Lemma lights_with_helper name s :
  lights (createDirectionalLight name s).2 = map_set name (made (constructed s)) (lights s).
Proof. unfold createDirectionalLight. simpl. by rewrite lights_add_helper. Qed.

Lemma lights_createAmbientLight name s :
  lights (createAmbientLight name s).2 = map_set name (made (constructed s)) (lights s).
Proof. done. Qed.

Lemma lights_createPointLight name s :
  lights (createPointLight name s).2 = map_set name (made (constructed s)) (lights s).
Proof. apply lights_with_helper. Qed.

Lemma lights_createHemisphereLight name s :
  lights (createHemisphereLight name s).2 = map_set name (made (constructed s)) (lights s).
Proof. apply lights_with_helper. Qed.

Lemma lights_createSpotLight name s :
  lights (createSpotLight name s).2 = map_set name (made (constructed s)) (lights s).
Proof. unfold createSpotLight. simpl. by rewrite lights_add_helper. Qed.



Lemma map_get_entries k v m : map_get k m = Some v → (k, v) ∈ m.
Proof.
  induction m as [| [k' v'] m IH]; [done |]. simpl. case_decide as He.
  - intros [= <-]. subst. by left.
  - intros H'. right. by apply IH.
Qed.

Lemma map_get_delete_ne k n m : n ≠ k → map_get k (map_delete n m) = map_get k m.
Proof.
  intros Hne. unfold map_delete. induction m as [| e m IH]; [done |].
  destruct (decide (e.1 = n)) as [He | He].
  - rewrite filter_cons_False by (intros H'; by apply H'). simpl.
    rewrite decide_False by congruence. done.
  - rewrite filter_cons_True by done. simpl. by rewrite IH.
Qed.

Lemma in_scene_addLight name light s : in_scene s → in_scene (addLight name light s).
Proof.
  intros Hs e He. simpl in He. apply elem_of_scene_add.
  apply map_set_entries in He as [-> | He]; [by left | right; by apply Hs].
Qed.

Lemma in_scene_add_helper name s : in_scene s → in_scene (add_helper name s).
Proof.
  intros Hs e He. rewrite lights_add_helper in He. by apply children_add_helper, Hs.
Qed.

Lemma in_scene_createAmbientLight name s :
  in_scene s → in_scene (createAmbientLight name s).2.
Proof. intros Hs. by apply (in_scene_addLight name _ (construct s).2). Qed.

Lemma in_scene_with_helper name s :
  in_scene s → in_scene (createDirectionalLight name s).2.
Proof.
  intros Hs. by apply in_scene_add_helper, (in_scene_addLight name _ (construct s).2).
Qed.

(** *** Clearing *)

Lemma children_removeLight x name s : x ∉ children s → x ∉ children (removeLight name s).
Proof.
  intros Hx. unfold removeLight. destruct (map_get name (lights s)); [| done].
  cbv zeta. destruct (map_get name (lightHelpers _)).
  - intros [_ [_ H']%elem_of_scene_remove]%elem_of_scene_remove. by apply Hx.
  - intros [_ H']%elem_of_scene_remove. by apply Hx.
Qed.

Lemma removeLight_takes_out name light s :
  getLight name s = Some light → light ∉ children (removeLight name s).
Proof.
  unfold getLight, removeLight. intros ->. cbv zeta.
  destruct (map_get name (lightHelpers _)).
  - intros [_ [H' _]%elem_of_scene_remove]%elem_of_scene_remove. by apply H'.
  - intros [H' _]%elem_of_scene_remove. by apply H'.
Qed.

Lemma getLight_removeLight_ne n name s :
  n ≠ name → getLight name (removeLight n s) = getLight name s.
Proof.
  intros Hne. unfold getLight, removeLight. destruct (map_get n (lights s)); [| done].
  cbv zeta. destruct (map_get n (lightHelpers _)); simpl; by apply map_get_delete_ne.
Qed.

Lemma children_clearing x (names : list string) s :
  x ∉ children s → x ∉ children (foldl (λ s e, removeLight e s) s names).
Proof.
  revert s. induction names as [| n names IH]; intros s Hx; [done |].
  simpl. by apply IH, children_removeLight.
Qed.

Lemma clearing_takes_out (names : list string) name light s :
  name ∈ names → getLight name s = Some light →
  light ∉ children (foldl (λ s e, removeLight e s) s names).
Proof.
  revert s. induction names as [| n names IH]; intros s Hin Hg.
  - by apply elem_of_nil in Hin.
  - simpl. destruct (decide (n = name)) as [-> | Hne].
    + by apply children_clearing, removeLight_takes_out.
    + apply IH; [| by rewrite getLight_removeLight_ne].
      apply elem_of_cons in Hin as [-> | Hin]; done.
Qed.

Lemma clearLights_takes_out name light s :
  getLight name s = Some light → light ∉ children (clearLights s).
Proof.
  intros Hg. rewrite clearLights_fold. apply (clearing_takes_out _ name); [| done].
  destruct (decide (name ∈ (lights s).*1)) as [Hin | Hout]; [done |].
  apply map_get_None in Hout. unfold getLight in Hg. congruence.
Qed.

Lemma presets_inherited presetName :
  presetName ∈ PerformanceMonitor.Object_prototype →
  presets presetName =
    Some {| ambient := false; directional := false; point := no_point;
            hemisphere := false |}.
Proof.
  intros Hp. unfold presets. rewrite (decide_True _ _ Hp).
  repeat case_decide; try done; subst; exfalso; revert Hp;
    unfold PerformanceMonitor.Object_prototype; EventBusRegistry.not_listed.
Qed.

(** X22: [applyPreset] with the name of a preset leaves in the registry
    the lights of that preset and no other, under the names [ambient],
    [directional], [point] or [point-0], [point-1], and [hemisphere], in
    that order; each of them is in the scene, and [currentPreset] is the
    name given. *)
Theorem preset_lights_replace_the_registry presetName preset s :
  presets presetName = Some preset →
  let s' := applyPreset presetName s in
  (lights s').*1 = preset_names preset ∧
  currentPreset s' = presetName ∧
  ∀ name light, getLight name s' = Some light → light ∈ children s'.
Proof.
  intros Hp s'. split; [| split].
  - subst s'. unfold applyPreset. rewrite Hp. pose proof (lights_clearLights s) as Hl.
    revert Hl. generalize (clearLights s). intros s0 Hl.
    unfold presets in Hp.
    repeat case_decide; simplify_eq; unfold preset_names;
      cbn [lights with_currentPreset ambient directional point hemisphere seq foldl];
      rewrite ?lights_createPointLight, ?lights_createHemisphereLight,
        ?lights_with_helper, ?lights_createAmbientLight, ?Hl;
      reflexivity.
  - subst s'. unfold applyPreset. by rewrite Hp.
  - assert (in_scene s') as Hs'.
    { apply applyPreset_keeps.
      - apply in_scene_createAmbientLight.
      - apply in_scene_with_helper.
      - done.
      - by rewrite Hp.
      - intros e. rewrite lights_clearLights. by intros ?%elem_of_nil. }
    intros name light Hg. apply map_get_entries in Hg. by apply (Hs' (name, light)).
Qed.

Lemma preset_lights_replace_the_registry_witness :
  let s := calls [CreateSpotLight "spot"; CreatePointLight "ambient"]
             (new_LightingSystem [] true) in
  let s' := applyPreset "NEON" s in
  (lights s').*1 = ["ambient"; "point-0"; "point-1"] ∧ currentPreset s' = "NEON" ∧
  getLight "point-1" s' = Some (made 8) ∧ made 8 ∈ children s'.
Proof.
  intros s s'.
  assert (presets "NEON" =
            Some {| ambient := true; directional := false; point := point_array 2;
                    hemisphere := false |}) as Hp by reflexivity.
  assert (getLight "point-1" s' = Some (made 8)) as Hg by reflexivity.
  pose proof (preset_lights_replace_the_registry "NEON" _ s Hp) as (H1 & H2 & H3).
  split; [exact H1 |]. split; [exact H2 |]. split; [exact Hg |].
  exact (H3 "point-1" (made 8) Hg).
Defined.

(** X23: a name that every object inherits from [Object.prototype] is
    taken for a preset without lights.  [applyPreset] with such a name
    removes every registered light from the registry and from the scene,
    creates none and records the name as the current preset. *)
Theorem inherited_preset_name_removes_every_light presetName s :
  presetName ∈ PerformanceMonitor.Object_prototype →
  let s' := applyPreset presetName s in
  lights s' = [] ∧ currentPreset s' = presetName ∧
  constructed s' = constructed s ∧
  ∀ name light, getLight name s = Some light → light ∉ children s'.
Proof.
  intros Hp s'. subst s'. unfold applyPreset. rewrite (presets_inherited _ Hp). simpl.
  split; [apply lights_clearLights |]. split; [done |]. split.
  - unfold clearLights. generalize (lights s). intros m. revert s.
    induction m as [| e m IH]; intros s; [done |]. simpl. rewrite IH.
    unfold removeLight. destruct (map_get e.1 (lights s)); [| done].
    cbv zeta. by destruct (map_get e.1 (lightHelpers _)).
  - intros name light Hg. by apply (clearLights_takes_out name).
Qed.

Lemma inherited_preset_name_removes_every_light_witness :
  let s := applyPreset "DRAMATIC" (new_LightingSystem [] false) in
  (lights s).*1 = ["ambient"; "directional"; "point"] ∧
  lights (applyPreset "toString" s) = [] ∧
  currentPreset (applyPreset "toString" s) = "toString" ∧
  children (applyPreset "toString" s) = [].
Proof.
  intros s.
  assert ("toString" ∈ PerformanceMonitor.Object_prototype) as Hp
    by (unfold PerformanceMonitor.Object_prototype; set_solver).
  pose proof (inherited_preset_name_removes_every_light "toString" s Hp) as (H1 & H2 & _).
  split; [reflexivity |]. split; [exact H1 |]. split; [exact H2 |]. reflexivity.
Defined.

(** *** Lights left behind *)



Lemma strangers_allowed (n : nat) cs : Forall (allowed_call (λ k, given k ≠ made n)) cs.
Proof. apply Forall_forall. intros c _. by destruct c. Qed.

Lemma stranded_out_of_reach o s :
  stranded o s → o ∈ children s ∧ ∀ n, getLight n s ≠ Some o.
Proof.
  intros (Hc & Hl & _). split; [done |]. intros n Hg. by apply Hl, (map_get_values n).
Qed.



(** X25: [createSpotLight] adds the target of the light to the scene, and
    nothing takes it out again: whatever is called afterwards,
    [removeLight] of that light, [clearLights], [applyPreset] and
    [dispose] included, the target is still a child of the scene, and it
    is no registered light. *)
Theorem spot_light_target_stays_in_the_scene scene show cs0 name cs :
  let s := calls cs0 (new_LightingSystem scene show) in
  let target := made (S (constructed s)) in
  let s' := calls cs (createSpotLight name s).2 in
  target ∈ children (createSpotLight name s).2 ∧
  target ∈ children s' ∧ ∀ n, getLight n s' ≠ Some target.
Proof.
  intros s target s'.
  assert (fresh s) as Hs by apply fresh_calls, fresh_new.
  assert (stranded target (createSpotLight name s).2) as Hst.
  { split; [| split; [| split]].
    - unfold createSpotLight. simpl. apply children_add_helper, elem_of_scene_add.
      by left.
    - rewrite lights_createSpotLight. intros [Heq | Ho]%map_set_values.
      + injection Heq as Heq. lia.
      + assert (known target s) as Hk by (apply Hs; right; by left).
        specialize (Hk _ eq_refl). lia.
    - unfold createSpotLight. simpl.
      intros [Ho | Heq]%lightHelpers_add_helper.
      + assert (known target s) as Hk by (apply Hs; right; by right).
        specialize (Hk _ eq_refl). lia.
      + injection Heq as Heq. simpl in Heq. lia.
    - intros n [= <-]. unfold createSpotLight. simpl.
      pose proof (constructed_add_helper name
                    (scene_add (made (S (constructed s)))
                       (addLight name (made (constructed s))
                          (construct (construct s).2).2))) as Hle.
      simpl in Hle. lia. }
  split; [apply Hst |].
  apply stranded_out_of_reach. subst s'. by apply stranded_calls; [apply strangers_allowed |].
Qed.

End LightingSystem.

(** ** The singleton classes *)

(** [EventBus], [PerformanceMonitor], [SceneManager] and [AssetManager]
    share one accessor and one guard in the constructor, around the static
    field [instance].  An object of the class is the number of its
    construction; past its guard the constructor is taken to return. *)
Module Singleton.

Section Class.

(** The name of the class, for the message of the error. *)
Variable class_name : string.

Record Class := { instance : option nat; constructed : nat }.

(** [static instance = null] *)
Definition loaded : Class := {| instance := None; constructed := 0 |}.

Inductive Outcome := returned (object : nat) | thrown (message : string).

(** [new C()] *)
Definition new (k : Class) : Outcome * Class :=
  match instance k with
  | Some _ => (thrown (class_name +:+ " is a singleton. Use getInstance()"), k)
  | None =>
      (returned (constructed k),
       {| instance := instance k; constructed := S (constructed k) |})
  end.

(** [C.getInstance()] *)
Definition getInstance (k : Class) : Outcome * Class :=
  match instance k with
  | Some object => (returned object, k)
  | None =>
      match new k with
      | (returned object, k1) =>
          (returned object, {| instance := Some object; constructed := constructed k1 |})
      | (thrown message, k1) => (thrown message, k1)
      end
  end.

Inductive Call := New | GetInstance.

Definition call (c : Call) (k : Class) : Outcome * Class :=
  match c with
  | New => new k
  | GetInstance => getInstance k
  end.

(** The outcomes of a sequence of calls, an error being caught by the
    caller. *)
Fixpoint run (cs : list Call) (k : Class) : list Outcome * Class :=
  match cs with
  | [] => ([], k)
  | c :: cs =>
      let '(outcome, k1) := call c k in
      let '(outcomes, k2) := run cs k1 in
      (outcome :: outcomes, k2)
  end.

Lemma run_app cs cs' k :
  run (cs ++ cs') k = ((run cs k).1 ++ (run cs' (run cs k).2).1, (run cs' (run cs k).2).2).
Proof.
  revert k. induction cs as [| c cs IH]; intros k; simpl.
  - by destruct (run cs' k).
  - destruct (call c k) as [outcome k1]. rewrite IH.
    by destruct (run cs k1) as [outcomes k2].
Qed.

Lemma run_unguarded cs n :
  GetInstance ∉ cs →
  run cs {| instance := None; constructed := n |} =
    (returned <$> seq n (length cs), {| instance := None; constructed := n + length cs |}).
Proof.
  revert n. induction cs as [| c cs IH]; intros n Hcs; simpl.
  - do 2 f_equal. lia.
  - apply not_elem_of_cons in Hcs as [Hc Hcs]. destruct c; [| done].
    simpl. rewrite (IH (S n) Hcs). f_equal. f_equal. lia.
Qed.

Lemma run_guarded cs object n :
  run cs {| instance := Some object; constructed := n |} =
    ((λ c, match c with
           | New => thrown (class_name +:+ " is a singleton. Use getInstance()")
           | GetInstance => returned object
           end) <$> cs,
     {| instance := Some object; constructed := n |}).
Proof.
  induction cs as [| c cs IH]; [done |]. simpl.
  destruct c; simpl; by rewrite IH.
Qed.

(** X26: the constructor looks at [instance] but never sets it.  Before
    the first [getInstance()] every [new] returns one more object of the
    class; the first [getInstance()] constructs the instance; from then on
    every [getInstance()] returns that instance and every [new] throws. *)
Theorem singleton_is_enforced_after_getInstance before after :
  GetInstance ∉ before →
  (run (before ++ GetInstance :: after) loaded).1 =
    (returned <$> seq 0 (length before)) ++
    returned (length before) ::
    ((λ c, match c with
           | New => thrown (class_name +:+ " is a singleton. Use getInstance()")
           | GetInstance => returned (length before)
           end) <$> after).
Proof.
  intros Hb. rewrite run_app. unfold loaded. rewrite (run_unguarded before 0 Hb).
  simpl. unfold getInstance. simpl. by rewrite run_guarded.
Qed.

End Class.

Lemma singleton_is_enforced_after_getInstance_witness :
  (run "EventBus" [New; New; GetInstance; GetInstance; New] (loaded)).1 =
    [returned 0; returned 1; returned 2; returned 2;
     thrown "EventBus is a singleton. Use getInstance()"].
Proof.
  assert (GetInstance ∉ [New; New]) as Hb by EventBusRegistry.not_listed.
  exact (singleton_is_enforced_after_getInstance "EventBus" [New; New]
           [GetInstance; New] Hb).
Defined.

End Singleton.
